(** * i3 command parser (src/commands_parser.c): a shallow embedding

    The parser is a table-driven state machine.  This development models
    - C strings as lists of characters read through [peek], which yields the
      terminating 0-byte at the end of the list;
    - [const char *] cursors into the input as offsets into that list;
    - the ten-slot argument stack as a list updated by index;
    - the process-wide parser variables as one record threaded through the
      driver, together with a trace of the calls made to external code.

    The generated token table, the generated call dispatcher and the criteria
    subsystem are not part of the parser; they are parameters of the model. *)

From Stdlib Require Import Ascii String ZArith Lia.
From stdpp Require Import base option list strings.

Local Open Scope nat_scope.

(** ** Characters and C strings *)

Abbreviation cstr := (list ascii).

Definition NUL : ascii := "000"%char.
Definition dquote : ascii := "034"%char.
Definition squote : ascii := "039"%char.
Definition backslash : ascii := "092"%char.
Definition space : ascii := " "%char.
Definition tab : ascii := "009"%char.
Definition LF : ascii := "010"%char.
Definition VT : ascii := "011"%char.
Definition FF : ascii := "012"%char.
Definition CR : ascii := "013"%char.
Definition comma : ascii := ","%char.
Definition semicolon : ascii := ";"%char.
Definition rbracket : ascii := "]"%char.
Definition caret : ascii := "^"%char.
Definition langle : ascii := "<"%char.
Definition rangle : ascii := ">"%char.

(** A C string literal of the source, as a list of characters. *)
Definition lit (s : string) : cstr := list_ascii_of_string s.

(** [s[i]]: the character at offset [i]; the byte after the last character is
    the terminator. *)
Definition peek (s : cstr) (i : nat) : ascii := default NUL (s !! i).

(** A buffer is a well-formed C string content when no character before the
    terminator is itself the 0-byte. *)
Definition wf_cstr (s : cstr) : Prop := Forall (fun c => c <> NUL) s.

(** The C string held in a zero-filled buffer: the characters before the first
    0-byte. *)
Fixpoint c_str (buf : list ascii) : cstr :=
  match buf with
  | [] => []
  | c :: buf' => if Ascii.eqb c NUL then [] else c :: c_str buf'
  end.

(** [strcmp(a, b) == 0] *)
Definition streq (a b : cstr) : bool := bool_decide (a = b).

(** ** The argument stack (struct stack: ten entries) *)

Inductive stack_type := STACK_STR | STACK_LONG.

(** The union [val] of an entry: either the [str] or the [num] member was
    written last. *)
Inductive stack_val :=
| val_str (str : option cstr)
| val_num (num : Z).

Record stack_entry := {
  se_identifier : option cstr;   (* NULL when the slot is free *)
  se_type : stack_type;
  se_val : stack_val
}.

Abbreviation stack := (list stack_entry).

Definition STACK_SIZE : nat := 10.

Definition stack_wf (st : stack) : Prop := length st = STACK_SIZE.

(** Result of code that may call [exit(EXIT_FAILURE)], and of the driver loop,
    which is run on fuel. *)
Inductive outcome (A : Type) :=
| Ret (a : A)
| Exit
| OutOfFuel.
Arguments Ret {A} a.
Arguments Exit {A}.
Arguments OutOfFuel {A}.

Definition bind {A B} (m : outcome A) (k : A -> outcome B) : outcome B :=
  match m with
  | Ret a => k a
  | Exit => Exit
  | OutOfFuel => OutOfFuel
  end.

Notation "'do' x <- m ; k" := (bind m (fun x => k))
  (at level 10, x name, m at level 100, k at level 200).

(** The loop shared by [push_string] and [push_long]: [for (c = ..; c < 10;
    c++)], started at [c] with [n] iterations left.  The first slot whose
    identifier is NULL receives the entry; running off the end is the
    stack-full branch. *)
Fixpoint push_loop (n c : nat) (e : stack_entry) (st : stack) : outcome stack :=
  match n with
  | 0 => Exit
  | S n' =>
      match st !! c with
      | Some old =>
          match se_identifier old with
          | Some _ => push_loop n' (S c) e st
          | None => Ret (<[c := e]> st)
          end
      | None => Exit   (* no such slot: not reached on a ten-entry stack *)
      end
  end.

Definition push_string (st : stack) (identifier : cstr) (str : cstr) : outcome stack :=
  push_loop STACK_SIZE 0
    {| se_identifier := Some identifier; se_type := STACK_STR; se_val := val_str (Some str) |} st.

Definition push_long (st : stack) (identifier : cstr) (num : Z) : outcome stack :=
  push_loop STACK_SIZE 0
    {| se_identifier := Some identifier; se_type := STACK_LONG; se_val := val_num num |} st.

(** [get_string] and [get_long] stop at the first free slot and return the
    value of the first slot whose identifier compares equal. *)
Fixpoint get_loop (n c : nat) (identifier : cstr) (st : stack) : option stack_val :=
  match n with
  | 0 => None
  | S n' =>
      match st !! c with
      | Some e =>
          match se_identifier e with
          | None => None
          | Some i => if streq identifier i then Some (se_val e)
                      else get_loop n' (S c) identifier st
          end
      | None => None
      end
  end.

(** A read of the union [val] through one of its members.  The member that
    was written last reads as the value written; the other member reads the
    same bytes as a value of its own type, which is recorded as such: the
    lookups do not look at the [type] tag of the slot. *)
Inductive str_read :=
| str_is (str : option cstr)       (* the pointer stored through [str] *)
| str_of_num (num : Z).            (* the bytes of the stored number *)

Inductive num_read :=
| num_is (num : Z)                 (* the number stored through [num] *)
| num_of_str (str : option cstr).  (* the bytes of the stored pointer *)

Definition val_as_str (v : stack_val) : str_read :=
  match v with
  | val_str s => str_is s
  | val_num n => str_of_num n
  end.

Definition val_as_num (v : stack_val) : num_read :=
  match v with
  | val_num n => num_is n
  | val_str s => num_of_str s
  end.

(** [return stack->stack[c].val.str] for the first slot with the name,
    [return NULL] without one. *)
Definition get_string (st : stack) (identifier : cstr) : str_read :=
  match get_loop STACK_SIZE 0 identifier st with
  | Some v => val_as_str v
  | None => str_is None
  end.

(** [return stack->stack[c].val.num] for the first slot with the name,
    [return 0] without one. *)
Definition get_long (st : stack) (identifier : cstr) : num_read :=
  match get_loop STACK_SIZE 0 identifier st with
  | Some v => val_as_num v
  | None => num_is 0
  end.

(** [clear_stack]: every identifier becomes NULL, [val.str] is set to NULL and
    then [val.num] to 0; the type tag is left as it is. *)
Definition clear_entry (e : stack_entry) : stack_entry :=
  {| se_identifier := None; se_type := se_type e; se_val := val_num 0 |}.

Definition clear_stack (st : stack) : stack :=
  map clear_entry (take STACK_SIZE st) ++ drop STACK_SIZE st.

(** The zero-initialised static stack. *)
Definition empty_stack : stack :=
  replicate STACK_SIZE {| se_identifier := None; se_type := STACK_STR; se_val := val_num 0 |}.

(** Occupied slots and their names. *)
Definition occupied (e : stack_entry) : bool :=
  match se_identifier e with Some _ => true | None => false end.

Definition names (st : stack) : list cstr := omap se_identifier st.

(** ** The sub-lexers *)

(** [while (p( *walk )) walk++], on fuel: every loop of the parser stops at
    the terminating 0-byte, so [S (length s)] iterations are always enough. *)
Fixpoint scan_while (fuel : nat) (p : ascii -> bool) (s : cstr) (walk : nat) : nat :=
  match fuel with
  | 0 => walk
  | S fuel' => if p (peek s walk) then scan_while fuel' p s (S walk) else walk
  end.

(** [tolower] in the C locale. *)
Definition tolower (c : ascii) : ascii :=
  let n := nat_of_ascii c in
  if (65 <=? n) && (n <=? 90) then ascii_of_nat (n + 32) else c.

(** [strncasecmp(s1 + i1, s2 + i2, n) == 0]: at most [n] characters are
    compared without regard to case; the comparison ends early, as equal, when
    both strings end. *)
Fixpoint strncasecmp (s1 : cstr) (i1 : nat) (s2 : cstr) (i2 : nat) (n : nat) : bool :=
  match n with
  | 0 => true
  | S n' =>
      let c1 := tolower (peek s1 i1) in
      let c2 := tolower (peek s2 i2) in
      if Ascii.eqb c1 c2
      then if Ascii.eqb c1 NUL then true else strncasecmp s1 (S i1) s2 (S i2) n'
      else false
  end.

(** The literal test of the driver: [strncasecmp(walk, token->name + 1,
    strlen(token->name) - 1) == 0]. *)
Definition match_literal (input : cstr) (walk : nat) (name : cstr) : bool :=
  strncasecmp input walk name 1 (length name - 1).

(** *** strtol(walk, &end, 10) *)

Definition LONG_MAX : Z := (2 ^ 63 - 1)%Z.
Definition LONG_MIN : Z := (- 2 ^ 63)%Z.

Definition isspace (c : ascii) : bool :=
  Ascii.eqb c space || Ascii.eqb c tab || Ascii.eqb c LF ||
  Ascii.eqb c VT || Ascii.eqb c FF || Ascii.eqb c CR.

Definition isdigit (c : ascii) : bool :=
  let n := nat_of_ascii c in (48 <=? n) && (n <=? 57).

Definition digit_val (c : ascii) : Z := (Z.of_nat (nat_of_ascii c) - 48)%Z.

(** The value of the digits in [s[i .. j)]. *)
Definition digits_val (s : cstr) (i j : nat) : Z :=
  fold_left (fun acc c => (acc * 10 + digit_val c)%Z) (take (j - i) (drop i s)) 0%Z.

Record strtol_result := {
  st_num : Z;          (* the returned value *)
  st_end : nat;        (* [end], as an offset into the input *)
  st_erange : bool     (* [errno == ERANGE] *)
}.

Definition strtol (s : cstr) (walk : nat) : strtol_result :=
  let fuel := S (length s) in
  let i := scan_while fuel isspace s walk in
  let neg := Ascii.eqb (peek s i) "-"%char in
  let i := if neg || Ascii.eqb (peek s i) "+"%char then S i else i in
  let j := scan_while fuel isdigit s i in
  if j =? i then {| st_num := 0; st_end := walk; st_erange := false |}
  else
    let v := digits_val s i j in
    let v := if neg then (- v)%Z else v in
    if (LONG_MAX <? v)%Z then {| st_num := LONG_MAX; st_end := j; st_erange := true |}
    else if (v <? LONG_MIN)%Z then {| st_num := LONG_MIN; st_end := j; st_erange := true |}
    else {| st_num := v; st_end := j; st_erange := false |}.

(** The number test of the driver: [None] for the two [continue] branches,
    otherwise the value and the new cursor. *)
Definition match_number (input : cstr) (walk : nat) : option (Z * nat) :=
  let r := strtol input walk in
  let num := st_num r in
  if (st_erange r && ((num =? LONG_MIN)%Z || (num =? LONG_MAX)%Z))
     || (st_erange r && (num =? 0)%Z)
  then None
  else if st_end r =? walk then None
  else Some (num, st_end r).

(** *** parse_string *)

(** The scan of a quoted value: [for (; **walk != 0 && **walk != dquote;
    ( *walk )++) if ( **walk == backslash && *( *walk + 1) != 0) ( *walk )++;] *)
Fixpoint scan_quoted (fuel : nat) (s : cstr) (walk : nat) : nat :=
  match fuel with
  | 0 => walk
  | S fuel' =>
      let c := peek s walk in
      if Ascii.eqb c NUL || Ascii.eqb c dquote then walk
      else
        let walk1 :=
          if Ascii.eqb c backslash && negb (Ascii.eqb (peek s (S walk)) NUL)
          then S walk else walk in
        scan_quoted fuel' s (S walk1)
  end.

(** Loop conditions of the unquoted scans. *)
Definition string_char (c : ascii) : bool :=
  negb (Ascii.eqb c semicolon) && negb (Ascii.eqb c comma) &&
  negb (Ascii.eqb c NUL) && negb (Ascii.eqb c CR) && negb (Ascii.eqb c LF).

Definition word_char (c : ascii) : bool :=
  negb (Ascii.eqb c space) && negb (Ascii.eqb c tab) &&
  negb (Ascii.eqb c rbracket) && negb (Ascii.eqb c comma) &&
  negb (Ascii.eqb c semicolon) && negb (Ascii.eqb c CR) &&
  negb (Ascii.eqb c LF) && negb (Ascii.eqb c NUL).

(** The test of the copy loop: [beginning[inpos] == backslash &&
    (beginning[inpos + 1] == dquote || beginning[inpos + 1] == backslash)]. *)
Definition escape_at (s : cstr) (i : nat) : bool :=
  Ascii.eqb (peek s i) backslash &&
  (Ascii.eqb (peek s (S i)) dquote || Ascii.eqb (peek s (S i)) backslash).

(** The copy loop: [for (inpos = 0, outpos = 0; inpos < n; inpos++, outpos++)],
    where [n = *walk - beginning] and [str] is the zero-filled buffer.  Each
    iteration advances [inpos], so [n] iterations of fuel are enough. *)
Fixpoint copy_loop (fuel : nat) (s : cstr) (beginning n inpos outpos : nat)
    (str : list ascii) : list ascii :=
  match fuel with
  | 0 => str
  | S fuel' =>
      if inpos <? n then
        let inpos1 := if escape_at s (beginning + inpos) then S inpos else inpos in
        copy_loop fuel' s beginning n (S inpos1) (S outpos)
          (<[outpos := peek s (beginning + inpos1)]> str)
      else str
  end.

(** [parse_string(&walk, as_word)]: the returned string (NULL is [None]) and
    the value left in [*walk]. *)
Definition parse_string (s : cstr) (walk : nat) (as_word : bool) : option cstr * nat :=
  let fuel := S (length s) in
  let '(beginning, walk) :=
    if Ascii.eqb (peek s walk) dquote
    then (S walk, scan_quoted fuel s (S walk))
    else if negb as_word
         then (walk, scan_while fuel string_char s walk)
         else (walk, scan_while fuel word_char s walk) in
  if walk =? beginning then (None, walk)
  else
    let n := walk - beginning in
    let str := replicate (n + 1) NUL in
    (Some (c_str (copy_loop n s beginning n 0 0 str)), walk).

(** ** The parser state *)

(** [cmdp_state] is a generated enumeration; its two distinguished values
    [INITIAL] and [__CALL] are parameters below. *)
Definition cmdp_state := nat.

Record cmdp_token := {
  tk_name : cstr;                  (* token->name *)
  tk_identifier : option cstr;     (* token->identifier, may be NULL *)
  tk_next_state : cmdp_state;      (* token->next_state, may be __CALL *)
  tk_call_identifier : nat         (* token->extra.call_identifier *)
}.

(** Opaque handles. *)
Definition yajl_gen := nat.
Definition ipc_client := nat.

Record CommandResultIR := {
  ir_json_gen : option yajl_gen;
  ir_client : option ipc_client;
  ir_next_state : cmdp_state;
  ir_needs_tree_render : bool;
  ir_execution_toggled : bool
}.

Record CommandResult := {
  parse_error : bool;
  error_message : option cstr;
  needs_tree_render : bool
}.

(** Calls made to code outside the parser, in the order they happen. *)
Inductive yajl_call :=
| yajl_array_open
| yajl_array_close
| yajl_map_open
| yajl_map_close
| yajl_bool (b : bool)
| yajl_string (s : cstr).

Inductive event :=
| ev_criteria_init
    (* cmd_criteria_init(&current_match, &subcommand_output) *)
| ev_call (call_identifier : nat) (st : stack) (next : cmdp_state) (render : bool)
    (* GENERATED_call with the stack it saw, and what it reported back *)
| ev_yajl (c : yajl_call)
| ev_elog (line : cstr).

Definition is_criteria_init (e : event) : bool :=
  match e with ev_criteria_init => true | _ => false end.

Definition is_call (e : event) : bool :=
  match e with ev_call _ _ _ _ => true | _ => false end.

Definition call_render (e : event) : bool :=
  match e with ev_call _ _ _ r => r | _ => false end.

(** Number of selection-context resets, number of dispatches, and the
    disjunction of the flags the dispatches reported, in a trace. *)
Definition criteria_inits (tr : list event) : nat := length (filter is_criteria_init tr).
Definition dispatches (tr : list event) : nat := length (filter is_call tr).
Definition any_render (tr : list event) : bool := existsb call_render tr.

Section Parser.

(** Everything the external code owns: [current_match], the window tree. *)
Variable W : Type.

Variables INITIAL __CALL : cmdp_state.

(** GENERATED_command_tokens.h: the token list of every state. *)
Variable tokens : cmdp_state -> list cmdp_token.

(** GENERATED_command_call.h and the criteria subsystem. *)
Variable GENERATED_call : W -> stack -> nat -> CommandResultIR -> W * CommandResultIR.
Variable cmd_criteria_init : W -> CommandResultIR -> W * CommandResultIR.

(** The static variables of the file. *)
Record globals := {
  g_state : cmdp_state;
  g_stack : stack;
  g_subcommand_output : CommandResultIR;
  g_command_output : CommandResultIR;
  g_world : W;
  g_trace : list event
}.

Definition set_state (s : cmdp_state) (g : globals) : globals :=
  {| g_state := s; g_stack := g_stack g;
     g_subcommand_output := g_subcommand_output g;
     g_command_output := g_command_output g;
     g_world := g_world g; g_trace := g_trace g |}.

Definition set_stack (st : stack) (g : globals) : globals :=
  {| g_state := g_state g; g_stack := st;
     g_subcommand_output := g_subcommand_output g;
     g_command_output := g_command_output g;
     g_world := g_world g; g_trace := g_trace g |}.

Definition set_command_output (o : CommandResultIR) (g : globals) : globals :=
  {| g_state := g_state g; g_stack := g_stack g;
     g_subcommand_output := g_subcommand_output g;
     g_command_output := o;
     g_world := g_world g; g_trace := g_trace g |}.

Definition set_subcommand_output (o : CommandResultIR) (g : globals) : globals :=
  {| g_state := g_state g; g_stack := g_stack g;
     g_subcommand_output := o;
     g_command_output := g_command_output g;
     g_world := g_world g; g_trace := g_trace g |}.

Definition set_world (w : W) (g : globals) : globals :=
  {| g_state := g_state g; g_stack := g_stack g;
     g_subcommand_output := g_subcommand_output g;
     g_command_output := g_command_output g;
     g_world := w; g_trace := g_trace g |}.

Definition emit (e : event) (g : globals) : globals :=
  {| g_state := g_state g; g_stack := g_stack g;
     g_subcommand_output := g_subcommand_output g;
     g_command_output := g_command_output g;
     g_world := g_world g; g_trace := g_trace g ++ [e] |}.

Definition set_needs_tree_render (b : bool) (o : CommandResultIR) : CommandResultIR :=
  {| ir_json_gen := ir_json_gen o; ir_client := ir_client o;
     ir_next_state := ir_next_state o; ir_needs_tree_render := b;
     ir_execution_toggled := ir_execution_toggled o |}.

(** The macros [y(x, ...)] and [ystr(str)]: nothing happens without a
    generator. *)
Definition y (c : yajl_call) (g : globals) : globals :=
  match ir_json_gen (g_command_output g) with
  | Some _ => emit (ev_yajl c) g
  | None => g
  end.

Definition ystr (s : cstr) (g : globals) : globals := y (yajl_string s) g.

Definition ELOG (line : cstr) (g : globals) : globals := emit (ev_elog line) g.

(** The call of [cmd_criteria_init], as compiled without TEST_PARSER. *)
Definition call_criteria_init (g : globals) : globals :=
  let '(w, sub) := cmd_criteria_init (g_world g) (g_subcommand_output g) in
  emit ev_criteria_init (set_subcommand_output sub (set_world w g)).

(** ** next_state *)
Definition next_state (token : cmdp_token) (g : globals) : globals :=
  if tk_next_state token =? __CALL then
    let sub :=
      {| ir_json_gen := ir_json_gen (g_command_output g);
         ir_client := ir_client (g_command_output g);
         ir_next_state := ir_next_state (g_subcommand_output g);
         ir_needs_tree_render := false;
         ir_execution_toggled := ir_execution_toggled (g_subcommand_output g) |} in
    let '(w, sub') :=
      GENERATED_call (g_world g) (g_stack g) (tk_call_identifier token) sub in
    let g1 := set_subcommand_output sub' (set_world w g) in
    let g2 := emit (ev_call (tk_call_identifier token) (g_stack g)
                      (ir_next_state sub') (ir_needs_tree_render sub')) g1 in
    let g3 := set_state (ir_next_state sub') g2 in
    let g4 := if ir_needs_tree_render sub'
              then set_command_output (set_needs_tree_render true (g_command_output g3)) g3
              else g3 in
    set_stack (clear_stack (g_stack g4)) g4
  else
    let g1 := set_state (tk_next_state token) g in
    if g_state g1 =? INITIAL then set_stack (clear_stack (g_stack g1)) g1 else g1.

(** ** The driver: one token attempt *)

Definition is_space (c : ascii) : bool :=
  (Ascii.eqb c space || Ascii.eqb c tab || Ascii.eqb c CR || Ascii.eqb c LF)
  && negb (Ascii.eqb c NUL).

Definition is_terminator (c : ascii) : bool :=
  Ascii.eqb c NUL || Ascii.eqb c comma || Ascii.eqb c semicolon.

Definition push_string_if (identifier : option cstr) (str : cstr) (g : globals) : outcome globals :=
  match identifier with
  | Some i => do st <- push_string (g_stack g) i str; Ret (set_stack st g)
  | None => Ret g
  end.

Definition push_long_if (identifier : option cstr) (num : Z) (g : globals) : outcome globals :=
  match identifier with
  | Some i => do st <- push_long (g_stack g) i num; Ret (set_stack st g)
  | None => Ret g
  end.

(** The [end] test, reached by every token that is neither a literal nor
    [number]; [walk] is the cursor as the preceding tests left it. *)
Definition try_end (input : cstr) (token : cmdp_token) (walk : nat) (g : globals)
    : bool * nat * globals :=
  if streq (tk_name token) (lit "end") then
    if is_terminator (peek input walk) then
      let g1 := next_state token g in
      let g2 := if Ascii.eqb (peek input walk) NUL || Ascii.eqb (peek input walk) semicolon
                then call_criteria_init g1 else g1 in
      (true, S walk, g2)
    else (false, walk, g)
  else (false, walk, g).

(** The body of [for (c = 0; c < ptr->n; c++)] for one token: whether the
    token was handled ([break]) or not ([continue] or the end of the body),
    the cursor and the globals afterwards. *)
Definition try_token (input : cstr) (token : cmdp_token) (walk : nat) (g : globals)
    : outcome (bool * nat * globals) :=
  let name := tk_name token in
  if Ascii.eqb (peek name 0) squote then
    (* A literal. *)
    if match_literal input walk name then
      do g1 <- push_string_if (tk_identifier token) (drop 1 name) g;
      Ret (true, walk + (length name - 1), next_state token g1)
    else Ret (false, walk, g)
  else if streq name (lit "number") then
    match match_number input walk with
    | None => Ret (false, walk, g)
    | Some (num, end_) =>
        do g1 <- push_long_if (tk_identifier token) num g;
        Ret (true, end_, next_state token g1)
    end
  else if streq name (lit "string") || streq name (lit "word") then
    match parse_string input walk (negb (Ascii.eqb (peek name 0) "s"%char)) with
    | (Some str, walk1) =>
        do g1 <- push_string_if (tk_identifier token) str g;
        let walk2 := if Ascii.eqb (peek input walk1) dquote then S walk1 else walk1 in
        Ret (true, walk2, next_state token g1)
    | (None, walk1) => Ret (try_end input token walk1 g)
    end
  else Ret (try_end input token walk g).

Fixpoint try_tokens (input : cstr) (toks : list cmdp_token) (walk : nat) (g : globals)
    : outcome (bool * nat * globals) :=
  match toks with
  | [] => Ret (false, walk, g)
  | token :: rest =>
      do r <- try_token input token walk g;
      let '(handled, walk1, g1) := r in
      if handled then Ret (true, walk1, g1) else try_tokens input rest walk1 g1
  end.

(** ** The error message *)

Definition render_token (token : cmdp_token) : cstr :=
  if Ascii.eqb (peek (tk_name token) 0) squote
  then [squote] ++ drop 1 (tk_name token) ++ [squote]
  else [langle] ++ tk_name token ++ [rangle].

(** The second loop over the tokens: each rendered token, followed by a
    comma and a space unless it is the last one. *)
Fixpoint possible_tokens (toks : list cmdp_token) : cstr :=
  match toks with
  | [] => []
  | token :: rest =>
      render_token token ++
      match rest with
      | [] => []
      | _ :: _ => [comma; space] ++ possible_tokens rest
      end
  end.

Definition errormessage (toks : list cmdp_token) : cstr :=
  lit "Expected one of these tokens: " ++ possible_tokens toks.

(** [position]: one character per input character, a caret from the cursor
    on and a space before it. *)
Definition position (input : cstr) (walk : nat) : cstr :=
  map (fun i => if walk <=? i then caret else space) (seq 0 (length input)).

Definition set_error (msg : cstr) (r : CommandResult) : CommandResult :=
  {| parse_error := true; error_message := Some msg;
     needs_tree_render := needs_tree_render r |}.

Definition report_error (input : cstr) (walk : nat) (result : CommandResult) (g : globals)
    : CommandResult * globals :=
  let msg := errormessage (tokens (g_state g)) in
  let pos := position input walk in
  let g := ELOG msg g in
  let g := ELOG (lit "Your command: " ++ input) g in
  let g := ELOG (lit "              " ++ pos) g in
  let result := set_error msg result in
  let g := y yajl_map_open g in
  let g := ystr (lit "success") g in
  let g := y (yajl_bool false) g in
  let g := ystr (lit "parse_error") g in
  let g := y (yajl_bool true) g in
  let g := ystr (lit "error") g in
  let g := ystr msg g in
  let g := ystr (lit "input") g in
  let g := ystr input g in
  let g := ystr (lit "errorposition") g in
  let g := ystr pos g in
  let g := y yajl_map_close g in
  (result, set_stack (clear_stack (g_stack g)) g).

(** ** The driver loop and parse_command *)

(** [while ((size_t)(walk - input) <= len)]; the loop is run on fuel, one
    unit per iteration. *)
Fixpoint parse_loop (fuel : nat) (input : cstr) (walk : nat)
    (result : CommandResult) (g : globals) : outcome (CommandResult * globals) :=
  if length input <? walk then Ret (result, g)
  else
    match fuel with
    | 0 => OutOfFuel
    | S fuel' =>
        let walk := scan_while (S (length input)) is_space input walk in
        do r <- try_tokens input (tokens (g_state g)) walk g;
        let '(handled, walk1, g1) := r in
        if handled then parse_loop fuel' input walk1 result g1
        else Ret (report_error input walk1 result g1)
    end.

Definition parse_command (fuel : nat) (input : cstr) (gen : option yajl_gen)
    (client : option ipc_client) (g : globals) : outcome (CommandResult * globals) :=
  let g := set_state INITIAL g in
  let result := {| parse_error := false; error_message := None; needs_tree_render := false |} in
  let sub := g_subcommand_output g in
  let g := set_subcommand_output
             {| ir_json_gen := ir_json_gen sub; ir_client := ir_client sub;
                ir_next_state := ir_next_state sub;
                ir_needs_tree_render := ir_needs_tree_render sub;
                ir_execution_toggled := false |} g in
  let out := g_command_output g in
  let g := set_command_output
             {| ir_json_gen := gen; ir_client := client;
                ir_next_state := ir_next_state out;
                ir_needs_tree_render := ir_needs_tree_render out;
                ir_execution_toggled := ir_execution_toggled out |} g in
  let g := y yajl_array_open g in
  let g := set_command_output (set_needs_tree_render false (g_command_output g)) g in
  let g := call_criteria_init g in
  do r <- parse_loop fuel input 0 result g;
  let '(result, g) := r in
  let g := y yajl_array_close g in
  Ret ({| parse_error := parse_error result; error_message := error_message result;
          needs_tree_render := ir_needs_tree_render (g_command_output g) |}, g).

End Parser.

Arguments g_state {W} _.
Arguments g_stack {W} _.
Arguments g_subcommand_output {W} _.
Arguments g_command_output {W} _.
Arguments g_world {W} _.
Arguments g_trace {W} _.

(** Whether the [end] test of an attempt with [token] at cursor [walk]
    re-initialises the criteria: the token is an [end] token and the cursor
    reads the terminator or a semicolon. *)
Definition resets_at (input : cstr) (token : cmdp_token) (walk : nat) : bool :=
  streq (tk_name token) (lit "end") &&
  (Ascii.eqb (peek input walk) NUL || Ascii.eqb (peek input walk) semicolon).

(** A token that cannot be handled at the end of the input: a literal with
    at least one character, or any token other than a literal and [end]. *)
Definition fails_on_empty (token : cmdp_token) : bool :=
  if Ascii.eqb (peek (tk_name token) 0) squote
  then (2 <=? length (tk_name token)) && negb (Ascii.eqb (peek (tk_name token) 1) NUL)
  else negb (streq (tk_name token) (lit "end")).

(** No literal of the table is empty. *)
Definition literal_nonempty (token : cmdp_token) : bool :=
  negb (Ascii.eqb (peek (tk_name token) 0) squote) || (2 <=? length (tk_name token)).

(** The calls of the error path, in order: three log lines and, with a
    generator, the failure record. *)
Definition error_events (input : cstr) (msg pos : cstr) (gen : option yajl_gen) : list event :=
  [ev_elog msg; ev_elog (lit "Your command: " ++ input);
   ev_elog (lit "              " ++ pos)] ++
  match gen with
  | Some _ =>
      map ev_yajl
        [yajl_map_open; yajl_string (lit "success"); yajl_bool false;
         yajl_string (lit "parse_error"); yajl_bool true;
         yajl_string (lit "error"); yajl_string msg;
         yajl_string (lit "input"); yajl_string input;
         yajl_string (lit "errorposition"); yajl_string pos; yajl_map_close]
  | None => []
  end.

(** Number of semicolons in a text. *)
Definition semicolons (s : cstr) : nat :=
  length (filter (fun c => Ascii.eqb c semicolon) s).

(** ** Views of the parser state used to state its properties *)

Section TraceViews.

Variable W : Type.

Definition flag (g : globals W) : bool := ir_needs_tree_render (g_command_output g).
Definition gen_of (g : globals W) : option yajl_gen := ir_json_gen (g_command_output g).

(** [g'] is [g] after some steps of the parser that added [tr] to the
    trace: the render flag can only have been raised, and only by a
    dispatch recorded in [tr]. *)
Definition delta (g g' : globals W) (tr : list event) : Prop :=
  g_trace g' = g_trace g ++ tr /\
  flag g' = flag g || any_render tr /\
  gen_of g' = gen_of g.

End TraceViews.

Arguments flag {W} g.
Arguments gen_of {W} g.
Arguments delta {W} g g' tr.

(** ** Sequences of pushes between two stack-clear events *)

Inductive push_op :=
| PushString (identifier : cstr) (str : cstr)
| PushLong (identifier : cstr) (num : Z).

Definition op_identifier (op : push_op) : cstr :=
  match op with
  | PushString i _ => i
  | PushLong i _ => i
  end.

(** The entry a push writes into the slot it finds. *)
Definition op_entry (op : push_op) : stack_entry :=
  match op with
  | PushString i s =>
      {| se_identifier := Some i; se_type := STACK_STR; se_val := val_str (Some s) |}
  | PushLong i n =>
      {| se_identifier := Some i; se_type := STACK_LONG; se_val := val_num n |}
  end.

Definition run_push (st : stack) (op : push_op) : outcome stack :=
  match op with
  | PushString i s => push_string st i s
  | PushLong i n => push_long st i n
  end.

Fixpoint run_pushes (ops : list push_op) (st : stack) : outcome stack :=
  match ops with
  | [] => Ret st
  | op :: ops' => do st1 <- run_push st op; run_pushes ops' st1
  end.

(** Slot [c] exists and is free. *)
Definition free_at (st : stack) (c : nat) : Prop :=
  exists e, st !! c = Some e /\ se_identifier e = None.

(** ** The escaping rule as the documentation words it

    A backslash immediately followed by a double quote or by a backslash is
    dropped and the second character is kept; every other character, a
    backslash before anything else included, is kept as it is. *)
Fixpoint unescape (s : cstr) : cstr :=
  match s with
  | [] => []
  | c :: rest =>
      match rest with
      | d :: rest' =>
          if Ascii.eqb c backslash && (Ascii.eqb d dquote || Ascii.eqb d backslash)
          then d :: unescape rest'
          else c :: unescape rest
      | [] => [c]
      end
  end.

(** ** List-level views of the loops of parse_string

    The quoted scan on the text that starts at the cursor: the number of
    characters it passes over before it stops at a double quote or at the
    terminator. *)
Fixpoint quoted_len (l : cstr) : nat :=
  match l with
  | [] => 0
  | c :: rest =>
      if Ascii.eqb c NUL || Ascii.eqb c dquote then 0
      else if Ascii.eqb c backslash then
        match rest with
        | d :: rest' => if Ascii.eqb d NUL then 1 else 2 + quoted_len rest'
        | [] => 1
        end
      else 1 + quoted_len rest
  end.

(** The copy loop on the text [l] that starts at [beginning], with [n]
    characters left to copy: the characters it writes, in order. *)
Fixpoint copied (fuel n : nat) (l : cstr) : cstr :=
  match fuel with
  | 0 => []
  | S fuel' =>
      match n with
      | 0 => []
      | S n' =>
          if escape_at l 0 then peek l 1 :: copied fuel' (n' - 1) (drop 2 l)
          else peek l 0 :: copied fuel' n' (drop 1 l)
      end
  end.

(** No backslash of the text is immediately followed by a double quote or a
    backslash. *)
Fixpoint no_escape (s : cstr) : bool :=
  match s with
  | [] => true
  | c :: rest =>
      match rest with
      | d :: _ =>
          negb (Ascii.eqb c backslash && (Ascii.eqb d dquote || Ascii.eqb d backslash))
          && no_escape rest
      | [] => true
      end
  end.

(** Texts joined by a separator: the first text, then the separator before
    each later one. *)
Definition join (sep : cstr) (l : list cstr) : cstr :=
  match l with
  | [] => []
  | x :: rest => x ++ concat (map (fun y => sep ++ y) rest)
  end.

(** The text between two cursors. *)
Definition slice (s : cstr) (from to : nat) : cstr := take (to - from) (drop from s).

(** ** A small token table in the style of parser-specs/commands.spec *)

Module Demo.

Definition INITIAL : cmdp_state := 0.
Definition MOVE : cmdp_state := 1.
Definition MOVE_DIRECTION : cmdp_state := 2.
Definition WORKSPACE : cmdp_state := 3.
Definition EXEC : cmdp_state := 4.
Definition BAR : cmdp_state := 5.
Definition CALL : cmdp_state := 99.

Definition tok (name : string) (identifier : option string) (next : cmdp_state)
    (call : nat) : cmdp_token :=
  {| tk_name := lit name; tk_identifier := option_map lit identifier;
     tk_next_state := next; tk_call_identifier := call |}.

Definition tokens (s : cmdp_state) : list cmdp_token :=
  match s with
  | 0 => [ tok "end" None INITIAL 0;
           tok "'move" None MOVE 0;
           tok "'workspace" None WORKSPACE 0;
           tok "'exec" None EXEC 0;
           tok "'bar" None BAR 0 ]
  | 1 => [ tok "'left" (Some "direction") MOVE_DIRECTION 0;
           tok "'right" (Some "direction") MOVE_DIRECTION 0 ]
  | 2 => [ tok "end" None CALL 1 ]
  | 3 => [ tok "number" (Some "workspace") CALL 2 ]
  | 4 => [ tok "'--no-startup-id" (Some "nosn") EXEC 0;
           tok "string" (Some "command") CALL 3 ]
  | 5 => [ tok "word" (Some "bar_id") CALL 4;
           tok "end" None CALL 5 ]
  | _ => []
  end.

(** A table whose initial state accepts the literal move only. *)
Definition move_only (s : cmdp_state) : list cmdp_token :=
  match s with
  | 0 => [ tok "'move" None MOVE 0 ]
  | _ => []
  end.

(** The generated dispatcher hands control back to the initial state; here
    only the move command (call 1) asks for a tree render. *)
Definition GENERATED_call (w : unit) (st : stack) (id : nat) (sub : CommandResultIR)
    : unit * CommandResultIR :=
  (w, {| ir_json_gen := ir_json_gen sub; ir_client := ir_client sub;
         ir_next_state := INITIAL; ir_needs_tree_render := id =? 1;
         ir_execution_toggled := ir_execution_toggled sub |}).

Definition cmd_criteria_init (w : unit) (sub : CommandResultIR) : unit * CommandResultIR :=
  (w, sub).

Definition ir0 : CommandResultIR :=
  {| ir_json_gen := None; ir_client := None; ir_next_state := 0;
     ir_needs_tree_render := false; ir_execution_toggled := false |}.

(** The static variables at program start. *)
Definition g0 : globals unit :=
  {| g_state := 0; g_stack := empty_stack; g_subcommand_output := ir0;
     g_command_output := ir0; g_world := tt; g_trace := [] |}.

Definition parse (tbl : cmdp_state -> list cmdp_token) (input : string)
    : outcome (CommandResult * globals unit) :=
  parse_command unit INITIAL CALL tbl GENERATED_call cmd_criteria_init
    (S (S (String.length input))) (lit input) None None g0.

(** Sample inputs: a quoted value with both escapes and a backslash before
    a letter; an unquoted value with both escapes; an unquoted value with a
    backslash before a letter only. *)
Definition quoted_sample : cstr :=
  [dquote] ++ lit "a" ++ [backslash; dquote] ++ lit "b" ++ [backslash; backslash]
  ++ lit "c" ++ [backslash] ++ lit "w" ++ [dquote] ++ lit " x".

Definition quoted_sample_capture : cstr :=
  lit "a" ++ [dquote] ++ lit "b" ++ [backslash] ++ lit "c" ++ [backslash] ++ lit "w".

Definition unquoted_escape_sample : cstr :=
  lit "a" ++ [backslash; dquote] ++ lit "b" ++ [backslash; backslash] ++ lit "c; x".

Definition unquoted_escape_capture : cstr :=
  lit "a" ++ [dquote] ++ lit "b" ++ [backslash] ++ lit "c".

Definition unquoted_plain_sample : cstr :=
  lit "con" ++ [backslash] ++ lit "w mark, x".

End Demo.

(** ** Further views of the stack, the sub-lexers and the trace *)

(** The first operation of a sequence that pushes under a given name. *)
Fixpoint first_op (identifier : cstr) (ops : list push_op) : option push_op :=
  match ops with
  | [] => None
  | op :: ops' =>
      if streq identifier (op_identifier op) then Some op else first_op identifier ops'
  end.

(** Every slot of a part of the stack is free. *)
Definition all_free (tail : stack) : Prop := Forall (fun e => se_identifier e = None) tail.

(** Writing a text as a quoted value: a backslash goes before every double
    quote and every backslash, and the whole is put between double quotes. *)
Fixpoint escape (s : cstr) : cstr :=
  match s with
  | [] => []
  | c :: rest =>
      if Ascii.eqb c dquote || Ascii.eqb c backslash
      then backslash :: c :: escape rest
      else c :: escape rest
  end.

Definition quote (s : cstr) : cstr := [dquote] ++ escape s ++ [dquote].

(** The calls to the generator among the events of a trace. *)
Definition yajl_of (e : event) : option yajl_call :=
  match e with
  | ev_yajl c => Some c
  | _ => None
  end.

Definition yajl_calls (tr : list event) : list yajl_call := omap yajl_of tr.

(** Steps of the parser that make no call to the generator. *)
Definition quiet {W} (g g1 : globals W) : Prop :=
  exists tr, delta g g1 tr /\ yajl_calls tr = [].

(** The failure record of a reply. *)
Definition failure_record (msg input pos : cstr) : list yajl_call :=
  [yajl_map_open; yajl_string (lit "success"); yajl_bool false;
   yajl_string (lit "parse_error"); yajl_bool true;
   yajl_string (lit "error"); yajl_string msg;
   yajl_string (lit "input"); yajl_string input;
   yajl_string (lit "errorposition"); yajl_string pos; yajl_map_close].

(** ** Views of a run of the driver *)

Section RunViews.

Variable W : Type.
Variables INITIAL __CALL : cmdp_state.
Variable tokens : cmdp_state -> list cmdp_token.
Variable GENERATED_call : W -> stack -> nat -> CommandResultIR -> W * CommandResultIR.
Variable cmd_criteria_init : W -> CommandResultIR -> W * CommandResultIR.

(** The token that the [for] loop over [toks] handles, with the cursor at
    which that token is tried: the first token whose attempt is handled,
    the cursor and the globals being passed through the failed attempts
    before it as the loop passes them. *)
Fixpoint handler (input : cstr) (toks : list cmdp_token) (walk : nat) (g : globals W)
    : option (cmdp_token * nat) :=
  match toks with
  | [] => None
  | token :: rest =>
      match try_token W INITIAL __CALL GENERATED_call cmd_criteria_init input token walk g with
      | Ret (true, _, _) => Some (token, walk)
      | Ret (false, walk1, g1) => handler input rest walk1 g1
      | _ => None
      end
  end.

(** The tokens handled by the iterations of the loop, in order, each with
    the cursor at which it was tried; the list ends where the loop ends. *)
Fixpoint handled (fuel : nat) (input : cstr) (walk : nat) (g : globals W)
    : list (cmdp_token * nat) :=
  if length input <? walk then []
  else
    match fuel with
    | 0 => []
    | S fuel' =>
        let walk := scan_while (S (length input)) is_space input walk in
        match handler input (tokens (g_state g)) walk g,
              try_tokens W INITIAL __CALL GENERATED_call cmd_criteria_init
                input (tokens (g_state g)) walk g with
        | Some h, Ret (true, walk1, g1) => h :: handled fuel' input walk1 g1
        | _, _ => []
        end
    end.

(** The globals with which parse_command enters its loop: the statements
    of parse_command before the [while]. *)
Definition loop_entry (gen : option yajl_gen) (client : option ipc_client) (g : globals W)
    : globals W :=
  let g := set_state W INITIAL g in
  let sub := g_subcommand_output g in
  let g := set_subcommand_output W
             {| ir_json_gen := ir_json_gen sub; ir_client := ir_client sub;
                ir_next_state := ir_next_state sub;
                ir_needs_tree_render := ir_needs_tree_render sub;
                ir_execution_toggled := false |} g in
  let out := g_command_output g in
  let g := set_command_output W
             {| ir_json_gen := gen; ir_client := client;
                ir_next_state := ir_next_state out;
                ir_needs_tree_render := ir_needs_tree_render out;
                ir_execution_toggled := ir_execution_toggled out |} g in
  let g := y W yajl_array_open g in
  let g := set_command_output W (set_needs_tree_render false (g_command_output g)) g in
  call_criteria_init W cmd_criteria_init g.

(** The tokens handled during one call of parse_command. *)
Definition handled_in_call (fuel : nat) (input : cstr) (gen : option yajl_gen)
    (client : option ipc_client) (g : globals W) : list (cmdp_token * nat) :=
  handled fuel input 0 (loop_entry gen client g).

End RunViews.

(** An end token tried at cursor [p]. *)
Definition end_at (p : nat) (h : cmdp_token * nat) : bool :=
  streq (tk_name h.1) (lit "end") && (h.2 =? p).

(** A handled token after which the criteria are re-initialised. *)
Definition resets (input : cstr) (h : cmdp_token * nat) : bool := resets_at input h.1 h.2.

(** Every token name of the table is a C string. *)
Definition wf_table (tokens : cmdp_state -> list cmdp_token) : Prop :=
  forall s, Forall (fun token => wf_cstr (tk_name token)) (tokens s).

(** A table whose only state offers an empty literal that leads back to the
    same state. *)
Module DemoLoop.

Definition tokens (s : cmdp_state) : list cmdp_token :=
[ {| tk_name := [squote]; tk_identifier := None;
     tk_next_state := 1; tk_call_identifier := 0 |};
  Demo.tok "end" None 1 0 ].

End DemoLoop.
(** * Properties of the argument stack *)

Section StackFacts.

Implicit Types (st : stack) (e : stack_entry) (c n : nat).

Lemma free_at_dec st c : {free_at st c} + {~ free_at st c}.
Proof.
  unfold free_at. destruct (st !! c) as [e|] eqn:E.
  - destruct (se_identifier e) eqn:I.
    + right. intros (e' & He & Hi). congruence.
    + left. eauto.
  - right. intros (e' & He & _). discriminate.
Qed.

(** What the scan [c, c + n) of [push_loop] does. *)
Lemma push_loop_spec n c e st :
  c + n <= length st ->
  match push_loop n c e st with
  | Ret st' =>
      exists k, c <= k < c + n /\ free_at st k /\
                (forall j, c <= j < k -> ~ free_at st j) /\ st' = <[k := e]> st
  | Exit => forall j, c <= j < c + n -> ~ free_at st j
  | OutOfFuel => False
  end.
Proof.
  revert c. induction n as [|n IH]; intros c Hlen; simpl.
  - intros j Hj. lia.
  - destruct (st !! c) as [old|] eqn:E.
    + destruct (se_identifier old) eqn:I.
      * specialize (IH (S c) ltac:(lia)).
        destruct (push_loop n (S c) e st).
        -- destruct IH as (k & Hk & Hfree & Hlow & ->).
           exists k. split; [lia|]. split; [done|]. split; [|done].
           intros j Hj. destruct (decide (j = c)) as [->|Hne].
           ++ intros (e' & He' & Hi'). congruence.
           ++ apply Hlow. lia.
        -- intros j Hj. destruct (decide (j = c)) as [->|Hne].
           ++ intros (e' & He' & Hi'). congruence.
           ++ apply IH. lia.
        -- done.
      * exists c. split; [lia|]. split; [by exists old|]. split; [|done].
        intros j Hj. lia.
    + apply lookup_ge_None in E. lia.
Qed.

Lemma run_push_loop st op : run_push st op = push_loop STACK_SIZE 0 (op_entry op) st.
Proof. by destruct op. Qed.

Lemma run_push_wf st op st' : stack_wf st -> run_push st op = Ret st' -> stack_wf st'.
Proof.
  intros Hwf. rewrite run_push_loop.
  pose proof (push_loop_spec STACK_SIZE 0 (op_entry op) st) as H.
  rewrite Hwf in H. specialize (H ltac:(simpl; lia)).
  intros Heq. rewrite Heq in H. destruct H as (k & _ & _ & _ & ->).
  unfold stack_wf. by rewrite length_insert.
Qed.

Lemma clear_stack_wf st : stack_wf st -> stack_wf (clear_stack st).
Proof.
  unfold stack_wf, clear_stack. intros H.
  rewrite length_app, length_map, length_take, length_drop. lia.
Qed.

Lemma clear_stack_names st : stack_wf st -> names (clear_stack st) = [].
Proof.
  unfold stack_wf, clear_stack, names. intros H.
  rewrite drop_ge by lia. rewrite app_nil_r, take_ge by lia.
  clear H. induction st as [|e st IH]; simpl; [done|]. exact IH.
Qed.

Lemma names_insert_free st k e i :
  free_at st k -> se_identifier e = Some i ->
  names (<[k := e]> st) ≡ₚ i :: names st.
Proof.
  unfold names. revert k. induction st as [|x st IH]; intros k (old & Hk & Hold) He.
  - done.
  - destruct k as [|k]; simpl in *.
    + injection Hk as ->. by rewrite He, Hold.
    + specialize (IH k ltac:(by exists old) He).
      fold (omap se_identifier (<[k:=e]> st)). fold (omap se_identifier st).
      destruct (se_identifier x); [|done].
      rewrite IH. apply Permutation_swap.
  Qed.

Lemma no_free_names_length st :
  (forall j, j < length st -> ~ free_at st j) -> length (names st) = length st.
Proof.
  unfold names. induction st as [|x st IH]; intros H; simpl; [done|].
  fold (omap se_identifier st).
  destruct (se_identifier x) eqn:I.
  - simpl. f_equal. apply IH. intros j Hj. intros (e & He & Hi).
    apply (H (S j) ltac:(simpl; lia)). by exists e.
  - exfalso. apply (H 0 ltac:(simpl; lia)). by exists x.
Qed.

Lemma names_length_le st : length (names st) <= length st.
Proof.
  unfold names. induction st as [|x st IH]; simpl; [done|].
  fold (omap se_identifier st). destruct (se_identifier x); simpl; lia.
Qed.

(** A push into a stack with a free slot succeeds and adds one name; a push
    into a full stack exits. *)
Lemma run_push_names st op :
  stack_wf st ->
  match run_push st op with
  | Ret st' => names st' ≡ₚ op_identifier op :: names st
  | Exit => length (names st) = STACK_SIZE
  | OutOfFuel => False
  end.
Proof.
  intros Hwf. rewrite run_push_loop.
  pose proof (push_loop_spec STACK_SIZE 0 (op_entry op) st) as H.
  rewrite Hwf in H. specialize (H ltac:(simpl; lia)).
  destruct (push_loop STACK_SIZE 0 (op_entry op) st); [| |done].
  - destruct H as (k & _ & Hfree & _ & ->).
    apply names_insert_free; [done|]. by destruct op.
  - rewrite <- Hwf. apply no_free_names_length. intros j Hj. apply H.
    rewrite Hwf in Hj. simpl. lia.
Qed.

Lemma run_pushes_names ops : forall st,
  stack_wf st -> length (names st) + length ops <= STACK_SIZE ->
  exists st', run_pushes ops st = Ret st' /\ stack_wf st' /\
              names st' ≡ₚ rev (map op_identifier ops) ++ names st.
Proof.
  induction ops as [|op ops IH]; intros st Hwf Hlen; simpl in *.
  - by exists st.
  - pose proof (run_push_names st op Hwf) as Hp.
    destruct (run_push st op) as [st1| |] eqn:E; simpl; [| lia | done].
    assert (Hwf1 : stack_wf st1) by (eapply run_push_wf; eauto).
    destruct (IH st1 Hwf1) as (st' & Hrun & Hwf' & Hn).
    { rewrite Hp. simpl. lia. }
    exists st'. split; [done|]. split; [done|].
    rewrite Hn, Hp. rewrite <- app_assoc. done.
Qed.

Lemma run_pushes_names_inv ops : forall st st',
  stack_wf st -> run_pushes ops st = Ret st' ->
  names st' ≡ₚ rev (map op_identifier ops) ++ names st.
Proof.
  induction ops as [|op ops IH]; intros st st' Hwf Hrun; simpl in *.
  - by injection Hrun as ->.
  - pose proof (run_push_names st op Hwf) as Hp.
    destruct (run_push st op) as [st1| |] eqn:E; simpl in Hrun; [| done | done].
    rewrite (IH st1 st' ltac:(eapply run_push_wf; eauto) Hrun), Hp.
    rewrite <- app_assoc. done.
Qed.

End StackFacts.

(** C8. A push stores its entry in the lowest-indexed free slot and leaves
    every other slot as it was; with all ten slots occupied it ends the
    process; and no sequence of at most ten pushes after a clear reaches that
    branch. *)
Theorem push_lowest_free_or_exit (st : stack) (op : push_op) :
  stack_wf st ->
  ((exists c, free_at st c) ->
     exists c st', free_at st c /\ (forall j, j < c -> ~ free_at st j) /\
       run_push st op = Ret st' /\ st' !! c = Some (op_entry op) /\
       (forall j, j <> c -> st' !! j = st !! j)) /\
  ((forall c, ~ free_at st c) -> run_push st op = Exit) /\
  (forall ops, length ops <= STACK_SIZE ->
     exists st', run_pushes ops (clear_stack st) = Ret st').
Proof.
  intros Hwf.
  pose proof (push_loop_spec STACK_SIZE 0 (op_entry op) st) as H.
  rewrite Hwf in H. specialize (H ltac:(simpl; lia)).
  rewrite <- run_push_loop in H.
  split; [|split].
  - intros (c0 & Hc0).
    destruct (run_push st op) as [st'| |]; [| |done].
    + destruct H as (k & Hk & Hfree & Hlow & ->).
      exists k, (<[k := op_entry op]> st).
      split; [done|]. split; [intros j Hj; apply Hlow; lia|]. split; [done|].
      split.
      * apply list_lookup_insert_eq. rewrite Hwf. simpl in Hk. lia.
      * intros j Hj. by apply list_lookup_insert_ne.
    + exfalso. apply (H c0); [|done].
      destruct Hc0 as (e & He & _). apply lookup_lt_Some in He.
      rewrite Hwf in He. simpl. lia.
  - intros Hfull. destruct (run_push st op) as [st'| |]; [|done|done].
    destruct H as (k & _ & Hfree & _). by destruct (Hfull k).
  - intros ops Hlen.
    destruct (run_pushes_names ops (clear_stack st)) as (st' & Hrun & _).
    + by apply clear_stack_wf.
    + rewrite clear_stack_names by done. simpl. lia.
    + by exists st'.
Qed.

Lemma push_lowest_free_or_exit_witness :
  exists st', run_pushes [PushString (lit "direction") (lit "left"); PushLong (lit "px") 10]
                (clear_stack empty_stack) = Ret st'.
Proof.
  destruct (push_lowest_free_or_exit empty_stack (PushLong (lit "px") 10)) as (_ & _ & H).
  - reflexivity.
  - apply H. unfold STACK_SIZE. simpl. lia.
Defined.


(** * The stack between two clears *)

Section StackLookup.

Implicit Types (st tail : stack) (e : stack_entry) (ops : list push_op).

Lemma op_entry_identifier op : se_identifier (op_entry op) = Some (op_identifier op).
Proof. by destruct op. Qed.

Lemma clear_stack_all_free st : stack_wf st -> all_free (clear_stack st).
Proof.
  intros Hwf. unfold clear_stack, all_free.
  rewrite drop_ge, app_nil_r by (rewrite Hwf; lia).
  apply Forall_forall. intros e He.
  apply list_elem_of_fmap in He as (e' & -> & _). done.
Qed.

(** A push into a stack whose occupied slots are the entries of [ops], in
    order, followed by free slots. *)
Lemma run_push_packed ops tail op :
  all_free tail -> length (map op_entry ops ++ tail) = STACK_SIZE ->
  run_push (map op_entry ops ++ tail) op =
  match tail with
  | [] => Exit
  | _ :: tail' => Ret (map op_entry (ops ++ [op]) ++ tail')
  end.
Proof.
  intros Hfree Hlen. rewrite run_push_loop.
  pose proof (push_loop_spec STACK_SIZE 0 (op_entry op) (map op_entry ops ++ tail)) as H.
  rewrite Hlen in H. specialize (H ltac:(simpl; lia)).
  assert (Hocc : forall j, j < length ops -> ~ free_at (map op_entry ops ++ tail) j).
  { intros j Hj (e & He & Hi).
    rewrite lookup_app_l in He by (by rewrite length_map).
    rewrite list_lookup_fmap in He.
    destruct (ops !! j) as [o|]; [|done]. injection He as <-.
    by rewrite op_entry_identifier in Hi. }
  destruct (push_loop _ _ _ _) as [st'| |]; [| |done].
  - destruct H as (k & Hk & (e & He & Hi) & Hlow & ->).
    destruct (decide (k < length ops)) as [Hlt|Hge].
    { exfalso. apply (Hocc k Hlt). by exists e. }
    destruct tail as [|t tail'].
    { rewrite app_nil_r in He. apply lookup_lt_Some in He.
      rewrite length_map in He. lia. }
    assert (k = length ops) as ->.
    { destruct (decide (k = length ops)); [done|]. exfalso.
      apply (Hlow (length ops)); [lia|]. exists t. split.
      - rewrite lookup_app_r by (rewrite length_map; lia).
        by rewrite length_map, Nat.sub_diag.
      - by inversion Hfree. }
    f_equal. rewrite map_app, <- app_assoc. simpl.
    rewrite insert_app_r_alt by (by rewrite length_map).
    by rewrite length_map, Nat.sub_diag.
  - destruct tail as [|t tail']; [done|]. exfalso.
    apply (H (length ops)).
    + rewrite length_app, length_map in Hlen. simpl in *. lia.
    + exists t. split.
      * rewrite lookup_app_r by (rewrite length_map; lia).
        by rewrite length_map, Nat.sub_diag.
      * by inversion Hfree.
Qed.

(** The stack after a sequence of pushes that follows a clear. *)
Lemma run_pushes_packed : forall ops' ops tail,
  all_free tail -> length (map op_entry ops ++ tail) = STACK_SIZE ->
  run_pushes ops' (map op_entry ops ++ tail) =
  if length ops' <=? length tail
  then Ret (map op_entry (ops ++ ops') ++ drop (length ops') tail)
  else Exit.
Proof.
  induction ops' as [|op ops' IH]; intros ops tail Hfree Hlen.
  - simpl. by rewrite app_nil_r, drop_0.
  - cbn [run_pushes]. rewrite run_push_packed by done.
    destruct tail as [|t tail']; [done|].
    cbn [bind]. rewrite IH.
    + cbn [length Nat.leb drop]. destruct (length ops' <=? length tail'); [|done].
      by rewrite <- app_assoc.
    + by inversion Hfree.
    + rewrite length_app, length_map in *. rewrite length_app. simpl in *. lia.
Qed.

Lemma run_pushes_after_clear st ops :
  stack_wf st ->
  run_pushes ops (clear_stack st) =
  if length ops <=? STACK_SIZE
  then Ret (map op_entry ops ++ drop (length ops) (clear_stack st))
  else Exit.
Proof.
  intros Hwf.
  pose proof (run_pushes_packed ops [] (clear_stack st)
                (clear_stack_all_free st Hwf) (clear_stack_wf st Hwf)) as H.
  simpl in H. rewrite H. by rewrite (clear_stack_wf st Hwf).
Qed.

(** The lookup loop over pushed entries followed by free slots. *)
Lemma get_loop_packed identifier tail : all_free tail ->
  forall ops n pre,
    length ops <= n ->
    get_loop n (length pre) identifier (pre ++ map op_entry ops ++ tail) =
    (fun op => se_val (op_entry op)) <$> first_op identifier ops.
Proof.
  intros Hfree. induction ops as [|op ops IH]; intros n pre Hn.
  - simpl. destruct n as [|n]; [done|]. simpl.
    rewrite lookup_app_r by lia. rewrite Nat.sub_diag.
    destruct tail as [|t tail']; [done|]. simpl.
    inversion Hfree as [|? ? Ht _]. by rewrite Ht.
  - destruct n as [|n]; [simpl in Hn; lia|]. cbn [get_loop map].
    rewrite lookup_app_r by lia. rewrite Nat.sub_diag.
    change (((op_entry op :: map op_entry ops) ++ tail) !! 0) with (Some (op_entry op)).
    cbv iota beta. rewrite op_entry_identifier. cbn [first_op].
    destruct (streq identifier (op_identifier op)); [done|].
    specialize (IH n (pre ++ [op_entry op]) ltac:(simpl in Hn; lia)).
    rewrite length_app, <- app_assoc in IH. simpl in IH.
    by rewrite Nat.add_1_r in IH.
Qed.

End StackLookup.


(** C9, as stated, fails: the pushes do not compare names, so pushing one
    identifier twice leaves two occupied slots with the same name. *)
Lemma distinct_names_counterexample :
  exists st',
    run_pushes [PushString (lit "nosn") (lit "--no-startup-id");
                PushString (lit "nosn") (lit "--no-startup-id")]
      (clear_stack empty_stack) = Ret st' /\
    ~ NoDup (names st').
Proof.
  eexists. split; [reflexivity|].
  vm_compute. intros H. apply NoDup_cons in H as [H _]. apply H.
  apply list_elem_of_here.
Qed.

(** C9, amended. Between two stack-clear events every push occupies a slot
    of its own, in push order, so the names of the occupied slots are exactly
    the pushed identifiers and are pairwise distinct if and only if the
    pushed identifiers are; a lookup returns the value of the first push made
    under the name, read through the member the lookup is for whatever kind
    of push wrote it, and NULL or 0 for a name that was not pushed. *)
Theorem names_distinct_iff_pushed_distinct (st st' : stack) (ops : list push_op) :
  stack_wf st ->
  run_pushes ops (clear_stack st) = Ret st' ->
  take (length ops) st' = map op_entry ops /\
  names st' = map op_identifier ops /\
  (NoDup (names st') <-> NoDup (map op_identifier ops)) /\
  (forall identifier,
     match first_op identifier ops with
     | Some (PushString _ str) =>
         get_string st' identifier = str_is (Some str) /\
         get_long st' identifier = num_of_str (Some str)
     | Some (PushLong _ num) =>
         get_string st' identifier = str_of_num num /\
         get_long st' identifier = num_is num
     | None =>
         get_string st' identifier = str_is None /\
         get_long st' identifier = num_is 0
     end).
Proof.
  intros Hwf Hrun. rewrite run_pushes_after_clear in Hrun by done.
  destruct (Nat.leb_spec (length ops) STACK_SIZE) as [Hle|]; [|done].
  injection Hrun as <-.
  pose proof (clear_stack_all_free st Hwf) as Hfree.
  assert (Hnames : names (map op_entry ops ++ drop (length ops) (clear_stack st)) =
                   map op_identifier ops).
  { unfold names. rewrite omap_app.
    assert (omap se_identifier (drop (length ops) (clear_stack st)) = []) as ->.
    { apply Forall_drop with (n := length ops) in Hfree.
      induction Hfree as [|e l He _ IH]; [done|]. simpl. by rewrite He. }
    rewrite app_nil_r. clear. induction ops as [|op ops IH]; [done|].
    destruct op; simpl; f_equal; exact IH. }
  split; [|split; [done|split; [by rewrite Hnames|]]].
  - rewrite take_app_le by (by rewrite length_map).
    by rewrite firstn_all2 by (by rewrite length_map).
  - intros identifier.
    assert (Hget : get_loop STACK_SIZE 0 identifier
                     (map op_entry ops ++ drop (length ops) (clear_stack st)) =
                   (fun op => se_val (op_entry op)) <$> first_op identifier ops).
    { apply (get_loop_packed identifier _ (Forall_drop _ _ _ Hfree) ops STACK_SIZE [] Hle). }
    unfold get_string, get_long. rewrite Hget.
    by destruct (first_op identifier ops) as [[i str|i num]|].
Qed.

Lemma names_distinct_iff_pushed_distinct_witness :
  exists st',
    run_pushes [PushLong (lit "first") 10; PushString (lit "first") (lit "x");
                PushLong (lit "second") 20]
      (clear_stack empty_stack) = Ret st' /\
    names st' = [lit "first"; lit "first"; lit "second"] /\
    get_long st' (lit "first") = num_is 10 /\
    get_string st' (lit "first") = str_of_num 10.
Proof.
  eexists. split; [reflexivity|].
  destruct (names_distinct_iff_pushed_distinct empty_stack _
              [PushLong (lit "first") 10; PushString (lit "first") (lit "x");
               PushLong (lit "second") 20] eq_refl eq_refl) as (_ & Hn & _ & Hget).
  split; [exact Hn|].
  destruct (Hget (lit "first")) as [Hs Hl]. split; [exact Hl|exact Hs].
Defined.

(** * Properties of the sub-lexers *)

Section CStrings.

Implicit Types (s l : list ascii) (c d : ascii).

Lemma peek_drop s k i : peek (drop k s) i = peek s (k + i).
Proof. unfold peek. by rewrite lookup_drop. Qed.

Lemma peek_ge s i : length s <= i -> peek s i = NUL.
Proof. intros H. unfold peek. by rewrite lookup_ge_None_2. Qed.

Lemma peek_cons_0 c l : peek (c :: l) 0 = c.
Proof. done. Qed.

Lemma peek_cons_S c l i : peek (c :: l) (S i) = peek l i.
Proof. done. Qed.

Lemma peek_nil i : peek [] i = NUL.
Proof. done. Qed.

(** The text at a cursor either is empty, and the cursor reads the
    terminator, or starts with the character the cursor reads. *)
Lemma drop_peek s walk :
  (drop walk s = [] /\ peek s walk = NUL) \/
  (drop walk s = peek s walk :: drop (S walk) s /\ walk < length s).
Proof.
  unfold peek. destruct (s !! walk) as [c|] eqn:E.
  - right. split; [by apply drop_S | by eapply lookup_lt_Some].
  - left. split; [|done]. apply drop_ge. by apply lookup_ge_None.
Qed.

Lemma c_str_app_nul l rest :
  Forall (fun c => c <> NUL) l -> c_str (l ++ NUL :: rest) = l.
Proof.
  induction 1 as [|c l Hc _ IH]; simpl; [done|].
  destruct (Ascii.eqb_spec c NUL); [done|]. by rewrite IH.
Qed.

(** ** scan_while *)

Lemma scan_while_spec (p : ascii -> bool) s : p NUL = false ->
  forall fuel walk, length s < fuel + walk ->
    let r := scan_while fuel p s walk in
    walk <= r /\ (walk < r -> r <= length s) /\
    (forall i, walk <= i < r -> p (peek s i) = true) /\
    p (peek s r) = false.
Proof.
  intros Hnul. induction fuel as [|fuel IH]; intros walk Hfuel; simpl.
  - rewrite peek_ge by lia. split; [lia|]. split; [lia|]. split; [|done].
    intros i Hi. lia.
  - destruct (p (peek s walk)) eqn:E.
    + assert (walk < length s).
      { destruct (decide (walk < length s)); [done|].
        rewrite peek_ge in E by lia. congruence. }
      destruct (IH (S walk) ltac:(lia)) as (H1 & H2 & H3 & H4).
      split; [lia|]. split.
      { intros _. destruct (decide (S walk < scan_while fuel p s (S walk))); lia. }
      split; [|done].
      intros i Hi. destruct (decide (i = walk)) as [->|]; [done|]. apply H3. lia.
    + split; [lia|]. split; [lia|]. split; [|done]. intros i Hi. lia.
Qed.

(** ** The quoted scan *)

Lemma scan_quoted_len s : forall fuel walk,
  length s < fuel + walk ->
  scan_quoted fuel s walk = walk + quoted_len (drop walk s).
Proof.
  induction fuel as [|fuel IH]; intros walk Hfuel; simpl.
  - rewrite drop_ge by lia. simpl. lia.
  - destruct (drop_peek s walk) as [[-> ->] | [-> Hlt]]; simpl; [lia|].
    destruct (Ascii.eqb (peek s walk) NUL || Ascii.eqb (peek s walk) dquote); [lia|].
    destruct (Ascii.eqb (peek s walk) backslash); simpl.
    + destruct (drop_peek s (S walk)) as [[Hd Hp] | [Hd Hlt']]; rewrite Hd.
      * rewrite Hp. simpl. rewrite IH by lia. rewrite Hd. simpl. lia.
      * destruct (Ascii.eqb (peek s (S walk)) NUL) eqn:E; simpl; rewrite IH by lia.
        -- rewrite Hd. simpl. rewrite E. simpl. lia.
        -- lia.
    + rewrite IH by lia. lia.
Qed.

Lemma quoted_len_le l : quoted_len l <= length l.
Proof.
  induction l as [l IH] using (induction_ltof1 _ (@length ascii)). unfold ltof in IH.
  destruct l as [|c rest]; simpl; [lia|].
  destruct (Ascii.eqb c NUL || Ascii.eqb c dquote); [lia|].
  destruct (Ascii.eqb c backslash).
  - destruct rest as [|d rest']; simpl; [lia|].
    destruct (Ascii.eqb d NUL); [lia|].
    specialize (IH rest' ltac:(simpl; lia)). lia.
  - specialize (IH rest ltac:(simpl; lia)). lia.
Qed.

(** The quoted scan stops at a double quote or at the terminator. *)
Lemma quoted_len_stop l :
  peek l (quoted_len l) = dquote \/ peek l (quoted_len l) = NUL.
Proof.
  induction l as [l IH] using (induction_ltof1 _ (@length ascii)). unfold ltof in IH.
  destruct l as [|c rest]; simpl; [by right|].
  destruct (Ascii.eqb_spec c NUL) as [->|Hc]; simpl; [by right|].
  destruct (Ascii.eqb_spec c dquote) as [->|Hq]; simpl; [by left|].
  destruct (Ascii.eqb c backslash).
  - destruct rest as [|d rest']; simpl; [by right|].
    destruct (Ascii.eqb_spec d NUL) as [->|Hd]; simpl; [by right|].
    apply (IH rest'). simpl. lia.
  - apply (IH rest). simpl. lia.
Qed.

Lemma quoted_len_nonnul l : Forall (fun c => c <> NUL) (take (quoted_len l) l).
Proof.
  induction l as [l IH] using (induction_ltof1 _ (@length ascii)). unfold ltof in IH.
  destruct l as [|c rest]; simpl; [done|].
  destruct (Ascii.eqb_spec c NUL) as [->|Hc]; simpl; [done|].
  destruct (Ascii.eqb c dquote); simpl; [done|].
  destruct (Ascii.eqb c backslash).
  - destruct rest as [|d rest']; simpl; [by constructor|].
    destruct (Ascii.eqb_spec d NUL) as [->|Hd]; simpl.
    + by constructor.
    + constructor; [done|]. constructor; [done|]. apply (IH rest'). simpl. lia.
  - constructor; [done|]. apply (IH rest). simpl. lia.
Qed.

(** ** The copy loop *)

Lemma copied_length l : forall fuel n, length (copied fuel n l) <= n.
Proof.
  intros fuel. revert l. induction fuel as [|fuel IH]; intros l n; simpl; [lia|].
  destruct n as [|n]; [simpl; lia|].
  destruct (escape_at l 0); simpl.
  - specialize (IH (drop 2 l) (n - 1)). lia.
  - specialize (IH (drop 1 l) n). lia.
Qed.

Lemma escape_at_nonnul l i : escape_at l i = true -> peek l (S i) <> NUL.
Proof.
  unfold escape_at. intros H E. rewrite E in H.
  by rewrite andb_false_r in H.
Qed.

Lemma copied_nonnul : forall fuel n l,
  n <= length l ->
  Forall (fun c => c <> NUL) (take n l) ->
  Forall (fun c => c <> NUL) (copied fuel n l).
Proof.
  induction fuel as [|fuel IH]; intros n l Hn H; simpl; [done|].
  destruct n as [|n]; [done|].
  destruct l as [|c l]; simpl in Hn; [lia|].
  destruct (escape_at (c :: l) 0) eqn:E.
  - constructor; [by apply escape_at_nonnul|].
    destruct l as [|d l]; simpl in *.
    + apply escape_at_nonnul in E. by rewrite peek_cons_S, peek_nil in E.
    + rewrite drop_0. destruct n as [|n]; simpl.
      * destruct fuel; constructor.
      * rewrite Nat.sub_0_r. apply IH; [lia|].
        inversion H as [|? ? _ H']. by inversion H'.
  - simpl in *. rewrite drop_0. inversion H; subst.
    constructor; [done|]. apply IH; [lia|done].
Qed.

(** The buffer after the loop: what was written before, then the characters
    the loop writes, then the rest of the buffer untouched. *)
Lemma copy_loop_copied s beginning n : forall fuel inpos outpos buf,
  outpos + (n - inpos) < length buf ->
  copy_loop fuel s beginning n inpos outpos buf =
  take outpos buf ++ copied fuel (n - inpos) (drop (beginning + inpos) s) ++
  drop (outpos + length (copied fuel (n - inpos) (drop (beginning + inpos) s))) buf.
Proof.
  induction fuel as [|fuel IH]; intros inpos outpos buf Hroom; simpl.
  - by rewrite Nat.add_0_r, take_drop.
  - destruct (Nat.ltb_spec inpos n) as [Hlt|Hge].
    + replace (n - inpos) with (S (n - S inpos)) by lia.
      replace (escape_at (drop (beginning + inpos) s) 0)
        with (escape_at s (beginning + inpos)).
      2:{ unfold escape_at. rewrite !peek_drop. by rewrite Nat.add_0_r, Nat.add_1_r. }
      rewrite !peek_drop, !drop_drop.
      destruct (escape_at s (beginning + inpos)).
      * rewrite IH by (rewrite length_insert; lia).
        rewrite take_S_r with (x := peek s (beginning + S inpos)).
        2:{ apply list_lookup_insert_eq. lia. }
        rewrite take_insert_ge by lia. rewrite <- app_assoc. simpl.
        rewrite drop_insert_lt by lia.
        replace (n - S (S inpos)) with (n - S inpos - 1) by lia.
        replace (beginning + S (S inpos)) with (beginning + inpos + 2) by lia.
        replace (beginning + S inpos) with (beginning + inpos + 1) by lia.
        do 3 f_equal. f_equal. lia.
      * rewrite IH by (rewrite length_insert; lia).
        rewrite take_S_r with (x := peek s (beginning + inpos)).
        2:{ apply list_lookup_insert_eq. lia. }
        rewrite take_insert_ge by lia. rewrite <- app_assoc. simpl.
        rewrite drop_insert_lt by lia.
        replace (beginning + S inpos) with (beginning + inpos + 1) by lia.
        rewrite Nat.add_0_r.
        do 3 f_equal. f_equal. lia.
    + replace (n - inpos) with 0 by lia. simpl.
      by rewrite Nat.add_0_r, take_drop.
Qed.

(** The string returned by parse_string, given the characters written. *)
Lemma copy_loop_c_str s beginning n :
  n <= length (drop beginning s) ->
  Forall (fun c => c <> NUL) (take n (drop beginning s)) ->
  c_str (copy_loop n s beginning n 0 0 (replicate (n + 1) NUL)) =
  copied n n (drop beginning s).
Proof.
  intros Hn Hnn. rewrite copy_loop_copied by (rewrite length_replicate; lia).
  rewrite Nat.sub_0_r, Nat.add_0_r. simpl.
  pose proof (copied_length (drop beginning s) n n) as Hlen.
  rewrite drop_replicate.
  replace (n + 1 - length (copied n n (drop beginning s)))
    with (S (n - length (copied n n (drop beginning s)))) by lia.
  simpl. apply c_str_app_nul. apply copied_nonnul; [|done].
  done.
Qed.

End CStrings.

Section Escapes.

Implicit Types (s l : list ascii) (c d : ascii).

Lemma copied_0 fuel l : copied fuel 0 l = [].
Proof. by destruct fuel. Qed.

Lemma escape_at_cons c d l :
  escape_at (c :: d :: l) 0 =
  Ascii.eqb c backslash && (Ascii.eqb d dquote || Ascii.eqb d backslash).
Proof. done. Qed.

(** A character that does not open an escape pair is kept by the documented
    rule, whatever follows. *)
Lemma unescape_keep c l :
  escape_at (c :: l) 0 = false -> unescape (c :: l) = c :: unescape l.
Proof.
  destruct l as [|d l]; [done|].
  rewrite escape_at_cons. simpl. by intros ->.
Qed.

Lemma unescape_pair c d l :
  escape_at (c :: d :: l) 0 = true -> unescape (c :: d :: l) = d :: unescape l.
Proof. rewrite escape_at_cons. simpl. by intros ->. Qed.

Lemma escape_at_take c l n :
  escape_at (c :: l) 0 = false -> escape_at (c :: take n l) 0 = false.
Proof.
  destruct l as [|d l], n as [|n]; simpl; try done.
  unfold escape_at. rewrite !peek_cons_S, !peek_cons_0, peek_nil. intros _.
  by rewrite andb_false_r.
Qed.

(** The copy loop on a quoted value agrees with the documented rule: the
    scan and the copy split the text into the same escape pairs. *)
Lemma copied_quoted l : forall fuel,
  quoted_len l <= fuel ->
  copied fuel (quoted_len l) l = unescape (take (quoted_len l) l).
Proof.
  induction l as [l IH] using (induction_ltof1 _ (@length ascii)). unfold ltof in IH.
  intros fuel Hfuel.
  destruct l as [|c rest]; simpl in *; [by rewrite copied_0|].
  destruct (Ascii.eqb c NUL || Ascii.eqb c dquote); [by rewrite copied_0|].
  destruct (Ascii.eqb_spec c backslash) as [->|Hc].
  - destruct rest as [|d rest'].
    + destruct fuel as [|fuel]; [lia|]. simpl. by rewrite copied_0.
    + destruct (Ascii.eqb_spec d NUL) as [->|Hd].
      * destruct fuel as [|fuel]; [lia|]. simpl. by rewrite copied_0.
      * destruct fuel as [|fuel]; [lia|].
        cbn [copied take]. rewrite escape_at_cons.
        destruct (Ascii.eqb backslash backslash
                  && (Ascii.eqb d dquote || Ascii.eqb d backslash)) eqn:E.
        -- rewrite unescape_pair by (by rewrite escape_at_cons).
           cbn [peek lookup list_lookup default]. simpl.
           rewrite Nat.sub_0_r. f_equal. apply IH; simpl; lia.
        -- rewrite unescape_keep by (by rewrite escape_at_cons).
           rewrite peek_cons_0. f_equal.
           destruct fuel as [|fuel]; [lia|].
           assert (Hesc : escape_at (d :: rest') 0 = false).
           { unfold escape_at. rewrite peek_cons_0.
             simpl in E. destruct (Ascii.eqb_spec d backslash) as [->|]; [|done].
             by rewrite orb_true_r in E. }
           change (drop 1 (backslash :: d :: rest')) with (d :: rest').
           cbn [copied Nat.add]. rewrite Hesc.
           rewrite unescape_keep by (by apply escape_at_take).
           rewrite peek_cons_0. f_equal. apply IH; simpl; lia.
  - destruct fuel as [|fuel]; [lia|].
    assert (Hesc : escape_at (c :: rest) 0 = false).
    { unfold escape_at. rewrite peek_cons_0.
      by destruct (Ascii.eqb_spec c backslash). }
    cbn [copied Nat.add]. rewrite Hesc.
    cbn [take]. rewrite unescape_keep by (by apply escape_at_take).
    rewrite peek_cons_0. simpl. f_equal. apply IH; simpl; lia.
Qed.

(** The same on any text whose following character is neither a double
    quote nor a backslash, as after every unquoted scan. *)
Lemma copied_delimited : forall fuel n l,
  n <= fuel -> n <= length l ->
  peek l n <> dquote -> peek l n <> backslash ->
  copied fuel n l = unescape (take n l).
Proof.
  induction fuel as [|fuel IH]; intros n l Hfuel Hn Hq Hb.
  - by replace n with 0 by lia.
  - destruct n as [|n]; [done|].
    destruct l as [|c rest]; simpl in Hn; [lia|].
    cbn [copied take].
    destruct (escape_at (c :: rest) 0) eqn:E.
    + destruct rest as [|d rest'].
      { apply escape_at_nonnul in E. by rewrite peek_cons_S, peek_nil in E. }
      destruct n as [|n].
      { exfalso. rewrite escape_at_cons in E. rewrite peek_cons_S, peek_cons_0 in Hq, Hb.
        destruct (Ascii.eqb_spec d dquote); [done|].
        destruct (Ascii.eqb_spec d backslash); [done|].
        by rewrite andb_false_r in E. }
      cbn [take]. rewrite unescape_pair by done.
      rewrite peek_cons_S, peek_cons_0. simpl. rewrite Nat.sub_0_r. f_equal.
      apply IH; simpl in *; [lia|lia|done|done].
    + rewrite unescape_keep by (by apply escape_at_take).
      rewrite peek_cons_0. simpl. f_equal.
      apply IH; simpl in *; [lia|lia|done|done].
Qed.

Lemma unescape_no_escape s : no_escape s = true -> unescape s = s.
Proof.
  induction s as [|c rest IH]; [done|].
  destruct rest as [|d rest']; [done|].
  intros H. cbn [no_escape] in H. apply andb_true_iff in H as [H1 H2].
  rewrite unescape_keep.
  - f_equal. by apply IH.
  - rewrite escape_at_cons. by apply negb_true_iff.
Qed.

End Escapes.

(** ** parse_string *)

Lemma string_char_NUL : string_char NUL = false.
Proof. done. Qed.

Lemma word_char_NUL : word_char NUL = false.
Proof. done. Qed.

Lemma string_char_stop c : string_char c = false -> c <> dquote /\ c <> backslash.
Proof. intros H. split; intros ->; discriminate H. Qed.

Lemma word_char_stop c : word_char c = false -> c <> dquote /\ c <> backslash.
Proof. intros H. split; intros ->; discriminate H. Qed.

(** What parse_string does on a value that opens with a double quote. *)
Lemma parse_string_quoted (s : cstr) (walk : nat) (as_word : bool) :
  peek s walk = dquote ->
  let n := quoted_len (drop (S walk) s) in
  parse_string s walk as_word =
  if n =? 0 then (None, S walk)
  else (Some (unescape (slice s (S walk) (S walk + n))), S walk + n).
Proof.
  intros Hq n. unfold parse_string. rewrite Hq, Ascii.eqb_refl.
  rewrite scan_quoted_len by lia. fold n.
  destruct (Nat.eqb_spec n 0) as [Hn|Hn].
  - rewrite Hn, Nat.add_0_r, Nat.eqb_refl. done.
  - destruct (Nat.eqb_spec (S walk + n) (S walk)) as [?|_]; [lia|].
    replace (S walk + n - S walk) with n by lia.
    rewrite copy_loop_c_str.
    + unfold n at 1 2. rewrite copied_quoted by done. fold n.
      unfold slice. by replace (S walk + n - S walk) with n by lia.
    + apply quoted_len_le.
    + apply quoted_len_nonnul.
Qed.

(** What parse_string does on a value that does not open with a double
    quote. *)
Lemma parse_string_unquoted (s : cstr) (walk : nat) (as_word : bool) :
  peek s walk <> dquote ->
  let p := if as_word then word_char else string_char in
  let walk' := scan_while (S (length s)) p s walk in
  parse_string s walk as_word =
  if walk' =? walk then (None, walk)
  else (Some (unescape (slice s walk walk')), walk').
Proof.
  intros Hq p walk'. unfold parse_string.
  destruct (Ascii.eqb_spec (peek s walk) dquote) as [?|_]; [done|].
  assert (Hp : p NUL = false) by (by destruct as_word).
  pose proof (scan_while_spec p s Hp (S (length s)) walk ltac:(lia)) as H.
  fold walk' in H. simpl in H. destruct H as (H1 & H2 & H3 & H4).
  assert (Hscan : (if negb as_word
                   then (walk, scan_while (S (length s)) string_char s walk)
                   else (walk, scan_while (S (length s)) word_char s walk)) = (walk, walk')).
  { unfold walk', p. by destruct as_word. }
  rewrite Hscan.
  destruct (Nat.eqb_spec walk' walk) as [Heq|Hne]; [by rewrite Heq|].
  assert (Hstop : peek s walk' <> dquote /\ peek s walk' <> backslash).
  { destruct as_word; [by apply word_char_stop | by apply string_char_stop]. }
  assert (Hle : walk' <= length s) by (apply H2; lia).
  rewrite copy_loop_c_str.
  - rewrite copied_delimited; [done|lia| |..].
    + rewrite length_drop. lia.
    + rewrite peek_drop. replace (walk + (walk' - walk)) with walk' by lia. apply Hstop.
    + rewrite peek_drop. replace (walk + (walk' - walk)) with walk' by lia. apply Hstop.
  - rewrite length_drop. lia.
  - apply Forall_forall. intros c Hc.
    apply list_elem_of_lookup in Hc as (i & Hi).
    pose proof (lookup_lt_Some _ _ _ Hi) as Hlt.
    rewrite length_take, length_drop in Hlt.
    rewrite lookup_take_lt, lookup_drop in Hi by lia.
    specialize (H3 (walk + i) ltac:(lia)). unfold peek in H3. rewrite Hi in H3.
    simpl in H3. intros ->. congruence.
Qed.

(** C1. The capture of an accepted double-quoted value is the text between
    the opening quote and the place where the scan stopped, with every
    backslash-quote pair collapsed to the quote, every backslash-backslash
    pair collapsed to one backslash, and every other character kept. *)
Theorem quoted_value_decoded (s : cstr) (walk : nat) (as_word : bool)
    (str : cstr) (walk' : nat) :
  peek s walk = dquote ->
  parse_string s walk as_word = (Some str, walk') ->
  str = unescape (slice s (S walk) walk') /\
  S walk < walk' <= length s /\
  (peek s walk' = dquote \/ peek s walk' = NUL).
Proof.
  intros Hq Hp. rewrite parse_string_quoted in Hp by done.
  pose proof (quoted_len_le (drop (S walk) s)) as Hle.
  pose proof (quoted_len_stop (drop (S walk) s)) as Hstop.
  rewrite peek_drop in Hstop. rewrite length_drop in Hle.
  destruct (Nat.eqb_spec (quoted_len (drop (S walk) s)) 0) as [?|Hn]; [done|].
  injection Hp as <- <-. split; [done|]. split; [lia|done].
Qed.

Lemma quoted_value_decoded_witness :
  parse_string Demo.quoted_sample 0 true = (Some Demo.quoted_sample_capture, 10) /\
  Demo.quoted_sample_capture = unescape (slice Demo.quoted_sample 1 10).
Proof.
  split; [reflexivity|].
  refine (proj1 (quoted_value_decoded Demo.quoted_sample 0 true _ 10 _ _));
    reflexivity.
Defined.

(** C3, as stated, fails: the copy loop runs for unquoted values too, so an
    unquoted string containing backslash-quote loses the backslash. *)
Lemma unquoted_verbatim_counterexample :
  peek Demo.unquoted_escape_sample 0 <> dquote /\
  parse_string Demo.unquoted_escape_sample 0 false = (Some Demo.unquoted_escape_capture, 7) /\
  parse_string Demo.unquoted_escape_sample 0 true = (Some Demo.unquoted_escape_capture, 7) /\
  Demo.unquoted_escape_capture <> slice Demo.unquoted_escape_sample 0 7.
Proof.
  split; [discriminate|]. split; [reflexivity|]. split; [reflexivity|].
  discriminate.
Qed.

(** C3, amended. The capture of an accepted unquoted value is the consumed
    text decoded by the same rule as a quoted value; it equals the consumed
    text character for character when that text contains no backslash
    immediately followed by a double quote or a backslash. *)
Theorem unquoted_capture_unescaped (s : cstr) (walk : nat) (as_word : bool)
    (str : cstr) (walk' : nat) :
  peek s walk <> dquote ->
  parse_string s walk as_word = (Some str, walk') ->
  str = unescape (slice s walk walk') /\
  (no_escape (slice s walk walk') = true -> str = slice s walk walk').
Proof.
  intros Hq Hp. rewrite parse_string_unquoted in Hp by done.
  destruct (_ =? _); [done|]. injection Hp as <- <-.
  split; [done|]. apply unescape_no_escape.
Qed.

Lemma unquoted_capture_unescaped_witness :
  parse_string Demo.unquoted_plain_sample 0 false
    = (Some (slice Demo.unquoted_plain_sample 0 10), 10) /\
  slice Demo.unquoted_plain_sample 0 10 = unescape (slice Demo.unquoted_plain_sample 0 10).
Proof.
  split; [reflexivity|].
  refine (proj1 (unquoted_capture_unescaped Demo.unquoted_plain_sample 0 false _ 10 _ _));
    [discriminate|reflexivity].
Defined.

(** Every value that opens with a double quote and has nothing before the
    closing quote or the end of the input is refused behind the quote. *)
Lemma parse_string_empty_quoted (s : cstr) (walk : nat) (as_word : bool) :
  peek s walk = dquote ->
  peek s (S walk) = dquote \/ peek s (S walk) = NUL ->
  parse_string s walk as_word = (None, S walk).
Proof.
  intros Hq Hnext. rewrite parse_string_quoted by done.
  destruct (drop_peek s (S walk)) as [[-> _]|[-> _]]; [done|].
  simpl. by destruct Hnext as [->| ->].
Qed.

(** C2 at the failing input. A double quote followed at once by the closing
    quote or by the end of the input makes parse_string return NULL, yet the
    cursor is left one character further, behind the opening quote. *)
Theorem empty_quoted_moves_cursor :
  parse_string [dquote; dquote] 0 false = (None, 1) /\
  parse_string [dquote; dquote] 0 true = (None, 1) /\
  parse_string [dquote] 0 false = (None, 1) /\
  parse_string [dquote] 0 true = (None, 1).
Proof. repeat split. Qed.

(** * Properties of the driver *)

Lemma tolower_NUL c : tolower c = NUL -> c = NUL.
Proof.
  destruct c as [[] [] [] [] [] [] [] []]; vm_compute; intros H; try done;
    discriminate H.
Qed.

(** [strncasecmp] accepts every text that equals the pattern up to case,
    whatever follows the text. *)
Lemma strncasecmp_prefix : forall (text pat : cstr) (s1 : cstr) (i1 : nat) (s2 : cstr) (i2 : nat),
  map tolower text = map tolower pat ->
  take (length text) (drop i1 s1) = text ->
  take (length pat) (drop i2 s2) = pat ->
  length text <= length s1 - i1 ->
  strncasecmp s1 i1 s2 i2 (length pat) = true.
Proof.
  induction text as [|c text IH]; intros [|d pat] s1 i1 s2 i2 Hmap H1 H2 Hlen;
    simpl in Hmap; try discriminate; [done|].
  injection Hmap as Hcd Hmap. simpl length in *.
  destruct (drop_peek s1 i1) as [[E1 _]|[E1 _]]; rewrite E1 in H1; [discriminate|].
  destruct (drop_peek s2 i2) as [[E2 _]|[E2 _]]; rewrite E2 in H2; [discriminate|].
  injection H1 as Hc H1. injection H2 as Hd H2.
  cbn [strncasecmp]. rewrite Hc, Hd, Hcd, Ascii.eqb_refl.
  destruct (Ascii.eqb (tolower d) NUL); [done|].
  apply IH; [done|done|done|lia].
Qed.

Section ParserFacts.

Variable W : Type.
Variables INITIAL __CALL : cmdp_state.
Variable tokens : cmdp_state -> list cmdp_token.
Variable GENERATED_call : W -> stack -> nat -> CommandResultIR -> W * CommandResultIR.
Variable cmd_criteria_init : W -> CommandResultIR -> W * CommandResultIR.

Local Abbreviation next_state' := (next_state W INITIAL __CALL GENERATED_call).
Local Abbreviation call_criteria_init' := (call_criteria_init W cmd_criteria_init).
Local Abbreviation try_end' := (try_end W INITIAL __CALL GENERATED_call cmd_criteria_init).
Local Abbreviation try_token' := (try_token W INITIAL __CALL GENERATED_call cmd_criteria_init).
Local Abbreviation try_tokens' := (try_tokens W INITIAL __CALL GENERATED_call cmd_criteria_init).
Local Abbreviation report_error' := (report_error W tokens).
Local Abbreviation parse_loop' :=
  (parse_loop W INITIAL __CALL tokens GENERATED_call cmd_criteria_init).
Local Abbreviation parse_command' :=
  (parse_command W INITIAL __CALL tokens GENERATED_call cmd_criteria_init).

Implicit Types (g : globals W) (input : list ascii) (token : cmdp_token).

Lemma delta_refl g : delta g g [].
Proof.
  unfold delta. rewrite app_nil_r. simpl. by rewrite orb_false_r.
Qed.

Lemma any_render_app tr1 tr2 : any_render (tr1 ++ tr2) = any_render tr1 || any_render tr2.
Proof. apply existsb_app. Qed.

Lemma criteria_inits_app tr1 tr2 :
  criteria_inits (tr1 ++ tr2) = criteria_inits tr1 + criteria_inits tr2.
Proof. unfold criteria_inits. by rewrite filter_app, length_app. Qed.

Lemma dispatches_app tr1 tr2 : dispatches (tr1 ++ tr2) = dispatches tr1 + dispatches tr2.
Proof. unfold dispatches. by rewrite filter_app, length_app. Qed.

Lemma delta_trans g1 g2 g3 tr1 tr2 :
  delta g1 g2 tr1 -> delta g2 g3 tr2 -> delta g1 g3 (tr1 ++ tr2).
Proof.
  intros (T1 & F1 & G1) (T2 & F2 & G2). unfold delta.
  rewrite T2, T1, F2, F1, G2, G1, any_render_app, app_assoc, orb_assoc. done.
Qed.

Lemma delta_set_stack g st : delta g (set_stack W st g) [].
Proof. unfold delta, flag, gen_of. simpl. by rewrite app_nil_r, orb_false_r. Qed.

Lemma delta_set_state g s : delta g (set_state W s g) [].
Proof. unfold delta, flag, gen_of. simpl. by rewrite app_nil_r, orb_false_r. Qed.

Lemma delta_emit g e : call_render e = false -> delta g (emit W e g) [e].
Proof.
  intros H. unfold delta, flag, gen_of, any_render. simpl.
  by rewrite H, orb_false_r.
Qed.

Lemma delta_y g c : exists tr, delta g (y W c g) tr /\
  criteria_inits tr = 0 /\ dispatches tr = 0 /\
  tr = match gen_of g with Some _ => [ev_yajl c] | None => [] end.
Proof.
  unfold y, gen_of. destruct (ir_json_gen (g_command_output g)).
  - exists [ev_yajl c]. split; [by apply delta_emit|done].
  - exists []. split; [apply delta_refl|done].
Qed.

Lemma delta_criteria_init g : delta g (call_criteria_init' g) [ev_criteria_init].
Proof.
  unfold call_criteria_init.
  destruct (cmd_criteria_init (g_world g) (g_subcommand_output g)) as [w sub].
  unfold delta, flag, gen_of. simpl. by rewrite orb_false_r.
Qed.

Lemma delta_next_state token g : exists tr,
  delta g (next_state' token g) tr /\ criteria_inits tr = 0 /\
  dispatches tr = (if tk_next_state token =? __CALL then 1 else 0).
Proof.
  unfold next_state. destruct (tk_next_state token =? __CALL).
  - destruct (GENERATED_call _ _ _ _) as [w sub'].
    exists [ev_call (tk_call_identifier token) (g_stack g)
              (ir_next_state sub') (ir_needs_tree_render sub')].
    split; [|done]. unfold delta, flag, gen_of.
    destruct (ir_needs_tree_render sub'); simpl.
    + by rewrite orb_true_r.
    + by rewrite orb_false_r.
  - exists []. split; [|done].
    destruct (_ =? INITIAL); [|apply delta_set_state].
    eapply (delta_trans _ _ _ [] []); [apply delta_set_state | apply delta_set_stack].
Qed.

Lemma push_string_if_delta g i str g1 :
  push_string_if W i str g = Ret g1 -> delta g g1 [].
Proof.
  unfold push_string_if. destruct i as [i|].
  - destruct (push_string (g_stack g) i str); simpl; [|done|done].
    intros [= <-]. apply delta_set_stack.
  - intros [= <-]. apply delta_refl.
Qed.

Lemma push_long_if_delta g i num g1 :
  push_long_if W i num g = Ret g1 -> delta g g1 [].
Proof.
  unfold push_long_if. destruct i as [i|].
  - destruct (push_long (g_stack g) i num); simpl; [|done|done].
    intros [= <-]. apply delta_set_stack.
  - intros [= <-]. apply delta_refl.
Qed.

(** ** One token attempt *)

Lemma scan_while_ge p s : forall fuel walk, walk <= scan_while fuel p s walk.
Proof.
  induction fuel as [|fuel IH]; intros walk; simpl; [lia|].
  destruct (p (peek s walk)); [|lia]. specialize (IH (S walk)). lia.
Qed.

Lemma match_number_gt input walk num e :
  match_number input walk = Some (num, e) -> walk < e.
Proof.
  unfold match_number. destruct (_ || _); [done|].
  destruct (Nat.eqb_spec (st_end (strtol input walk)) walk) as [|Hne]; [done|].
  intros [= _ <-].
  assert (walk <= st_end (strtol input walk)); [|lia].
  unfold strtol.
  set (i0 := scan_while _ isspace input walk).
  set (i := if _ || _ then S i0 else i0).
  set (j := scan_while _ isdigit input i).
  assert (walk <= i0) by apply scan_while_ge.
  assert (i0 <= i) by (unfold i; destruct (_ || _); lia).
  assert (i <= j) by apply scan_while_ge.
  assert (walk <= j) by lia.
  destruct (j =? i); [simpl; lia|].
  destruct (_ <? _)%Z; [done|]. by destruct (_ <? _)%Z.
Qed.

Lemma parse_string_some_gt s walk (as_word : bool) str walk' :
  parse_string s walk as_word = (Some str, walk') -> walk < walk'.
Proof.
  destruct (decide (peek s walk = dquote)) as [Hq|Hq].
  - rewrite parse_string_quoted by done.
    destruct (_ =? 0); [done|]. intros [= _ <-]. lia.
  - rewrite parse_string_unquoted by done.
    set (r := scan_while _ _ s walk).
    assert (walk <= r) by apply scan_while_ge.
    destruct (Nat.eqb_spec r walk); [done|].
    intros [= _ <-]. lia.
Qed.

Lemma parse_string_none s walk (as_word : bool) walk' :
  parse_string s walk as_word = (None, walk') ->
  walk' = walk \/ (walk' = S walk /\ peek s walk = dquote).
Proof.
  destruct (decide (peek s walk = dquote)) as [Hq|Hq].
  - rewrite parse_string_quoted by done.
    destruct (_ =? 0); [|done]. intros [= <-]. by right.
  - rewrite parse_string_unquoted by done.
    destruct (_ =? walk); [|done]. intros [= <-]. by left.
Qed.

Lemma streq_true a b : streq a b = true -> a = b.
Proof. apply bool_decide_eq_true. Qed.

Lemma try_end_spec input token walk g :
  exists tr, delta g (try_end' input token walk g).2 tr /\
    criteria_inits tr = (if resets_at input token walk then 1 else 0) /\
    (((try_end' input token walk g).1.1 = false /\
      try_end' input token walk g = (false, walk, g) /\ tr = []) \/
     ((try_end' input token walk g).1 = (true, S walk) /\
      streq (tk_name token) (lit "end") = true /\
      is_terminator (peek input walk) = true)).
Proof.
  unfold try_end, resets_at.
  destruct (streq (tk_name token) (lit "end")) eqn:En; simpl.
  2:{ exists []. split; [apply delta_refl|]. split; [done|]. by left. }
  unfold is_terminator.
  destruct (Ascii.eqb (peek input walk) NUL) eqn:E0; simpl.
  { destruct (delta_next_state token g) as (tr & Hd & Hc & _).
    exists (tr ++ [ev_criteria_init]). split.
    - eapply delta_trans; [apply Hd | apply delta_criteria_init].
    - rewrite criteria_inits_app, Hc. split; [done|]. by right. }
  destruct (Ascii.eqb (peek input walk) comma) eqn:E1; simpl.
  { assert (Ascii.eqb (peek input walk) semicolon = false) as ->.
    { apply Ascii.eqb_eq in E1. by rewrite E1. }
    destruct (delta_next_state token g) as (tr & Hd & Hc & _).
    exists tr. split; [done|]. split; [done|]. by right. }
  destruct (Ascii.eqb (peek input walk) semicolon) eqn:E2; simpl.
  { destruct (delta_next_state token g) as (tr & Hd & Hc & _).
    exists (tr ++ [ev_criteria_init]). split.
    - eapply delta_trans; [apply Hd | apply delta_criteria_init].
    - rewrite criteria_inits_app, Hc. split; [done|]. by right. }
  exists []. split; [apply delta_refl|]. split; [done|]. by left.
Qed.

Lemma try_end_dispatches input token walk g :
  exists tr, delta g (try_end' input token walk g).2 tr /\ dispatches tr <= 1.
Proof.
  unfold try_end.
  destruct (streq (tk_name token) (lit "end")); simpl.
  2:{ exists []. split; [apply delta_refl|cbv; lia]. }
  destruct (is_terminator (peek input walk)); simpl.
  2:{ exists []. split; [apply delta_refl|cbv; lia]. }
  destruct (delta_next_state token g) as (tr & Hd & _ & Hn).
  assert (dispatches tr <= 1) by (rewrite Hn; destruct (_ =? _); lia).
  destruct (_ || _).
  - exists (tr ++ [ev_criteria_init]). split.
    + eapply delta_trans; [apply Hd | apply delta_criteria_init].
    + rewrite dispatches_app. simpl. unfold dispatches at 2. simpl. lia.
  - by exists tr.
Qed.

Lemma resets_at_not_end input token walk :
  streq (tk_name token) (lit "end") = false -> resets_at input token walk = false.
Proof. unfold resets_at. by intros ->. Qed.

(** Everything one token attempt can do. *)
Lemma try_token_spec input token walk g h w1 g1 :
  try_token' input token walk g = Ret (h, w1, g1) ->
  exists tr, delta g g1 tr /\
    criteria_inits tr = (if resets_at input token walk then 1 else 0) /\
    dispatches tr <= 1 /\
    walk <= w1 /\
    (h = false -> g1 = g /\ tr = [] /\
       (w1 = walk \/ (w1 = S walk /\ peek input walk = dquote))) /\
    (h = true -> walk < w1 \/
       (Ascii.eqb (peek (tk_name token) 0) squote = true /\ length (tk_name token) <= 1)).
Proof.
  unfold try_token.
  destruct (Ascii.eqb (peek (tk_name token) 0) squote) eqn:Elit.
  { (* a literal *)
    assert (Hne : streq (tk_name token) (lit "end") = false).
    { destruct (streq _ _) eqn:E; [|done]. apply streq_true in E.
      rewrite E in Elit. discriminate. }
    rewrite (resets_at_not_end _ _ _ Hne).
    destruct (match_literal input walk (tk_name token)).
    - destruct (push_string_if W _ _ g) as [g'| |] eqn:Ep; simpl; [|done|done].
      intros [= <- <- <-].
      destruct (delta_next_state token g') as (tr & Hd & Hc & Hn).
      exists tr. split.
      { apply (delta_trans _ _ _ [] tr (push_string_if_delta _ _ _ _ Ep) Hd). }
      split; [done|]. split; [rewrite Hn; destruct (_ =? _); lia|].
      split; [lia|]. split; [done|]. intros _.
      destruct (decide (length (tk_name token) <= 1)); [by right | left; lia].
    - intros [= <- <- <-]. exists []. split; [apply delta_refl|].
      split; [done|]. split; [cbv; lia|]. split; [lia|]. split; [|done].
      intros _. split; [done|]. split; [done|]. by left. }
  destruct (streq (tk_name token) (lit "number")) eqn:Enum.
  { assert (Hne : streq (tk_name token) (lit "end") = false).
    { destruct (streq _ (lit "end")) eqn:E; [|done]. apply streq_true in E, Enum.
      rewrite E in Enum. discriminate. }
    rewrite (resets_at_not_end _ _ _ Hne).
    destruct (match_number input walk) as [[num e]|] eqn:Em.
    - destruct (push_long_if W _ _ g) as [g'| |] eqn:Ep; simpl; [|done|done].
      intros [= <- <- <-]. apply match_number_gt in Em.
      destruct (delta_next_state token g') as (tr & Hd & Hc & Hn).
      exists tr. split.
      { apply (delta_trans _ _ _ [] tr (push_long_if_delta _ _ _ _ Ep) Hd). }
      split; [done|]. split; [rewrite Hn; destruct (_ =? _); lia|].
      split; [lia|]. split; [done|]. intros _. by left.
    - intros [= <- <- <-]. exists []. split; [apply delta_refl|].
      split; [done|]. split; [cbv; lia|]. split; [lia|]. split; [|done].
      intros _. split; [done|]. split; [done|]. by left. }
  destruct (streq (tk_name token) (lit "string") || streq (tk_name token) (lit "word"))
    eqn:Estr.
  { assert (Hne : streq (tk_name token) (lit "end") = false).
    { destruct (streq _ (lit "end")) eqn:E; [|done]. apply streq_true in E.
      rewrite E in Estr. discriminate. }
    rewrite (resets_at_not_end _ _ _ Hne).
    destruct (parse_string input walk _) as [[str|] walk1] eqn:Eps.
    - apply parse_string_some_gt in Eps.
      destruct (push_string_if W _ _ g) as [g'| |] eqn:Ep; simpl; [|done|done].
      intros [= <- <- <-].
      destruct (delta_next_state token g') as (tr & Hd & Hc & Hn).
      exists tr. split.
      { apply (delta_trans _ _ _ [] tr (push_string_if_delta _ _ _ _ Ep) Hd). }
      split; [done|]. split; [rewrite Hn; destruct (_ =? _); lia|].
      split; [destruct (Ascii.eqb _ dquote); lia|]. split; [done|]. intros _. left.
      destruct (Ascii.eqb _ dquote); lia.
    - apply parse_string_none in Eps.
      unfold try_end. rewrite Hne. intros [= <- <- <-].
      exists []. split; [apply delta_refl|].
      split; [done|]. split; [cbv; lia|]. split; [lia|]. split; [|done].
      intros _. split; [done|]. split; [done|].
      destruct Eps as [->|[-> Hq]]; [by left | by right]. }
  (* anything else goes to the end test *)
  intros Heq. injection Heq as Heq.
  destruct (try_end_spec input token walk g) as (tr & Hd & Hc & Hcase).
  rewrite Heq in Hd, Hcase. simpl in Hd, Hcase.
  exists tr. split; [done|]. split; [done|].
  destruct Hcase as [(Hh & Hall & Htr) | (Hh & Hend & Hterm)].
  - injection Hall as -> -> ->. subst tr. split; [cbv; lia|]. split; [lia|].
    split; [|done]. intros _. split; [done|]. split; [done|]. by left.
  - injection Hh as -> ->. split.
    + destruct (try_end_dispatches input token walk g) as (tr' & Hd' & Hn').
      rewrite Heq in Hd'. simpl in Hd'.
      destruct Hd as (Ht & _), Hd' as (Ht' & _). rewrite Ht in Ht'.
      apply app_inv_head in Ht'. by subst tr'.
    + split; [lia|]. split; [done|]. intros _. left. lia.
Qed.

End ParserFacts.

Lemma position_seq walk : forall n a,
  map (fun i => if walk <=? i then caret else space) (seq a n) =
  replicate (Nat.min (walk - a) n) space ++ replicate (n - (walk - a)) caret.
Proof.
  induction n as [|n IH]; intros a; simpl.
  - by rewrite Nat.min_0_r.
  - rewrite IH. destruct (Nat.leb_spec walk a) as [Hle|Hgt].
    + replace (walk - a) with 0 by lia. replace (walk - S a) with 0 by lia.
      simpl. by rewrite Nat.sub_0_r.
    + replace (walk - a) with (S (walk - S a)) by lia. simpl. done.
Qed.

(** The caret line: spaces up to the cursor, carets from the cursor on, one
    character per input character. *)
Lemma position_spec input walk :
  position input walk =
  replicate (Nat.min walk (length input)) space ++ replicate (length input - walk) caret.
Proof. unfold position. by rewrite position_seq, Nat.sub_0_r. Qed.

Lemma position_length input walk : length (position input walk) = length input.
Proof. unfold position. by rewrite length_map, length_seq. Qed.

(** The token list of the message is the rendered tokens joined by a comma
    and a space. *)
Lemma possible_tokens_join toks :
  possible_tokens toks = join [comma; space] (map render_token toks).
Proof.
  induction toks as [|t toks IH]; [done|].
  cbn [possible_tokens]. destruct toks as [|t' toks]; [simpl; by rewrite app_nil_r|].
  rewrite IH. simpl. done.
Qed.

Section LoopFacts.

Variable W : Type.
Variables INITIAL __CALL : cmdp_state.
Variable tokens : cmdp_state -> list cmdp_token.
Variable GENERATED_call : W -> stack -> nat -> CommandResultIR -> W * CommandResultIR.
Variable cmd_criteria_init : W -> CommandResultIR -> W * CommandResultIR.

Local Abbreviation next_state' := (next_state W INITIAL __CALL GENERATED_call).
Local Abbreviation call_criteria_init' := (call_criteria_init W cmd_criteria_init).
Local Abbreviation try_end' := (try_end W INITIAL __CALL GENERATED_call cmd_criteria_init).
Local Abbreviation try_token' := (try_token W INITIAL __CALL GENERATED_call cmd_criteria_init).
Local Abbreviation try_tokens' := (try_tokens W INITIAL __CALL GENERATED_call cmd_criteria_init).
Local Abbreviation report_error' := (report_error W tokens).
Local Abbreviation parse_loop' :=
  (parse_loop W INITIAL __CALL tokens GENERATED_call cmd_criteria_init).
Local Abbreviation parse_command' :=
  (parse_command W INITIAL __CALL tokens GENERATED_call cmd_criteria_init).

Implicit Types (g : globals W) (input : list ascii) (token : cmdp_token).

(** Everything one pass over the token list of a state can do. *)
Lemma try_tokens_spec input : forall toks walk g h w1 g1,
  try_tokens' input toks walk g = Ret (h, w1, g1) ->
  exists tr, delta g g1 tr /\
    criteria_inits tr <= 1 /\ dispatches tr <= 1 /\ walk <= w1 /\
    (h = false -> g1 = g /\ tr = []) /\
    (h = true -> forallb literal_nonempty toks = true -> walk < w1).
Proof.
  induction toks as [|token toks IH]; intros walk g h w1 g1; simpl.
  - intros [= <- <- <-]. exists []. split; [apply delta_refl|].
    split; [cbv; lia|]. split; [cbv; lia|]. split; [lia|]. split; [done|]. done.
  - destruct (try_token' input token walk g) as [[[h0 w0] g0]| |] eqn:Et; simpl; [|done|done].
    pose proof (try_token_spec _ _ _ _ _ _ _ _ _ _ _ _ Et)
      as (tr & Hd & Hc & Hn & Hw & Hf & Ht).
    destruct h0.
    + intros [= <- <- <-]. exists tr. split; [done|].
      split; [rewrite Hc; destruct (resets_at _ _ _); lia|].
      split; [done|]. split; [done|]. split; [done|].
      intros _ Hall. apply andb_true_iff in Hall as [Hlit _].
      destruct (Ht eq_refl) as [?|[Hq Hlen]]; [done|].
      unfold literal_nonempty in Hlit. rewrite Hq in Hlit. cbn [negb orb] in Hlit.
      apply Nat.leb_le in Hlit. lia.
    + destruct (Hf eq_refl) as (-> & -> & Hw0).
      intros Hrest. destruct (IH _ _ _ _ _ Hrest) as (tr' & Hd' & Hc' & Hn' & Hw' & Hf' & Ht').
      exists tr'. split; [done|]. split; [done|]. split; [done|]. split; [lia|].
      split; [done|]. intros Hh Hall. apply andb_true_iff in Hall as [_ Hall].
      specialize (Ht' Hh Hall). lia.
Qed.

Lemma delta_snoc_emit g g1 tr e :
  call_render e = false -> delta g g1 tr -> delta g (emit W e g1) (tr ++ [e]).
Proof. intros He Hd. eapply delta_trans; [apply Hd | by apply delta_emit]. Qed.

Lemma delta_snoc_y g g1 tr c :
  delta g g1 tr ->
  delta g (y W c g1) (tr ++ match gen_of g with Some _ => [ev_yajl c] | None => [] end).
Proof.
  intros Hd. destruct (delta_y W g1 c) as (tr' & Hd' & _ & _ & ->).
  destruct Hd as (T & F & G). rewrite G in Hd'.
  eapply delta_trans; [|apply Hd']. done.
Qed.

Lemma delta_snoc_set_stack g g1 tr st :
  delta g g1 tr -> delta g (set_stack W st g1) tr.
Proof.
  intros Hd. rewrite <- (app_nil_r tr).
  eapply delta_trans; [apply Hd | apply delta_set_stack].
Qed.

Lemma report_error_spec input walk result g :
  (report_error' input walk result g).1 =
    {| parse_error := true; error_message := Some (errormessage (tokens (g_state g)));
       needs_tree_render := needs_tree_render result |} /\
  delta g (report_error' input walk result g).2
    (error_events input (errormessage (tokens (g_state g))) (position input walk) (gen_of g)).
Proof.
  split; [done|].
  assert (exists tr, delta g (report_error' input walk result g).2 tr /\
            tr = error_events input (errormessage (tokens (g_state g)))
                   (position input walk) (gen_of g)) as (tr & Hd & ->); [|done].
  eexists. split.
  - unfold report_error, ystr, ELOG. cbv zeta. cbn [snd].
    apply delta_snoc_set_stack.
    repeat (first [ apply delta_snoc_y | apply delta_snoc_emit; [done|] ]).
    apply delta_refl.
  - unfold error_events. destruct (gen_of g); reflexivity.
Qed.

Lemma any_render_error_events input msg pos gen :
  any_render (error_events input msg pos gen) = false /\
  dispatches (error_events input msg pos gen) = 0 /\
  criteria_inits (error_events input msg pos gen) = 0.
Proof. by destruct gen. Qed.

(** What a run of the loop adds to the trace, and what it leaves of the
    result. *)
Lemma parse_loop_delta input result : forall fuel walk g res g',
  parse_loop' fuel input walk result g = Ret (res, g') ->
  exists tr, delta g g' tr /\ needs_tree_render res = needs_tree_render result.
Proof.
  induction fuel as [|fuel IH]; intros walk g res g'; simpl.
  - destruct (length input <? walk); [|done].
    intros [= <- <-]. exists []. split; [apply delta_refl|done].
  - destruct (length input <? walk).
    { intros [= <- <-]. exists []. split; [apply delta_refl|done]. }
    destruct (try_tokens' input _ _ g) as [[[h w1] g1]| |] eqn:Et; simpl; [|done|done].
    destruct (try_tokens_spec _ _ _ _ _ _ _ Et) as (tr & Hd & _ & _ & _ & Hf & _).
    destruct h.
    + intros H. apply IH in H as (tr' & Hd' & Hr).
      exists (tr ++ tr'). split; [by eapply delta_trans|done].
    + destruct (Hf eq_refl) as (-> & ->).
      pose proof (report_error_spec input w1 result g) as [Hres Hd'].
      destruct (report_error' input w1 result g) as [res0 g0]. simpl in *.
      intros [= <- <-]. eexists. split; [apply Hd'|]. by rewrite Hres.
Qed.

Lemma push_loop_no_oof e st : forall n c, push_loop n c e st <> OutOfFuel.
Proof.
  induction n as [|n IH]; intros c; simpl; [done|].
  destruct (st !! c) as [old|]; [|done].
  destruct (se_identifier old); [apply IH|done].
Qed.

Lemma push_string_if_no_oof i str g : push_string_if W i str g <> OutOfFuel.
Proof.
  unfold push_string_if, push_string. destruct i as [i|]; [|done].
  pose proof (push_loop_no_oof
    {| se_identifier := Some i; se_type := STACK_STR; se_val := val_str (Some str) |}
    (g_stack g) STACK_SIZE 0) as H.
  by destruct (push_loop _ _ _ _).
Qed.

Lemma push_long_if_no_oof i num g : push_long_if W i num g <> OutOfFuel.
Proof.
  unfold push_long_if, push_long. destruct i as [i|]; [|done].
  pose proof (push_loop_no_oof
    {| se_identifier := Some i; se_type := STACK_LONG; se_val := val_num num |}
    (g_stack g) STACK_SIZE 0) as H.
  by destruct (push_loop _ _ _ _).
Qed.

(** Token attempts run no loop of their own on fuel. *)
Lemma try_token_no_oof input token walk g : try_token' input token walk g <> OutOfFuel.
Proof.
  unfold try_token.
  destruct (Ascii.eqb _ squote).
  { destruct (match_literal _ _ _); [|done].
    pose proof (push_string_if_no_oof (tk_identifier token) (drop 1 (tk_name token)) g).
    by destruct (push_string_if _ _ _ _). }
  destruct (streq _ (lit "number")).
  { destruct (match_number _ _) as [[num e]|]; [|done].
    pose proof (push_long_if_no_oof (tk_identifier token) num g).
    by destruct (push_long_if _ _ _ _). }
  destruct (_ || _); [|done].
  destruct (parse_string _ _ _) as [[str|] w1]; [|done].
  pose proof (push_string_if_no_oof (tk_identifier token) str g).
  by destruct (push_string_if _ _ _ _).
Qed.

Lemma try_tokens_no_oof input : forall toks walk g,
  try_tokens' input toks walk g <> OutOfFuel.
Proof.
  induction toks as [|t toks IH]; intros walk g; simpl; [done|].
  pose proof (try_token_no_oof input t walk g) as H.
  destruct (try_token' input t walk g) as [[[h0 w0] g0]| |]; simpl; [|done|done].
  destruct h0; [done|apply IH].
Qed.

(** With no empty literal in the table every handled token moves the
    cursor, so the loop ends within [length input + 2] iterations. *)
Lemma parse_loop_terminates input result :
  (forall s, forallb literal_nonempty (tokens s) = true) ->
  forall fuel walk g, length input + 2 <= fuel + walk ->
    parse_loop' fuel input walk result g <> OutOfFuel.
Proof.
  intros Hlit. induction fuel as [|fuel IH]; intros walk g Hfuel; cbn [parse_loop].
  - destruct (Nat.ltb_spec (length input) walk); [done|lia].
  - destruct (Nat.ltb_spec (length input) walk); [done|].
    pose proof (scan_while_ge is_space input (S (length input)) walk) as Hws.
    destruct (try_tokens' input _ _ g) as [[[h w1] g1]| |] eqn:Et; cbn [bind].
    + destruct (try_tokens_spec _ _ _ _ _ _ _ Et) as (tr & _ & _ & _ & Hw & _ & Ht).
      destruct h.
      * apply IH. specialize (Ht eq_refl (Hlit _)). lia.
      * by destruct (report_error' _ _ _ _).
    + done.
    + by apply try_tokens_no_oof in Et.
Qed.

End LoopFacts.

(** * Runs on the sample table *)

(** A typo in the first word, against a table that starts with the literal
    move: the message names that literal and the caret line marks the whole
    input. *)
Lemma mve_left_run :
  exists g',
    Demo.parse Demo.move_only "mve left" =
      Ret ({| parse_error := true;
              error_message := Some (lit "Expected one of these tokens: 'move'");
              needs_tree_render := false |}, g') /\
    g_trace g' =
      [ev_criteria_init;
       ev_elog (lit "Expected one of these tokens: 'move'");
       ev_elog (lit "Your command: mve left");
       ev_elog (lit "              ^^^^^^^^")] /\
    position (lit "mve left") 0 = lit "^^^^^^^^".
Proof. eexists. split; [vm_compute; reflexivity|]. split; reflexivity. Qed.

(** Two operations separated by a comma and by a semicolon: no error and
    two dispatches each, the same tokens handled at the same cursors, among
    them the end token that reads the separator. *)
Lemma comma_semicolon_calls :
  exists res_c final_c res_s final_s,
    parse_command unit Demo.INITIAL Demo.CALL Demo.tokens Demo.GENERATED_call
      Demo.cmd_criteria_init 23 (lit "move left" ++ [comma] ++ lit " move right")
      None None Demo.g0 = Ret (res_c, final_c) /\
    parse_command unit Demo.INITIAL Demo.CALL Demo.tokens Demo.GENERATED_call
      Demo.cmd_criteria_init 23 (lit "move left" ++ [semicolon] ++ lit " move right")
      None None Demo.g0 = Ret (res_s, final_s) /\
    parse_error res_c = false /\ parse_error res_s = false /\
    dispatches (g_trace final_c) = 2 /\ dispatches (g_trace final_s) = 2.
Proof.
  eexists _, _, _, _.
  split; [vm_compute; reflexivity|]. split; [vm_compute; reflexivity|].
  repeat split.
Qed.

Lemma comma_semicolon_handled :
  handled_in_call unit Demo.INITIAL Demo.CALL Demo.tokens Demo.GENERATED_call
    Demo.cmd_criteria_init 23 (lit "move left" ++ [comma] ++ lit " move right")
    None None Demo.g0 =
  handled_in_call unit Demo.INITIAL Demo.CALL Demo.tokens Demo.GENERATED_call
    Demo.cmd_criteria_init 23 (lit "move left" ++ [semicolon] ++ lit " move right")
    None None Demo.g0 /\
  exists t, tk_name t = lit "end" /\
    (t, length (lit "move left")) ∈
    handled_in_call unit Demo.INITIAL Demo.CALL Demo.tokens Demo.GENERATED_call
      Demo.cmd_criteria_init 23 (lit "move left" ++ [comma] ++ lit " move right")
      None None Demo.g0.
Proof.
  split; [vm_compute; reflexivity|].
  exists (Demo.tok "end" None Demo.CALL 1). split; [reflexivity|].
  apply (list_elem_of_lookup_2 _ 2). vm_compute. reflexivity.
Qed.

(** The identifier nosn pushed twice by one command reaches the dispatcher
    in two slots. *)
Lemma exec_nosn_twice_run :
  exists r g st,
    Demo.parse Demo.tokens "exec --no-startup-id --no-startup-id xterm" = Ret (r, g) /\
    parse_error r = false /\
    filter is_call (g_trace g) = [ev_call 3 st Demo.INITIAL false] /\
    names st = [lit "nosn"; lit "nosn"; lit "command"] /\
    get_string st (lit "command") = str_is (Some (lit "xterm")).
Proof.
  eexists _, _, _. split; [vm_compute; reflexivity|]. repeat split.
Qed.

(** A lone double quote where a word or the end of the command may follow:
    the word attempt fails behind the quote, and the end token then accepts
    the input as if the quote were not there. *)
Lemma stray_quote_run :
  exists r g st,
    Demo.parse Demo.tokens ("bar " ++ String dquote EmptyString) = Ret (r, g) /\
    parse_error r = false /\
    filter is_call (g_trace g) = [ev_call 5 st Demo.INITIAL false].
Proof.
  eexists _, _, _. split; [vm_compute; reflexivity|]. repeat split.
Qed.

(** * The driver: main results *)

Section DriverTheorems.

Variable W : Type.
Variables INITIAL __CALL : cmdp_state.
Variable tokens : cmdp_state -> list cmdp_token.
Variable GENERATED_call : W -> stack -> nat -> CommandResultIR -> W * CommandResultIR.
Variable cmd_criteria_init : W -> CommandResultIR -> W * CommandResultIR.

Local Abbreviation next_state' := (next_state W INITIAL __CALL GENERATED_call).
Local Abbreviation call_criteria_init' := (call_criteria_init W cmd_criteria_init).
Local Abbreviation try_end' := (try_end W INITIAL __CALL GENERATED_call cmd_criteria_init).
Local Abbreviation try_token' := (try_token W INITIAL __CALL GENERATED_call cmd_criteria_init).
Local Abbreviation try_tokens' := (try_tokens W INITIAL __CALL GENERATED_call cmd_criteria_init).
Local Abbreviation report_error' := (report_error W tokens).
Local Abbreviation parse_loop' :=
  (parse_loop W INITIAL __CALL tokens GENERATED_call cmd_criteria_init).
Local Abbreviation parse_command' :=
  (parse_command W INITIAL __CALL tokens GENERATED_call cmd_criteria_init).
Local Abbreviation handler' := (handler W INITIAL __CALL GENERATED_call cmd_criteria_init).
Local Abbreviation handled' :=
  (handled W INITIAL __CALL tokens GENERATED_call cmd_criteria_init).
Local Abbreviation loop_entry' := (loop_entry W INITIAL cmd_criteria_init).
Local Abbreviation handled_in_call' :=
  (handled_in_call W INITIAL __CALL tokens GENERATED_call cmd_criteria_init).

Implicit Types (g : globals W) (input : list ascii) (token : cmdp_token).

(** The globals when the loop of parse_command starts. *)
Lemma parse_command_unfold fuel input gen client g :
  exists g_a tr_a,
    g_trace g_a = g_trace g ++ tr_a /\
    tr_a = match gen with Some _ => [ev_yajl yajl_array_open] | None => [] end
           ++ [ev_criteria_init] /\
    flag g_a = false /\ gen_of g_a = gen /\ g_state g_a = INITIAL /\
    g_stack g_a = g_stack g /\
    parse_command' fuel input gen client g =
    (do r <- parse_loop' fuel input 0
               {| parse_error := false; error_message := None; needs_tree_render := false |}
               g_a;
     Ret ({| parse_error := parse_error r.1; error_message := error_message r.1;
             needs_tree_render := flag (y W yajl_array_close r.2) |},
          y W yajl_array_close r.2)).
Proof.
  unfold parse_command.
  set (g_a := call_criteria_init W cmd_criteria_init _).
  exists g_a. eexists. split; [|split; [reflexivity|]].
  - subst g_a. unfold call_criteria_init, y.
    destruct (cmd_criteria_init _ _) as [w sub]. simpl.
    destruct gen; simpl; by rewrite <- ?app_assoc.
  - assert (Hprops : flag g_a = false /\ gen_of g_a = gen /\ g_state g_a = INITIAL /\
                     g_stack g_a = g_stack g).
    { subst g_a. unfold call_criteria_init, y, flag, gen_of.
      destruct (cmd_criteria_init _ _) as [w sub]. simpl. by destruct gen. }
    destruct Hprops as (? & ? & ? & ?). repeat (split; [done|]).
    destruct (parse_loop' fuel input 0 _ g_a) as [[res g']| |]; simpl; done.
Qed.

(** C7. The flag of the result is the disjunction of the flags reported by
    the dispatches of this call, and inside the loop a flag that is set
    stays set. *)
Theorem needs_tree_render_is_or_of_dispatches
    (fuel : nat) (input : cstr) (gen : option yajl_gen) (client : option ipc_client)
    (g : globals W) (res : CommandResult) (g' : globals W) :
  parse_command' fuel input gen client g = Ret (res, g') ->
  (exists tr, g_trace g' = g_trace g ++ tr /\ needs_tree_render res = any_render tr) /\
  (forall fuel1 walk result g1 res2 g2,
     parse_loop' fuel1 input walk result g1 = Ret (res2, g2) ->
     flag g1 = true -> flag g2 = true).
Proof.
  intros Hrun. split.
  - destruct (parse_command_unfold fuel input gen client g)
      as (g_a & tr_a & Ht & Htr & Hflag & Hgen & _ & _ & Heq).
    rewrite Heq in Hrun.
    destruct (parse_loop' fuel input 0 _ g_a) as [[res1 g1]| |] eqn:El; simpl in Hrun;
      [|done|done].
    injection Hrun as <- <-.
    apply parse_loop_delta in El as (tr & (T & F & G) & _).
    destruct (delta_y W g1 yajl_array_close) as (trc & (Tc & Fc & _) & _ & _ & Hc).
    exists (tr_a ++ tr ++ trc). split.
    + rewrite Tc, T, Ht. by rewrite <- !app_assoc.
    + simpl. rewrite Fc, F, Hflag, !any_render_app.
      assert (any_render tr_a = false) as -> by (subst tr_a; by destruct gen).
      by rewrite orb_assoc.
  - intros fuel1 walk result g1 res2 g2 Hl Hf.
    apply parse_loop_delta in Hl as (tr & (_ & F & _) & _). by rewrite F, Hf.
Qed.

Lemma try_token_end input token walk g :
  tk_name token = lit "end" ->
  try_token' input token walk g = Ret (try_end' input token walk g).
Proof. intros H. unfold try_token. by rewrite H. Qed.

Lemma try_end_comma input token walk g :
  tk_name token = lit "end" -> peek input walk = comma ->
  try_end' input token walk g = (true, S walk, next_state' token g).
Proof. intros H Hc. unfold try_end. by rewrite H, Hc. Qed.

Lemma try_end_reset input token walk g :
  tk_name token = lit "end" -> peek input walk = NUL \/ peek input walk = semicolon ->
  try_end' input token walk g =
  (true, S walk, call_criteria_init' (next_state' token g)).
Proof. intros H [Hc|Hc]; unfold try_end; by rewrite H, Hc. Qed.

(** *** Resets over a whole run *)

Lemma wf_cstr_peek_NUL input w : wf_cstr input -> peek input w = NUL -> length input <= w.
Proof.
  intros Hwf Hp. destruct (decide (w < length input)) as [Hlt|]; [|lia].
  apply lookup_lt_is_Some in Hlt as [c Hc].
  unfold peek in Hp. rewrite Hc in Hp. simpl in Hp. subst c.
  unfold wf_cstr in Hwf. rewrite Forall_forall in Hwf.
  exfalso. apply (Hwf NUL); [|done]. by eapply list_elem_of_lookup_2.
Qed.

Lemma semicolons_drop_le input : forall w, semicolons (drop w input) <= semicolons input.
Proof.
  unfold semicolons. induction input as [|c l IH]; intros [|w]; simpl; try lia.
  specialize (IH w). rewrite filter_cons. destruct (decide _); simpl; lia.
Qed.

Lemma semicolons_drop_mono input w w' :
  w <= w' -> semicolons (drop w' input) <= semicolons (drop w input).
Proof.
  intros H. replace w' with (w + (w' - w)) by lia. rewrite <- drop_drop.
  apply semicolons_drop_le.
Qed.

Lemma semicolons_drop_S input w :
  peek input w = semicolon ->
  semicolons (drop w input) = S (semicolons (drop (S w) input)).
Proof.
  intros Hp. destruct (drop_peek input w) as [[_ E]|[E _]].
  - rewrite E in Hp. discriminate.
  - rewrite E, Hp. unfold semicolons. rewrite filter_cons.
    destruct (decide _) as [|n]; [done|]. by destruct n.
Qed.

Lemma try_token_reset_pos input token walk g h w1 g1 :
  try_token' input token walk g = Ret (h, w1, g1) ->
  resets_at input token walk = true ->
  w1 = S walk /\ (peek input walk = NUL \/ peek input walk = semicolon).
Proof.
  intros Ht Hr. unfold resets_at in Hr. apply andb_true_iff in Hr as [Hn Hc].
  apply streq_true in Hn.
  assert (Hp : peek input walk = NUL \/ peek input walk = semicolon).
  { apply orb_true_iff in Hc as [Hc|Hc]; apply Ascii.eqb_eq in Hc; auto. }
  rewrite try_token_end, try_end_reset in Ht by done.
  injection Ht as _ <- _. done.
Qed.

(** A pass over the tokens resets the criteria at most once, and then at
    a terminator or semicolon that it steps over. *)
Lemma try_tokens_reset input : forall toks walk g h w1 g1,
  try_tokens' input toks walk g = Ret (h, w1, g1) ->
  exists tr, delta g g1 tr /\ walk <= w1 /\
    (criteria_inits tr = 0 \/
     (criteria_inits tr = 1 /\ exists w_end, walk <= w_end /\ w1 = S w_end /\
        (peek input w_end = NUL \/ peek input w_end = semicolon))).
Proof.
  induction toks as [|token toks IH]; intros walk g h w1 g1; simpl.
  - intros [= <- <- <-]. exists []. split; [apply delta_refl|]. split; [lia|by left].
  - destruct (try_token' input token walk g) as [[[h0 w0] g0]| |] eqn:Et; simpl; [|done|done].
    pose proof (try_token_spec _ _ _ _ _ _ _ _ _ _ _ _ Et)
      as (tr & Hd & Hc & _ & Hw & Hf & _).
    destruct h0.
    + intros [= <- <- <-]. exists tr. split; [done|]. split; [done|].
      destruct (resets_at input token walk) eqn:Hr; [|by left].
      right. split; [done|]. exists walk.
      destruct (try_token_reset_pos _ _ _ _ _ _ _ Et Hr) as [-> Hp]. done.
    + destruct (Hf eq_refl) as (-> & -> & _).
      intros Hrest. destruct (IH _ _ _ _ _ Hrest) as (tr' & Hd' & Hw' & Hcase).
      exists tr'. split; [done|]. split; [lia|].
      destruct Hcase as [?|(? & w_end & ? & ? & ?)]; [by left|].
      right. split; [done|]. exists w_end. split; [lia|done].
Qed.

Lemma parse_loop_resets input result : wf_cstr input ->
  forall fuel walk g res g',
    parse_loop' fuel input walk result g = Ret (res, g') ->
    exists tr, delta g g' tr /\
      criteria_inits tr <=
      semicolons (drop walk input) + (if length input <? walk then 0 else 1).
Proof.
  intros Hwf. induction fuel as [|fuel IH]; intros walk g res g'; cbn [parse_loop].
  - destruct (length input <? walk); [|done].
    intros [= <- <-]. exists []. split; [apply delta_refl|cbv; lia].
  - destruct (Nat.ltb_spec (length input) walk) as [Hgt|Hle].
    { intros [= <- <-]. exists []. split; [apply delta_refl|cbv; lia]. }
    pose proof (scan_while_ge is_space input (S (length input)) walk) as Hws.
    destruct (try_tokens' input _ _ g) as [[[h w1] g1]| |] eqn:Et; cbn [bind]; [|done|done].
    destruct (try_tokens_reset _ _ _ _ _ _ _ Et) as (tr & Hd & Hw & Hcase).
    destruct h.
    + intros Hrest. apply IH in Hrest as (tr' & Hd' & Hc').
      exists (tr ++ tr'). split; [by eapply delta_trans|].
      rewrite criteria_inits_app.
      destruct Hcase as [->|(-> & w_end & Hwe & -> & [Hp|Hp])].
      * pose proof (semicolons_drop_mono input walk w1 ltac:(lia)).
        destruct (length input <? w1); lia.
      * apply wf_cstr_peek_NUL in Hp; [|done].
        destruct (Nat.ltb_spec (length input) (S w_end)); [|lia].
        rewrite drop_ge in Hc' by lia. unfold semicolons in Hc' at 1. simpl in Hc'. lia.
      * pose proof (semicolons_drop_S input w_end Hp).
        pose proof (semicolons_drop_mono input walk w_end ltac:(lia)).
        destruct (length input <? S w_end); lia.
    + destruct (try_tokens_spec _ _ _ _ _ _ _ _ _ _ _ _ Et) as (tr0 & _ & _ & _ & _ & Hf & _).
      destruct (Hf eq_refl) as (-> & _).
      pose proof (report_error_spec W tokens input w1 result g) as [_ Hd'].
      destruct (report_error' input w1 result g) as [res0 g0]. simpl in Hd'.
      intros [= <- <-]. eexists. split; [apply Hd'|].
      destruct (any_render_error_events input
                  (errormessage (tokens (g_state g))) (position input w1) (gen_of g))
        as (_ & _ & ->). lia.
Qed.

(** *** The handled tokens of a run *)

(** parse_command is its entry statements, the loop, and the closing of
    the reply. *)
Lemma parse_command_entry fuel input gen client g :
  parse_command' fuel input gen client g =
  (do r <- parse_loop' fuel input 0
             {| parse_error := false; error_message := None; needs_tree_render := false |}
             (loop_entry' gen client g);
   Ret ({| parse_error := parse_error r.1; error_message := error_message r.1;
           needs_tree_render := flag (y W yajl_array_close r.2) |},
        y W yajl_array_close r.2)).
Proof.
  unfold parse_command, loop_entry.
  destruct (parse_loop _ _ _ _ _ _ _ _ _ _ _) as [[res g']| |]; reflexivity.
Qed.

Lemma loop_entry_trace gen client g :
  g_trace (loop_entry' gen client g) =
  g_trace g ++ match gen with Some _ => [ev_yajl yajl_array_open] | None => [] end
            ++ [ev_criteria_init].
Proof.
  unfold loop_entry, call_criteria_init, y.
  destruct (cmd_criteria_init _ _) as [w sub]. simpl.
  destruct gen; simpl; by rewrite <- ?app_assoc.
Qed.

Lemma loop_entry_gen gen client g : gen_of (loop_entry' gen client g) = gen.
Proof.
  unfold loop_entry, call_criteria_init, y, gen_of.
  destruct (cmd_criteria_init _ _) as [w sub]. simpl. by destruct gen.
Qed.

Lemma skip_space_le input walk :
  walk <= length input -> scan_while (S (length input)) is_space input walk <= length input.
Proof.
  intros Hw.
  destruct (scan_while_spec is_space input eq_refl (S (length input)) walk ltac:(lia))
    as (H1 & H2 & _).
  destruct (decide (walk < scan_while (S (length input)) is_space input walk)); [auto|lia].
Qed.

(** A pass over the tokens that handles none leaves the globals alone and
    moves the cursor only behind a double quote on which a string or word
    attempt gave up. *)
Lemma try_tokens_fail_cursor input : forall toks walk g w1 g1,
  try_tokens' input toks walk g = Ret (false, w1, g1) ->
  g1 = g /\ walk <= w1 /\ (walk <= length input -> w1 <= length input) /\
  (peek input walk <> dquote -> w1 = walk).
Proof.
  induction toks as [|token toks IH]; intros walk g w1 g1; simpl.
  - intros [= <- <-]. done.
  - destruct (try_token' input token walk g) as [[[h0 w0] g0]| |] eqn:Et; simpl; [|done|done].
    destruct h0; [done|].
    destruct (try_token_spec _ _ _ _ _ _ _ _ _ _ _ _ Et) as (tr & _ & _ & _ & _ & Hf & _).
    destruct (Hf eq_refl) as (-> & _ & Hw0).
    intros Hrest. destruct (IH _ _ _ _ Hrest) as (-> & Hle & Hin & Hq).
    split; [done|].
    destruct Hw0 as [-> | [-> Hdq]]; [done|].
    split; [lia|]. split; [|done].
    intros Hlen. apply Hin.
    assert (walk < length input); [|lia].
    destruct (decide (walk < length input)); [done|].
    rewrite peek_ge in Hdq by lia. discriminate.
Qed.

(** The pass over the tokens and its view agree: a handled pass is the
    handled attempt of the token the view names, at the cursor it names. *)
Lemma try_tokens_handler input : forall toks walk g h w1 g1,
  try_tokens' input toks walk g = Ret (h, w1, g1) ->
  (h = false -> handler' input toks walk g = None) /\
  (h = true -> exists token w,
     handler' input toks walk g = Some (token, w) /\
     token ∈ toks /\ walk <= w /\ (walk <= length input -> w <= length input) /\
     try_token' input token w g = Ret (true, w1, g1)).
Proof.
  induction toks as [|token toks IH]; intros walk g h w1 g1; simpl.
  - intros [= <- <- <-]. done.
  - destruct (try_token' input token walk g) as [[[h0 w0] g0]| |] eqn:Et; simpl; [|done|done].
    destruct h0.
    + intros [= <- <- <-]. split; [done|]. intros _.
      exists token, walk. split; [done|]. split; [apply list_elem_of_here|].
      split; [lia|]. split; [done|exact Et].
    + destruct (try_token_spec _ _ _ _ _ _ _ _ _ _ _ _ Et) as (tr & _ & _ & _ & _ & Hf & _).
      destruct (Hf eq_refl) as (-> & _ & Hw0).
      intros Hrest. destruct (IH _ _ _ _ _ Hrest) as [Hnone Hsome].
      split; [done|]. intros Hh.
      destruct (Hsome Hh) as (t & w & Ehd & Hin & Hle & Hlen & Hrun).
      exists t, w. split; [done|]. split; [by apply list_elem_of_further|].
      destruct Hw0 as [-> | [-> Hdq]]; [done|].
      split; [lia|]. split; [|done].
      intros Hwl. apply Hlen.
      assert (walk < length input); [|lia].
      destruct (decide (walk < length input)); [done|].
      rewrite peek_ge in Hdq by lia. discriminate.
Qed.

Lemma length_filter_cons {A} (f : A -> bool) (x : A) (l : list A) :
  length (filter f (x :: l)) = (if f x then 1 else 0) + length (filter f l).
Proof.
  rewrite filter_cons. destruct (f x) eqn:E; destruct (decide _) as [H|H]; simpl;
    try done; rewrite E in H; by destruct H.
Qed.

(** The unfolding of the view of the loop at an iteration that handles a
    token. *)
Lemma handled_step fuel input walk g token w w1 g1 :
  walk <= length input ->
  handler' input (tokens (g_state g))
    (scan_while (S (length input)) is_space input walk) g = Some (token, w) ->
  try_tokens' input (tokens (g_state g))
    (scan_while (S (length input)) is_space input walk) g = Ret (true, w1, g1) ->
  handled' (S fuel) input walk g = (token, w) :: handled' fuel input w1 g1.
Proof.
  intros Hw Eh Et. cbn [handled].
  destruct (Nat.ltb_spec (length input) walk); [lia|].
  cbv zeta. by rewrite Eh, Et.
Qed.

Lemma handled_stop fuel input walk g w1 g1 :
  try_tokens' input (tokens (g_state g))
    (scan_while (S (length input)) is_space input walk) g = Ret (false, w1, g1) ->
  handled' (S fuel) input walk g = [].
Proof.
  intros Et. cbn [handled]. destruct (length input <? walk); [done|].
  cbv zeta. rewrite Et. by destruct (handler' _ _ _ _).
Qed.

Lemma handled_past fuel input walk g : length input < walk -> handled' fuel input walk g = [].
Proof.
  intros H. destruct fuel; cbn [handled]; by destruct (Nat.ltb_spec (length input) walk); [|lia].
Qed.

(** The resets of a run of the loop are those of its handled tokens. *)
Lemma parse_loop_reset_count input result : forall fuel walk g res g',
  parse_loop' fuel input walk result g = Ret (res, g') ->
  exists tr, delta g g' tr /\
    criteria_inits tr = length (filter (resets input) (handled' fuel input walk g)).
Proof.
  induction fuel as [|fuel IH]; intros walk g res g'.
  - cbn [parse_loop]. destruct (Nat.ltb_spec (length input) walk); [|done].
    intros [= <- <-]. exists []. split; [apply delta_refl|]. by rewrite handled_past.
  - cbn [parse_loop]. destruct (Nat.ltb_spec (length input) walk) as [Hgt|Hle].
    { intros [= <- <-]. exists []. split; [apply delta_refl|]. by rewrite handled_past. }
    destruct (try_tokens' input _ _ g) as [[[h w1] g1]| |] eqn:Et; cbn [bind]; [|done|done].
    destruct (try_tokens_handler _ _ _ _ _ _ _ Et) as [_ Hsome].
    destruct h.
    + destruct (Hsome eq_refl) as (token & w & Eh & _ & _ & _ & Hrun).
      destruct (try_token_spec _ _ _ _ _ _ _ _ _ _ _ _ Hrun) as (tr1 & Hd1 & Hc1 & _).
      intros Hrest. apply IH in Hrest as (tr & Hd & Hc).
      exists (tr1 ++ tr). split; [by eapply delta_trans|].
      rewrite (handled_step _ _ _ _ _ _ _ _ Hle Eh Et), length_filter_cons.
      rewrite criteria_inits_app, Hc1, Hc. done.
    + rewrite (handled_stop _ _ _ _ _ _ Et).
      destruct (try_tokens_fail_cursor _ _ _ _ _ _ Et) as (-> & _).
      pose proof (report_error_spec W tokens input w1 result g) as [_ Hd'].
      destruct (report_error' input w1 result g) as [res0 g0]. simpl in Hd'.
      intros [= <- <-]. eexists. split; [apply Hd'|].
      destruct (any_render_error_events input
                  (errormessage (tokens (g_state g))) (position input w1) (gen_of g))
        as (_ & _ & ->). done.
Qed.

(** An end token is handled at most once at a given cursor: the cursors of
    the handled tokens never go back, and an end token steps over the
    character it reads. *)
Lemma handled_end_once input p : forall fuel walk g,
  length (filter (end_at p) (handled' fuel input walk g)) <= (if walk <=? p then 1 else 0).
Proof.
  induction fuel as [|fuel IH]; intros walk g.
  - cbn [handled]. destruct (length input <? walk); simpl; lia.
  - destruct (Nat.ltb_spec (length input) walk) as [Hgt|Hle].
    { rewrite handled_past by done. simpl. lia. }
    destruct (try_tokens' input (tokens (g_state g))
                (scan_while (S (length input)) is_space input walk) g)
      as [[[h w1] g1]| |] eqn:Et.
    + destruct h.
      * destruct (try_tokens_handler _ _ _ _ _ _ _ Et) as [_ Hsome].
        destruct (Hsome eq_refl) as (token & w & Eh & _ & Hw & _ & Hrun).
        pose proof (scan_while_ge is_space input (S (length input)) walk) as Hws.
        rewrite (handled_step _ _ _ _ _ _ _ _ Hle Eh Et), length_filter_cons.
        destruct (try_token_spec _ _ _ _ _ _ _ _ _ _ _ _ Hrun) as (_ & _ & _ & _ & Hw1 & _).
        specialize (IH w1 g1).
        unfold end_at at 1. cbn [fst snd].
        destruct (streq (tk_name token) (lit "end")) eqn:En; simpl.
        -- apply streq_true in En.
           rewrite try_token_end in Hrun by done.
           assert (w1 = S w) as ->.
           { unfold try_end in Hrun. rewrite En in Hrun.
             change (streq (lit "end") (lit "end")) with true in Hrun.
             destruct (is_terminator _); [|discriminate Hrun].
             by injection Hrun as <- _. }
           destruct (Nat.eqb_spec w p) as [->|Hne].
           ++ destruct (Nat.leb_spec (S p) p); [lia|].
              destruct (Nat.leb_spec walk p); lia.
           ++ destruct (Nat.leb_spec (S w) p); destruct (Nat.leb_spec walk p); lia.
        -- destruct (Nat.leb_spec w1 p); destruct (Nat.leb_spec walk p); lia.
      * rewrite (handled_stop _ _ _ _ _ _ Et). simpl. lia.
    + cbn [handled]. destruct (length input <? walk); [simpl; lia|].
      cbv zeta. rewrite Et. destruct (handler' _ _ _ _); simpl; lia.
    + cbn [handled]. destruct (length input <? walk); [simpl; lia|].
      cbv zeta. rewrite Et. destruct (handler' _ _ _ _); simpl; lia.
Qed.

Lemma length_filter_split {A} (f k e : A -> bool) (l : list A) :
  (forall x, x ∈ l -> f x = k x || e x) ->
  (forall x, x ∈ l -> k x && e x = false) ->
  length (filter f l) = length (filter k l) + length (filter e l).
Proof.
  induction l as [|x l IH]; intros Hf Hd; [done|].
  rewrite !length_filter_cons, IH.
  - specialize (Hf x (list_elem_of_here _ _)). specialize (Hd x (list_elem_of_here _ _)).
    rewrite Hf. destruct (k x), (e x); simpl in *; try discriminate; lia.
  - intros y Hy. apply Hf. by apply list_elem_of_further.
  - intros y Hy. apply Hd. by apply list_elem_of_further.
Qed.

Lemma length_filter_elem {A} (f : A -> bool) (x : A) (l : list A) :
  x ∈ l -> f x = true -> 1 <= length (filter f l).
Proof.
  induction l as [|y l IH]; intros Hin Hfx; [by apply elem_of_nil in Hin|].
  rewrite length_filter_cons. apply elem_of_cons in Hin as [<-|Hin].
  - rewrite Hfx. lia.
  - specialize (IH Hin Hfx). lia.
Qed.

Lemma peek_separator (pre post : cstr) (c1 c2 : ascii) w :
  w <> length pre -> peek (pre ++ c1 :: post) w = peek (pre ++ c2 :: post) w.
Proof.
  intros Hne. unfold peek. destruct (decide (w < length pre)).
  - by rewrite !lookup_app_l by done.
  - rewrite (lookup_app_r pre (c1 :: post)), (lookup_app_r pre (c2 :: post)) by lia.
    destruct (w - length pre) as [|k] eqn:E; [lia|]. reflexivity.
Qed.

Lemma peek_separator_at (pre post : cstr) (c : ascii) :
  peek (pre ++ c :: post) (length pre) = c.
Proof. unfold peek. by rewrite lookup_app_r, Nat.sub_diag by lia. Qed.

(** With a comma in the place of a semicolon, the handled tokens being
    the same, the resets are those of the semicolon but the one behind the
    end token that reads that character. *)
Lemma resets_comma_semicolon (pre post : cstr) (l : list (cmdp_token * nat)) :
  length (filter (resets (pre ++ [semicolon] ++ post)) l) =
  length (filter (resets (pre ++ [comma] ++ post)) l) +
  length (filter (end_at (length pre)) l).
Proof.
  change (pre ++ [semicolon] ++ post) with (pre ++ semicolon :: post).
  change (pre ++ [comma] ++ post) with (pre ++ comma :: post).
  apply length_filter_split.
  - intros [t w] _. unfold resets, resets_at, end_at. cbn [fst snd].
    destruct (streq (tk_name t) (lit "end")); [|done]. cbn [andb].
    destruct (Nat.eqb_spec w (length pre)) as [->|Hne].
    + by rewrite !peek_separator_at.
    + rewrite (peek_separator pre post semicolon comma w Hne). by rewrite orb_false_r.
  - intros [t w] _. unfold resets, resets_at, end_at. cbn [fst snd].
    destruct (streq (tk_name t) (lit "end")); [|done]. cbn [andb].
    destruct (Nat.eqb_spec w (length pre)) as [->|Hne]; [|by rewrite andb_false_r].
    by rewrite peek_separator_at.
Qed.

Lemma set_stack_same g : set_stack W (g_stack g) g = g.
Proof. by destruct g. Qed.

Lemma push_string_if_stack i str g g1 :
  push_string_if W i str g = Ret g1 -> exists st, g1 = set_stack W st g.
Proof.
  unfold push_string_if. destruct i as [i|].
  - destruct (push_string (g_stack g) i str) as [st| |]; simpl; [|done|done].
    intros [= <-]. by exists st.
  - intros [= <-]. exists (g_stack g). by rewrite set_stack_same.
Qed.

Lemma push_long_if_stack i num g g1 :
  push_long_if W i num g = Ret g1 -> exists st, g1 = set_stack W st g.
Proof.
  unfold push_long_if. destruct i as [i|].
  - destruct (push_long (g_stack g) i num) as [st| |]; simpl; [|done|done].
    intros [= <-]. by exists st.
  - intros [= <-]. exists (g_stack g). by rewrite set_stack_same.
Qed.

(** What a token attempt does to the globals: nothing when the token is
    not handled; otherwise a push, which writes the stack only, then the
    transition, and then the re-initialisation of the criteria exactly when
    the token is an end token met at the terminator or at a semicolon. *)
Lemma try_token_shape input token walk g h w1 g1 :
  try_token' input token walk g = Ret (h, w1, g1) ->
  if h then
    exists st,
      g1 = (if resets_at input token walk
            then call_criteria_init' (next_state' token (set_stack W st g))
            else next_state' token (set_stack W st g))
  else g1 = g.
Proof.
  unfold try_token.
  destruct (Ascii.eqb (peek (tk_name token) 0) squote) eqn:Elit.
  { assert (Hne : streq (tk_name token) (lit "end") = false).
    { destruct (streq _ _) eqn:E; [|done]. apply streq_true in E.
      rewrite E in Elit. discriminate. }
    rewrite (resets_at_not_end _ _ _ Hne).
    destruct (match_literal input walk (tk_name token)).
    - destruct (push_string_if W _ _ g) as [g'| |] eqn:Ep; simpl; [|done|done].
      intros [= <- <- <-]. apply push_string_if_stack in Ep as [st ->]. by exists st.
    - by intros [= <- <- <-]. }
  destruct (streq (tk_name token) (lit "number")) eqn:Enum.
  { assert (Hne : streq (tk_name token) (lit "end") = false).
    { destruct (streq _ (lit "end")) eqn:E; [|done]. apply streq_true in E, Enum.
      rewrite E in Enum. discriminate. }
    rewrite (resets_at_not_end _ _ _ Hne).
    destruct (match_number input walk) as [[num e]|].
    - destruct (push_long_if W _ _ g) as [g'| |] eqn:Ep; simpl; [|done|done].
      intros [= <- <- <-]. apply push_long_if_stack in Ep as [st ->]. by exists st.
    - by intros [= <- <- <-]. }
  assert (Hend : forall w, peek input w = peek input walk \/
                           streq (tk_name token) (lit "end") = false ->
            try_end' input token w g = (h, w1, g1) ->
            if h then
              exists st,
                g1 = (if resets_at input token walk
                      then call_criteria_init' (next_state' token (set_stack W st g))
                      else next_state' token (set_stack W st g))
            else g1 = g).
  { intros w Hw. unfold try_end, resets_at.
    destruct (streq (tk_name token) (lit "end")); [|by intros [= <- <- <-]].
    destruct Hw as [Hw|]; [|done]. rewrite Hw.
    destruct (is_terminator (peek input walk)); [|by intros [= <- <- <-]].
    intros [= <- <- <-]. exists (g_stack g). rewrite set_stack_same. simpl.
    by destruct (_ || _). }
  destruct (streq (tk_name token) (lit "string") || streq (tk_name token) (lit "word"))
    eqn:Estr.
  { assert (Hne : streq (tk_name token) (lit "end") = false).
    { destruct (streq _ (lit "end")) eqn:E; [|done]. apply streq_true in E.
      rewrite E in Estr. discriminate. }
    destruct (parse_string input walk _) as [[str|] walk1].
    - rewrite (resets_at_not_end _ _ _ Hne).
      destruct (push_string_if W _ _ g) as [g'| |] eqn:Ep; simpl; [|done|done].
      intros [= <- <- <-]. apply push_string_if_stack in Ep as [st ->]. by exists st.
    - intros [= Ht]. apply (Hend walk1); [by right|done]. }
  intros [= Ht]. apply (Hend walk); [by left|done].
Qed.

(** C4. In a token attempt the criteria are re-initialised exactly when the
    token is an end token met at the end of the input or at a semicolon: the
    world and the subcommand output are then what cmd_criteria_init returns
    for those the transition left; in every other handled attempt (an end
    token at a comma included) the globals are those the transition left,
    and a token that is not handled leaves them alone.  Over a whole call
    the resets are the one at entry and one for each handled token that is
    an end token at the terminator or at a semicolon, hence at most one per
    semicolon and one for the end of the input; and of two calls that
    handle the same tokens at the same cursors, on inputs that differ in
    one character which is a comma in one and a semicolon in the other and
    which an end token reads, the one with the comma makes exactly one
    reset fewer. *)
Theorem criteria_reset_at_end_and_semicolon_only
    (input : cstr) (token : cmdp_token) (walk : nat) (g : globals W)
    (was_handled : bool) (walk1 : nat) (g1 : globals W) :
  try_token' input token walk g = Ret (was_handled, walk1, g1) ->
  (exists tr, g_trace g1 = g_trace g ++ tr /\
     criteria_inits tr = if resets_at input token walk then 1 else 0) /\
  (tk_name token = lit "end" -> peek input walk = comma ->
     was_handled = true /\ walk1 = S walk /\ g1 = next_state' token g) /\
  (tk_name token = lit "end" -> peek input walk = NUL \/ peek input walk = semicolon ->
     was_handled = true /\ walk1 = S walk /\
     g_world g1 =
       (cmd_criteria_init (g_world (next_state' token g))
          (g_subcommand_output (next_state' token g))).1 /\
     g_subcommand_output g1 =
       (cmd_criteria_init (g_world (next_state' token g))
          (g_subcommand_output (next_state' token g))).2 /\
     g_state g1 = g_state (next_state' token g) /\
     g_stack g1 = g_stack (next_state' token g) /\
     g_command_output g1 = g_command_output (next_state' token g) /\
     g_trace g1 = g_trace (next_state' token g) ++ [ev_criteria_init]) /\
  (resets_at input token walk = false ->
     if was_handled then exists st, g1 = next_state' token (set_stack W st g)
     else g1 = g) /\
  (forall fuel0 input0 gen client g0 res final,
     parse_command' fuel0 input0 gen client g0 = Ret (res, final) ->
     exists tr, g_trace final = g_trace g0 ++ tr /\
       criteria_inits tr =
       1 + length (filter (resets input0) (handled_in_call' fuel0 input0 gen client g0)) /\
       (wf_cstr input0 -> criteria_inits tr <= 2 + semicolons input0)) /\
  (forall fuel0 pre post gen client g0 res_c final_c res_s final_s,
     parse_command' fuel0 (pre ++ [comma] ++ post) gen client g0 = Ret (res_c, final_c) ->
     parse_command' fuel0 (pre ++ [semicolon] ++ post) gen client g0 = Ret (res_s, final_s) ->
     handled_in_call' fuel0 (pre ++ [comma] ++ post) gen client g0 =
     handled_in_call' fuel0 (pre ++ [semicolon] ++ post) gen client g0 ->
     (exists t, tk_name t = lit "end" /\
        (t, length pre) ∈ handled_in_call' fuel0 (pre ++ [comma] ++ post) gen client g0) ->
     exists tr_c tr_s,
       g_trace final_c = g_trace g0 ++ tr_c /\ g_trace final_s = g_trace g0 ++ tr_s /\
       criteria_inits tr_s = S (criteria_inits tr_c)).
Proof.
  intros Ht.
  assert (Hcall : forall fuel0 input0 gen client g0 res final,
     parse_command' fuel0 input0 gen client g0 = Ret (res, final) ->
     exists tr, g_trace final = g_trace g0 ++ tr /\
       criteria_inits tr =
       1 + length (filter (resets input0) (handled_in_call' fuel0 input0 gen client g0)) /\
       (wf_cstr input0 -> criteria_inits tr <= 2 + semicolons input0)).
  { intros fuel0 input0 gen client g0 res final Hrun.
    rewrite parse_command_entry in Hrun.
    destruct (parse_loop' fuel0 input0 0 _ _) as [[res1 g1']| |] eqn:El; simpl in Hrun;
      [|done|done].
    injection Hrun as <- <-.
    pose proof El as El'.
    apply parse_loop_reset_count in El as (tr & (T & _) & Hc).
    destruct (delta_y W g1' yajl_array_close) as (trc & (Tc & _) & Hcc & _).
    pose proof (loop_entry_trace gen client g0) as Te.
    set (entry := match gen with Some _ => [ev_yajl yajl_array_open] | None => [] end
                  ++ [ev_criteria_init]) in Te.
    assert (Hentry : criteria_inits entry = 1) by (unfold entry; by destruct gen).
    exists (entry ++ tr ++ trc).
    split; [|split].
    - rewrite Tc, T, Te. by rewrite <- !app_assoc.
    - rewrite (criteria_inits_app entry), (criteria_inits_app tr), Hcc, Hc, Hentry.
      unfold handled_in_call. lia.
    - intros Hwf. apply parse_loop_resets in El' as (tr' & (T' & _) & Hc'); [|done].
      rewrite T in T'. apply app_inv_head in T'. subst tr'.
      rewrite (criteria_inits_app entry), (criteria_inits_app tr), Hcc, Hentry.
      rewrite drop_0 in Hc'. simpl in Hc'. lia. }
  split; [|split; [|split; [|split; [|split; [exact Hcall|]]]]].
  - destruct (try_token_spec _ _ _ _ _ _ _ _ _ _ _ _ Ht) as (tr & (T & _) & Hc & _).
    by exists tr.
  - intros Hn Hc. rewrite try_token_end, try_end_comma in Ht by done.
    by injection Ht as <- <- <-.
  - intros Hn Hc. rewrite try_token_end, try_end_reset in Ht by done.
    injection Ht as <- <- <-. split; [done|]. split; [done|].
    unfold call_criteria_init.
    destruct (cmd_criteria_init _ _) as [w sub]. done.
  - intros Hr. apply try_token_shape in Ht. rewrite Hr in Ht. exact Ht.
  - intros fuel0 pre post gen client g0 res_c final_c res_s final_s Hc Hs Hsame (t & Hn & Hin).
    destruct (Hcall _ _ _ _ _ _ _ Hc) as (tr_c & Tc & Cc & _).
    destruct (Hcall _ _ _ _ _ _ _ Hs) as (tr_s & Ts & Cs & _).
    exists tr_c, tr_s. split; [done|]. split; [done|].
    rewrite Cs, Cc, <- Hsame, resets_comma_semicolon.
    pose proof (handled_end_once (pre ++ [comma] ++ post) (length pre) fuel0 0
                  (loop_entry' gen client g0)) as Hmost.
    change (0 <=? length pre) with true in Hmost.
    assert (Hleast : 1 <= length (filter (end_at (length pre))
              (handled_in_call' fuel0 (pre ++ [comma] ++ post) gen client g0))).
    { apply (length_filter_elem _ (t, length pre)); [done|].
      unfold end_at. cbn [fst snd]. by rewrite Hn, Nat.eqb_refl. }
    unfold handled_in_call in *. lia.
Qed.

(** C10. A literal token is handled whenever its text equals, up to case,
    the text at the cursor, whatever follows that text; the cursor then
    stands right behind the text. *)
Theorem literal_matches_any_prefix
    (input : cstr) (walk : nat) (token : cmdp_token) (text rest : cstr) (g : globals W) :
  peek (tk_name token) 0 = squote ->
  drop walk input = text ++ rest ->
  map tolower text = map tolower (drop 1 (tk_name token)) ->
  match_literal input walk (tk_name token) = true /\
  try_token' input token walk g =
    (do g1 <- push_string_if W (tk_identifier token) (drop 1 (tk_name token)) g;
     Ret (true, walk + length text, next_state' token g1)) /\
  drop (walk + length text) input = rest.
Proof.
  intros Hq Hdrop Hmap.
  assert (Hlen : length text = length (tk_name token) - 1).
  { apply (f_equal length) in Hmap. by rewrite !length_map, length_drop in Hmap. }
  assert (Hm : match_literal input walk (tk_name token) = true).
  { unfold match_literal. rewrite <- (length_drop (tk_name token) 1).
    apply (strncasecmp_prefix text).
    - done.
    - by rewrite Hdrop, take_app_length.
    - by rewrite firstn_all.
    - apply (f_equal length) in Hdrop. rewrite length_drop, length_app in Hdrop. lia. }
  split; [done|]. split.
  - unfold try_token. rewrite Hq, Ascii.eqb_refl, Hm, Hlen. done.
  - by rewrite <- drop_drop, Hdrop, drop_app_length.
Qed.

(** The result of the loop is the one it was given, or that one with the
    error of some state. *)
Lemma parse_loop_result input result : forall fuel walk g res g',
  parse_loop' fuel input walk result g = Ret (res, g') ->
  res = result \/
  exists s, res = {| parse_error := true;
                     error_message := Some (errormessage (tokens s));
                     needs_tree_render := needs_tree_render result |}.
Proof.
  induction fuel as [|fuel IH]; intros walk g res g'; cbn [parse_loop].
  - destruct (length input <? walk); [|done]. intros [= <- <-]. by left.
  - destruct (length input <? walk); [intros [= <- <-]; by left|].
    destruct (try_tokens' input _ _ g) as [[[h w1] g1]| |] eqn:Et; cbn [bind]; [|done|done].
    destruct h; [apply IH|].
    pose proof (report_error_spec W tokens input w1 result g1) as [Hres _].
    destruct (report_error' input w1 result g1) as [res0 g0]. simpl in Hres.
    intros [= <- <-]. right. by exists (g_state g1).
Qed.

(** X17. When no token of the current state is handled, the loop stops with
    parse_error set and the message that lists the tokens of the state in
    table order, and it logs (and, with a generator, emits) a caret line as
    long as the input, with spaces before the cursor the failed attempts
    left and carets from there on; that cursor is the one at which the
    tokens were tried unless the character there is a double quote; any
    error that parse_command returns has this form. *)
Theorem no_match_reports_expected_tokens
    (fuel : nat) (input : cstr) (walk : nat) (result : CommandResult) (g : globals W)
    (walk1 : nat) (g1 : globals W) :
  walk <= length input ->
  try_tokens' input (tokens (g_state g))
    (scan_while (S (length input)) is_space input walk) g = Ret (false, walk1, g1) ->
  let msg := lit "Expected one of these tokens: " ++
             join [comma; space] (map render_token (tokens (g_state g))) in
  (exists g',
     parse_loop' (S fuel) input walk result g =
       Ret ({| parse_error := true; error_message := Some msg;
               needs_tree_render := needs_tree_render result |}, g') /\
     g_trace g' = g_trace g ++ error_events input msg (position input walk1) (gen_of g)) /\
  position input walk1 =
    replicate (Nat.min walk1 (length input)) space ++
    replicate (length input - walk1) caret /\
  length (position input walk1) = length input /\
  scan_while (S (length input)) is_space input walk <= walk1 <= length input /\
  (peek input (scan_while (S (length input)) is_space input walk) <> dquote ->
   walk1 = scan_while (S (length input)) is_space input walk) /\
  (forall token,
     render_token token =
     if Ascii.eqb (peek (tk_name token) 0) squote
     then [squote] ++ drop 1 (tk_name token) ++ [squote]
     else [langle] ++ tk_name token ++ [rangle]) /\
  (forall fuel0 gen client g0 res g',
     parse_command' fuel0 input gen client g0 = Ret (res, g') ->
     (parse_error res = false /\ error_message res = None) \/
     (parse_error res = true /\
      exists s, error_message res =
                Some (lit "Expected one of these tokens: " ++
                      join [comma; space] (map render_token (tokens s))))) /\
  (exists final,
     Demo.parse Demo.move_only "mve left" =
       Ret ({| parse_error := true;
               error_message := Some (lit "Expected one of these tokens: 'move'");
               needs_tree_render := false |}, final) /\
     In (ev_elog (lit "              " ++ lit "^^^^^^^^")) (g_trace final)).
Proof.
  intros Hwalk Ht msg.
  pose proof (try_tokens_fail_cursor _ _ _ _ _ _ Ht) as (_ & Hle & Hin & Hsame).
  pose proof (skip_space_le input walk Hwalk) as Hskip.
  split; [|split; [apply position_spec|split; [apply position_length|
    split; [split; [done|by apply Hin]|split; [done|split; [done|split]]]]]];
    cycle 2.
  { destruct mve_left_run as (g' & E & T & _). exists g'. split; [exact E|].
    rewrite T. right. right. right. left. reflexivity. }
  - destruct (try_tokens_spec _ _ _ _ _ _ _ _ _ _ _ _ Ht) as (tr & _ & _ & _ & _ & Hf & _).
    destruct (Hf eq_refl) as (-> & _).
    pose proof (report_error_spec W tokens input walk1 result g) as [Hres (T & _)].
    exists (report_error' input walk1 result g).2. split.
    + cbn [parse_loop]. destruct (Nat.ltb_spec (length input) walk); [lia|].
      rewrite Ht. cbn [bind].
      destruct (report_error' input walk1 result g) as [res0 g0]. simpl in *.
      rewrite Hres. unfold msg, errormessage. by rewrite possible_tokens_join.
    + rewrite T. unfold msg, errormessage. by rewrite possible_tokens_join.
  - intros fuel0 gen client g0 res g' Hrun.
    destruct (parse_command_unfold fuel0 input gen client g0)
      as (g_a & tr_a & _ & _ & _ & _ & _ & _ & Heq).
    rewrite Heq in Hrun.
    destruct (parse_loop' fuel0 input 0 _ g_a) as [[res1 g1']| |] eqn:El; simpl in Hrun;
      [|done|done].
    injection Hrun as <- <-. simpl.
    destruct (parse_loop_result _ _ _ _ _ _ _ El) as [->|(s & ->)]; simpl.
    + by left.
    + right. split; [done|]. exists s. unfold errormessage.
      by rewrite possible_tokens_join.
Qed.

Lemma dispatches_0_any_render tr : dispatches tr = 0 -> any_render tr = false.
Proof.
  induction tr as [|e tr IH]; [done|].
  unfold dispatches, any_render in *. simpl.
  destruct e; simpl; try done. 
Qed.

Lemma fails_on_empty_try token g :
  fails_on_empty token = true -> try_token' [] token 0 g = Ret (false, 0, g).
Proof.
  unfold fails_on_empty, try_token.
  destruct (Ascii.eqb (peek (tk_name token) 0) squote).
  - intros H. apply andb_true_iff in H as [Hlen Hnn]. apply Nat.leb_le in Hlen.
    unfold match_literal.
    destruct (length (tk_name token) - 1) as [|k] eqn:Ek; [lia|].
    cbn [strncasecmp]. rewrite peek_nil.
    change (tolower NUL) with NUL.
    destruct (Ascii.eqb_spec NUL (tolower (peek (tk_name token) 1))) as [E|]; [|done].
    symmetry in E. apply tolower_NUL in E. rewrite E in Hnn. done.
  - intros Hne. apply negb_true_iff in Hne.
    destruct (streq (tk_name token) (lit "number")); [done|].
    unfold try_end. rewrite Hne.
    destruct (_ || _); [|done].
    by destruct (negb _).
Qed.

Lemma fails_on_empty_try_tokens : forall pre rest g,
  forallb fails_on_empty pre = true ->
  try_tokens' [] (pre ++ rest) 0 g = try_tokens' [] rest 0 g.
Proof.
  induction pre as [|t pre IH]; intros rest g H; [done|].
  apply andb_true_iff in H as [Ht Hpre]. simpl.
  rewrite (fails_on_empty_try t g Ht). simpl. by apply IH.
Qed.

(** C6. On the empty input the loop body runs once: with an end token
    that is not a call as the first token of the initial state that can be
    handled there, parse_command reports success without a dispatch. *)
Theorem empty_input_succeeds
    (pre post : list cmdp_token) (e : cmdp_token) (fuel : nat)
    (gen : option yajl_gen) (client : option ipc_client) (g : globals W) :
  tokens INITIAL = pre ++ e :: post ->
  forallb fails_on_empty pre = true ->
  tk_name e = lit "end" ->
  tk_next_state e <> __CALL ->
  parse_command' 0 [] gen client g = OutOfFuel /\
  exists g' tr,
    parse_command' (S fuel) [] gen client g =
      Ret ({| parse_error := false; error_message := None; needs_tree_render := false |}, g') /\
    g_trace g' = g_trace g ++ tr /\ dispatches tr = 0 /\ criteria_inits tr = 2.
Proof.
  intros Htok Hpre Hname Hcall.
  split.
  { destruct (parse_command_unfold 0 [] gen client g)
      as (g_a & tr_a & _ & _ & _ & _ & _ & _ & Heq).
    by rewrite Heq. }
  destruct (parse_command_unfold (S fuel) [] gen client g)
    as (g_a & tr_a & Ht & Htr & Hflag & Hgen & Hst & _ & Heq).
  rewrite Heq. cbn [parse_loop length Nat.ltb Nat.leb].
  change (scan_while 1 is_space [] 0) with 0.
  rewrite Hst, Htok, fails_on_empty_try_tokens by done.
  cbn [try_tokens]. rewrite try_token_end, try_end_reset by (done || by left).
  cbn [bind].
  assert (Hloop : forall r g2, parse_loop' fuel [] 1 r g2 = Ret (r, g2)) by (by destruct fuel).
  rewrite Hloop. cbn [bind fst snd].
  destruct (delta_next_state W INITIAL __CALL GENERATED_call e g_a) as (tr & Hd & Hc & Hn).
  apply Nat.eqb_neq in Hcall. rewrite Hcall in Hn.
  pose proof (delta_trans _ _ _ _ _ _ Hd
                (delta_criteria_init W cmd_criteria_init (next_state' e g_a))) as Hd2.
  destruct (delta_y W (call_criteria_init' (next_state' e g_a)) yajl_array_close)
    as (trc & Hd3 & Hcc & Hnc & _).
  pose proof (delta_trans _ _ _ _ _ _ Hd2 Hd3) as (T & F & _).
  eexists. exists (tr_a ++ (tr ++ [ev_criteria_init]) ++ trc).
  split; [|split; [|split]].
  - f_equal. f_equal. rewrite F, Hflag, !any_render_app.
    rewrite (dispatches_0_any_render tr Hn), (dispatches_0_any_render trc Hnc). done.
  - rewrite T, Ht. by rewrite <- !app_assoc.
  - rewrite !dispatches_app, Hn, Hnc. subst tr_a. by destruct gen.
  - rewrite !criteria_inits_app, Hc, Hcc. subst tr_a. by destruct gen.
Qed.

(** With no empty literal in the table parse_command needs no more than
    [length input + 2] iterations: it returns, or the process exits on a
    full stack. *)
Theorem parse_command_terminates input gen client g :
  (forall s, forallb literal_nonempty (tokens s) = true) ->
  parse_command' (length input + 2) input gen client g <> OutOfFuel.
Proof.
  intros Hlit.
  destruct (parse_command_unfold (length input + 2) input gen client g)
    as (g_a & tr_a & _ & _ & _ & _ & _ & _ & Heq).
  rewrite Heq.
  pose proof (parse_loop_terminates W INITIAL __CALL tokens GENERATED_call cmd_criteria_init
                input {| parse_error := false; error_message := None;
                         needs_tree_render := false |}
                Hlit (length input + 2) 0 g_a ltac:(lia)) as H.
  by destruct (parse_loop' _ _ _ _ _).
Qed.

End DriverTheorems.

(** * The results at concrete inputs *)

Lemma move_workspace_run :
  exists res final,
    parse_command unit Demo.INITIAL Demo.CALL Demo.tokens Demo.GENERATED_call
      Demo.cmd_criteria_init 24 (lit "move left; workspace 4") None None Demo.g0
    = Ret (res, final) /\
    needs_tree_render res = true /\ dispatches (g_trace final) = 2.
Proof. eexists _, _. split; [vm_compute; reflexivity|]. split; reflexivity. Qed.

Lemma needs_tree_render_is_or_of_dispatches_witness :
  exists res final,
    parse_command unit Demo.INITIAL Demo.CALL Demo.tokens Demo.GENERATED_call
      Demo.cmd_criteria_init 24 (lit "move left; workspace 4") None None Demo.g0
    = Ret (res, final) /\
    needs_tree_render res = true /\
    exists tr, g_trace final = g_trace Demo.g0 ++ tr /\ needs_tree_render res = any_render tr.
Proof.
  destruct move_workspace_run as (res & final & E & Hr & _).
  exists res, final. split; [exact E|]. split; [exact Hr|].
  exact (proj1 (needs_tree_render_is_or_of_dispatches _ _ _ _ _ _ _ _ _ _ _ _ _ E)).
Defined.

Lemma end_at_semicolon_attempt :
  exists final,
    try_token unit Demo.INITIAL Demo.CALL Demo.GENERATED_call Demo.cmd_criteria_init
      (lit "left; move right") (Demo.tok "end" None Demo.CALL 1) 4 Demo.g0
    = Ret (true, 5, final).
Proof. eexists. vm_compute. reflexivity. Qed.

Lemma criteria_reset_at_end_and_semicolon_only_witness :
  exists final tr,
    try_token unit Demo.INITIAL Demo.CALL Demo.GENERATED_call Demo.cmd_criteria_init
      (lit "left; move right") (Demo.tok "end" None Demo.CALL 1) 4 Demo.g0
    = Ret (true, 5, final) /\
    g_trace final = g_trace Demo.g0 ++ tr /\
    criteria_inits tr =
      (if resets_at (lit "left; move right") (Demo.tok "end" None Demo.CALL 1) 4
       then 1 else 0) /\
    exists res_c final_c res_s final_s tr_c tr_s,
      parse_command unit Demo.INITIAL Demo.CALL Demo.tokens Demo.GENERATED_call
        Demo.cmd_criteria_init 23 (lit "move left" ++ [comma] ++ lit " move right")
        None None Demo.g0 = Ret (res_c, final_c) /\
      parse_command unit Demo.INITIAL Demo.CALL Demo.tokens Demo.GENERATED_call
        Demo.cmd_criteria_init 23 (lit "move left" ++ [semicolon] ++ lit " move right")
        None None Demo.g0 = Ret (res_s, final_s) /\
      g_trace final_c = g_trace Demo.g0 ++ tr_c /\
      g_trace final_s = g_trace Demo.g0 ++ tr_s /\
      criteria_inits tr_s = S (criteria_inits tr_c).
Proof.
  destruct end_at_semicolon_attempt as (final & E).
  destruct (criteria_reset_at_end_and_semicolon_only unit Demo.INITIAL Demo.CALL Demo.tokens
              Demo.GENERATED_call Demo.cmd_criteria_init _ _ _ _ _ _ _ E)
    as ((tr & T & C) & _ & _ & _ & _ & Hhence).
  exists final, tr. split; [exact E|]. split; [exact T|]. split; [exact C|].
  destruct comma_semicolon_calls as (res_c & final_c & res_s & final_s & Ec & Es & _).
  destruct comma_semicolon_handled as (Hsame & Hend).
  destruct (Hhence 23 (lit "move left") (lit " move right") None None Demo.g0
              res_c final_c res_s final_s Ec Es Hsame Hend) as (tr_c & tr_s & Tc & Ts & Hone).
  exists res_c, final_c, res_s, final_s, tr_c, tr_s.
  split; [exact Ec|]. split; [exact Es|]. split; [exact Tc|]. split; [exact Ts|exact Hone].
Defined.

Lemma moveleft_prefix :
  peek (tk_name (Demo.tok "'move" None Demo.MOVE 0)) 0 = squote /\
  drop 0 (lit "moveleft") = lit "move" ++ lit "left" /\
  map tolower (lit "move") = map tolower (drop 1 (tk_name (Demo.tok "'move" None Demo.MOVE 0))).
Proof. repeat split. Qed.

Lemma literal_matches_any_prefix_witness :
  match_literal (lit "moveleft") 0 (lit "'move") = true /\
  try_token unit Demo.INITIAL Demo.CALL Demo.GENERATED_call Demo.cmd_criteria_init
    (lit "moveleft") (Demo.tok "'move" None Demo.MOVE 0) 0 Demo.g0
  = Ret (true, 0 + length (lit "move"),
         next_state unit Demo.INITIAL Demo.CALL Demo.GENERATED_call
           (Demo.tok "'move" None Demo.MOVE 0) Demo.g0) /\
  drop (0 + length (lit "move")) (lit "moveleft") = lit "left".
Proof.
  destruct moveleft_prefix as (H1 & H2 & H3).
  exact (literal_matches_any_prefix unit Demo.INITIAL Demo.CALL
           Demo.GENERATED_call Demo.cmd_criteria_init
           (lit "moveleft") 0 (Demo.tok "'move" None Demo.MOVE 0)
           (lit "move") (lit "left") Demo.g0 H1 H2 H3).
Defined.

Lemma mve_left_no_match :
  0 <= length (lit "mve left") /\
  try_tokens unit Demo.INITIAL Demo.CALL Demo.GENERATED_call Demo.cmd_criteria_init
    (lit "mve left") (Demo.move_only (g_state Demo.g0))
    (scan_while (S (length (lit "mve left"))) is_space (lit "mve left") 0) Demo.g0
  = Ret (false, 0, Demo.g0).
Proof. split; [apply Nat.le_0_l|]. vm_compute. reflexivity. Qed.

Lemma no_match_reports_expected_tokens_witness :
  exists final,
    parse_loop unit Demo.INITIAL Demo.CALL Demo.move_only Demo.GENERATED_call
      Demo.cmd_criteria_init 1 (lit "mve left") 0
      {| parse_error := false; error_message := None; needs_tree_render := false |} Demo.g0 =
    Ret ({| parse_error := true;
            error_message :=
              Some (lit "Expected one of these tokens: " ++
                    join [comma; space] (map render_token (Demo.move_only (g_state Demo.g0))));
            needs_tree_render := false |}, final).
Proof.
  destruct mve_left_no_match as (H1 & H2).
  destruct (no_match_reports_expected_tokens unit Demo.INITIAL Demo.CALL Demo.move_only
              Demo.GENERATED_call Demo.cmd_criteria_init 0 (lit "mve left") 0
              {| parse_error := false; error_message := None; needs_tree_render := false |}
              Demo.g0 0 Demo.g0 H1 H2) as ((final & Hrun & _) & _).
  exists final. exact Hrun.
Defined.

Lemma demo_initial_tokens :
  Demo.tokens Demo.INITIAL =
    [] ++ Demo.tok "end" None Demo.INITIAL 0 :: skipn 1 (Demo.tokens Demo.INITIAL) /\
  forallb fails_on_empty [] = true /\
  tk_name (Demo.tok "end" None Demo.INITIAL 0) = lit "end" /\
  tk_next_state (Demo.tok "end" None Demo.INITIAL 0) <> Demo.CALL.
Proof. repeat split. discriminate. Qed.

Lemma empty_input_succeeds_witness :
  exists final tr,
    parse_command unit Demo.INITIAL Demo.CALL Demo.tokens Demo.GENERATED_call
      Demo.cmd_criteria_init 1 [] None None Demo.g0 =
      Ret ({| parse_error := false; error_message := None; needs_tree_render := false |}, final) /\
    g_trace final = g_trace Demo.g0 ++ tr /\ dispatches tr = 0 /\ criteria_inits tr = 2.
Proof.
  destruct demo_initial_tokens as (H1 & H2 & H3 & H4).
  destruct (empty_input_succeeds unit Demo.INITIAL Demo.CALL Demo.tokens
              Demo.GENERATED_call Demo.cmd_criteria_init
              [] (skipn 1 (Demo.tokens Demo.INITIAL)) (Demo.tok "end" None Demo.INITIAL 0)
              0 None None Demo.g0 H1 H2 H3 H4) as (_ & final & tr & H).
  exists final, tr. exact H.
Defined.

(** C5. The caret line starts at the cursor the failed attempts left, not at
    the offset at which the tokens were tried.  In the exec state an empty
    quoted value is tried at offset 5, the string attempt gives up behind the
    opening quote, and the line logged has six spaces and one caret where the
    offset of the failure asks for five spaces and two carets. *)
Theorem caret_line_misses_failed_quote :
  exists final,
    parse_command unit Demo.INITIAL Demo.CALL Demo.tokens Demo.GENERATED_call
      Demo.cmd_criteria_init 9 (lit "exec " ++ [dquote; dquote]) None None Demo.g0 =
      Ret ({| parse_error := true;
              error_message :=
                Some (lit "Expected one of these tokens: '--no-startup-id', <string>");
              needs_tree_render := false |}, final) /\
    handled_in_call unit Demo.INITIAL Demo.CALL Demo.tokens Demo.GENERATED_call
      Demo.cmd_criteria_init 9 (lit "exec " ++ [dquote; dquote]) None None Demo.g0 =
      [(Demo.tok "'exec" None Demo.EXEC 0, 0)] /\
    scan_while (S (length (lit "exec " ++ [dquote; dquote]))) is_space
      (lit "exec " ++ [dquote; dquote]) 4 = 5 /\
    (forall g,
       try_tokens unit Demo.INITIAL Demo.CALL Demo.GENERATED_call Demo.cmd_criteria_init
         (lit "exec " ++ [dquote; dquote]) (Demo.tokens Demo.EXEC) 5 g = Ret (false, 6, g)) /\
    g_trace final =
      [ev_criteria_init;
       ev_elog (lit "Expected one of these tokens: '--no-startup-id', <string>");
       ev_elog (lit "Your command: exec " ++ [dquote; dquote]);
       ev_elog (lit "              " ++ replicate 6 space ++ [caret])] /\
    position (lit "exec " ++ [dquote; dquote]) 5 = replicate 5 space ++ replicate 2 caret /\
    position (lit "exec " ++ [dquote; dquote]) 6 <> position (lit "exec " ++ [dquote; dquote]) 5.
Proof.
  eexists. split; [vm_compute; reflexivity|].
  split; [vm_compute; reflexivity|]. split; [reflexivity|].
  split; [intros g; reflexivity|]. split; [reflexivity|]. split; [reflexivity|].
  discriminate.
Qed.

(** * Further properties of the argument stack: lookups *)

(** X1. After a clear and a sequence of pushes, a lookup finds the value of
    the first push made under the name: [get_string] returns its string,
    [get_long] its number, and a name that was not pushed gives NULL and 0. *)
Theorem lookup_finds_first_push (st st' : stack) (ops : list push_op) (identifier : cstr) :
  stack_wf st ->
  run_pushes ops (clear_stack st) = Ret st' ->
  (forall i str, first_op identifier ops = Some (PushString i str) ->
     get_string st' identifier = str_is (Some str)) /\
  (forall i num, first_op identifier ops = Some (PushLong i num) ->
     get_long st' identifier = num_is num) /\
  (first_op identifier ops = None ->
     get_string st' identifier = str_is None /\ get_long st' identifier = num_is 0).
Proof.
  intros Hwf Hrun. rewrite run_pushes_after_clear in Hrun by done.
  destruct (Nat.leb_spec (length ops) STACK_SIZE) as [Hle|]; [|done].
  injection Hrun as <-.
  assert (Hget : get_loop STACK_SIZE 0 identifier
                   (map op_entry ops ++ drop (length ops) (clear_stack st)) =
                 (fun op => se_val (op_entry op)) <$> first_op identifier ops).
  { apply (get_loop_packed identifier _
             (Forall_drop _ _ _ (clear_stack_all_free st Hwf)) ops STACK_SIZE [] Hle). }
  unfold get_string, get_long. rewrite Hget.
  split; [|split].
  - by intros i str ->.
  - by intros i num ->.
  - by intros ->.
Qed.

Lemma lookup_finds_first_push_witness :
  exists st',
    run_pushes [PushString (lit "way") (lit "grow"); PushLong (lit "px") 10;
                PushLong (lit "px") 20] (clear_stack empty_stack) = Ret st' /\
    get_string st' (lit "way") = str_is (Some (lit "grow")) /\
    get_long st' (lit "px") = num_is 10 /\
    get_string st' (lit "ppt") = str_is None /\ get_long st' (lit "ppt") = num_is 0.
Proof.
  eexists. split; [reflexivity|].
  pose proof (fun i => lookup_finds_first_push empty_stack _
                [PushString (lit "way") (lit "grow"); PushLong (lit "px") 10;
                 PushLong (lit "px") 20] i eq_refl eq_refl) as H.
  split; [exact (proj1 (H (lit "way")) _ _ eq_refl)|].
  split; [exact (proj1 (proj2 (H (lit "px"))) _ _ eq_refl)|].
  exact (proj2 (proj2 (H (lit "ppt"))) eq_refl).
Defined.

(** X2. A sequence of pushes after a clear ends the process exactly when it
    is longer than the ten slots; otherwise it leaves the pushed entries in
    the first slots, in push order, and the other slots free. *)
Theorem pushes_exit_iff_more_than_ten (st : stack) (ops : list push_op) :
  stack_wf st ->
  (run_pushes ops (clear_stack st) = Exit <-> STACK_SIZE < length ops) /\
  (length ops <= STACK_SIZE ->
   exists tail,
     run_pushes ops (clear_stack st) = Ret (map op_entry ops ++ tail) /\
     length tail = STACK_SIZE - length ops /\
     Forall (fun e => se_identifier e = None) tail).
Proof.
  intros Hwf. rewrite run_pushes_after_clear by done.
  destruct (Nat.leb_spec (length ops) STACK_SIZE) as [Hle|Hgt].
  - split; [split; [done|lia]|]. intros _.
    exists (drop (length ops) (clear_stack st)). split; [done|]. split.
    + by rewrite length_drop, (clear_stack_wf st Hwf).
    + apply Forall_drop. by apply clear_stack_all_free.
  - split; [split; [lia|done]|]. lia.
Qed.

Lemma pushes_exit_iff_more_than_ten_witness :
  run_pushes (replicate 11 (PushLong (lit "n") 1)) (clear_stack empty_stack) = Exit.
Proof.
  apply (pushes_exit_iff_more_than_ten empty_stack (replicate 11 (PushLong (lit "n") 1))).
  - reflexivity.
  - unfold STACK_SIZE. simpl. lia.
Defined.

(** * Further properties of the sub-lexers *)

Section Decoding.

Implicit Types (s l : list ascii) (c d : ascii).

Lemma unescape_cons2 c d l :
  unescape (c :: d :: l) =
  if escape_at (c :: d :: l) 0 then d :: unescape l else c :: unescape (d :: l).
Proof. by rewrite escape_at_cons. Qed.

(** The decoded text is made of characters of the text, is not longer,
    and is empty only for the empty text. *)
Lemma unescape_facts (P : ascii -> Prop) l :
  length (unescape l) <= length l /\
  (l <> [] -> unescape l <> []) /\
  (Forall P l -> Forall P (unescape l)).
Proof.
  induction l as [l IH] using (induction_ltof1 _ (@length ascii)). unfold ltof in IH.
  destruct l as [|c [|d l]].
  - done.
  - split; [done|]. split; [done|]. done.
  - rewrite unescape_cons2. destruct (escape_at _ 0).
    + destruct (IH l ltac:(simpl; lia)) as (Hlen & _ & HP).
      split; [simpl in *; lia|]. split; [done|].
      intros H. inversion H as [|? ? _ H']. inversion H' as [|? ? Hd Hl].
      constructor; [done|by apply HP].
    + destruct (IH (d :: l) ltac:(simpl; lia)) as (Hlen & _ & HP).
      split; [simpl in *; lia|]. split; [done|].
      intros H. inversion H as [|? ? Hc H']. constructor; [done|by apply HP].
Qed.

Lemma unescape_escape s : unescape (escape s) = s.
Proof.
  induction s as [|c s IH]; [done|]. cbn [escape].
  destruct (Ascii.eqb c dquote || Ascii.eqb c backslash) eqn:E.
  - rewrite unescape_pair; [by rewrite IH|].
    by rewrite escape_at_cons, Ascii.eqb_refl, E.
  - rewrite unescape_keep; [by rewrite IH|].
    unfold escape_at. rewrite peek_cons_0.
    apply orb_false_iff in E as [_ E]. by rewrite E.
Qed.

Lemma quoted_len_escape s rest :
  wf_cstr s -> quoted_len (escape s ++ dquote :: rest) = length (escape s).
Proof.
  induction 1 as [|c s Hc _ IH]; [done|]. cbn [escape].
  apply Ascii.eqb_neq in Hc.
  destruct (Ascii.eqb c dquote) eqn:Eq; simpl.
  - rewrite Hc. by rewrite IH.
  - destruct (Ascii.eqb c backslash) eqn:Eb; simpl.
    + rewrite Hc. by rewrite IH.
    + rewrite Hc, Eq, Eb. simpl. by rewrite IH.
Qed.

End Decoding.

(** X3. Whatever parse_string returns is a non-empty string without
    0-bytes, no longer than the text the cursor passed over, and the cursor
    has moved forward and stays within the input. *)
Theorem capture_nonempty_and_bounded (s : cstr) (walk : nat) (as_word : bool)
    (str : cstr) (walk' : nat) :
  parse_string s walk as_word = (Some str, walk') ->
  str <> [] /\ Forall (fun c => c <> NUL) str /\
  length str <= walk' - walk /\ walk < walk' <= length s.
Proof.
  destruct (decide (peek s walk = dquote)) as [Hq|Hq].
  - rewrite parse_string_quoted by done.
    pose proof (quoted_len_le (drop (S walk) s)) as Hle.
    pose proof (quoted_len_nonnul (drop (S walk) s)) as Hnn.
    rewrite length_drop in Hle.
    destruct (Nat.eqb_spec (quoted_len (drop (S walk) s)) 0) as [|Hn]; [done|].
    intros [= <- <-]. unfold slice.
    replace (S (walk + quoted_len (drop (S walk) s)) - S walk)
      with (quoted_len (drop (S walk) s)) by lia.
    set (txt := take (quoted_len (drop (S walk) s)) (drop (S walk) s)) in *.
    assert (Hlen : length txt = quoted_len (drop (S walk) s)).
    { unfold txt. rewrite length_take, length_drop. lia. }
    destruct (unescape_facts (fun c => c <> NUL) txt) as (H1 & H2 & H3).
    split; [apply H2; intros E; rewrite E in Hlen; simpl in Hlen; lia|].
    split; [by apply H3|]. lia.
  - rewrite parse_string_unquoted by done.
    set (p := if as_word then word_char else string_char).
    assert (Hp : p NUL = false) by (by destruct as_word).
    pose proof (scan_while_spec p s Hp (S (length s)) walk ltac:(lia)) as H.
    cbv zeta in H. destruct H as (H1 & H2 & H3 & _).
    set (r := scan_while (S (length s)) p s walk) in *.
    destruct (Nat.eqb_spec r walk) as [|Hne]; [done|].
    intros [= <- <-]. unfold slice.
    set (txt := take (r - walk) (drop walk s)).
    assert (Hr : r <= length s) by (apply H2; lia).
    assert (Hlen : length txt = r - walk).
    { unfold txt. rewrite length_take, length_drop. lia. }
    destruct (unescape_facts (fun c => c <> NUL) txt) as (Hl & Hne' & HP).
    split; [apply Hne'; intros E; rewrite E in Hlen; simpl in Hlen; lia|].
    split; [|lia]. apply HP.
    apply Forall_forall. intros c Hc.
    apply list_elem_of_lookup in Hc as (i & Hi).
    pose proof (lookup_lt_Some _ _ _ Hi) as Hlt. rewrite Hlen in Hlt.
    unfold txt in Hi. rewrite lookup_take_lt, lookup_drop in Hi by lia.
    specialize (H3 (walk + i) ltac:(lia)). unfold peek in H3. rewrite Hi in H3.
    simpl in H3. intros ->. congruence.
Qed.

Lemma capture_nonempty_and_bounded_witness :
  parse_string Demo.quoted_sample 0 true = (Some Demo.quoted_sample_capture, 10) /\
  Demo.quoted_sample_capture <> [] /\
  length Demo.quoted_sample_capture <= 10 - 0.
Proof.
  split; [reflexivity|].
  destruct (capture_nonempty_and_bounded Demo.quoted_sample 0 true
              Demo.quoted_sample_capture 10 eq_refl) as (H1 & _ & H2 & _).
  split; [exact H1|exact H2].
Defined.

(** X4. An unquoted capture never contains a delimiter of its mode, and the
    cursor is left on one: no comma, semicolon or line end in string mode, and
    in word mode no space, tab or closing bracket either. *)
Theorem unquoted_capture_has_no_delimiter (s : cstr) (walk : nat) (as_word : bool)
    (str : cstr) (walk' : nat) :
  peek s walk <> dquote ->
  parse_string s walk as_word = (Some str, walk') ->
  Forall (fun c => (if as_word then word_char c else string_char c) = true) str /\
  (if as_word then word_char (peek s walk') else string_char (peek s walk')) = false /\
  (comma ∉ str) /\ (semicolon ∉ str) /\ (CR ∉ str) /\ (LF ∉ str) /\
  (as_word = true -> (space ∉ str) /\ (tab ∉ str) /\ (rbracket ∉ str)).
Proof.
  intros Hq. rewrite parse_string_unquoted by done.
  set (p := if as_word then word_char else string_char).
  assert (Hp : p NUL = false) by (by destruct as_word).
  pose proof (scan_while_spec p s Hp (S (length s)) walk ltac:(lia)) as H.
  cbv zeta in H. destruct H as (H1 & H2 & H3 & H4).
  set (r := scan_while (S (length s)) p s walk) in *.
  destruct (Nat.eqb_spec r walk) as [|Hne]; [done|].
  intros [= <- <-].
  assert (Hr : r <= length s) by (apply H2; lia).
  assert (Hall : Forall (fun c => p c = true) (unescape (slice s walk r))).
  { apply unescape_facts. unfold slice.
    apply Forall_forall. intros c Hc.
    apply list_elem_of_lookup in Hc as (i & Hi).
    pose proof (lookup_lt_Some _ _ _ Hi) as Hlt.
    rewrite length_take, length_drop in Hlt.
    rewrite lookup_take_lt, lookup_drop in Hi by lia.
    specialize (H3 (walk + i) ltac:(lia)). unfold peek in H3. by rewrite Hi in H3. }
  assert (Hnot : forall c, p c = false -> c ∉ unescape (slice s walk r)).
  { intros c Hc Hin. rewrite Forall_forall in Hall. specialize (Hall c Hin). congruence. }
  split; [by destruct as_word|]. split; [by destruct as_word|].
  do 4 (split; [apply Hnot; by destruct as_word|]).
  intros Hw. unfold p in Hnot. rewrite Hw in Hnot.
  split; [by apply Hnot|]. split; by apply Hnot.
Qed.

Lemma unquoted_capture_has_no_delimiter_witness :
  parse_string Demo.unquoted_plain_sample 0 false
    = (Some (slice Demo.unquoted_plain_sample 0 10), 10) /\
  (comma ∉ slice Demo.unquoted_plain_sample 0 10) /\
  string_char (peek Demo.unquoted_plain_sample 10) = false.
Proof.
  split; [reflexivity|].
  destruct (unquoted_capture_has_no_delimiter Demo.unquoted_plain_sample 0 false
              (slice Demo.unquoted_plain_sample 0 10) 10) as (_ & H2 & H3 & _).
  - discriminate.
  - reflexivity.
  - split; [exact H3|exact H2].
Defined.

(** Where a text written by [quote] stands in the input. *)
Lemma quote_layout (pre s rest : cstr) :
  peek (pre ++ quote s ++ rest) (length pre) = dquote /\
  drop (S (length pre)) (pre ++ quote s ++ rest) = escape s ++ dquote :: rest.
Proof.
  unfold quote. split.
  - unfold peek. by rewrite lookup_app_r, Nat.sub_diag by lia.
  - rewrite <- !app_assoc. simpl.
    replace (S (length pre)) with (length pre + 1) by lia.
    rewrite <- drop_drop, drop_app_length. done.
Qed.

Lemma escape_nonempty (s : cstr) : s <> [] -> length (escape s) <> 0.
Proof.
  destruct s as [|c s]; [done|]. intros _. simpl. destruct (_ || _); discriminate.
Qed.

(** X5. Quoting round trip: every non-empty text without 0-bytes, written
    between double quotes with a backslash before each double quote and each
    backslash, is read back unchanged by parse_string in either mode, whatever
    stands before and after it, and the cursor is left on the closing quote. *)
Theorem quoted_round_trip (pre s rest : cstr) (as_word : bool) :
  s <> [] -> wf_cstr s ->
  parse_string (pre ++ quote s ++ rest) (length pre) as_word =
    (Some s, length pre + 1 + length (escape s)) /\
  peek (pre ++ quote s ++ rest) (length pre + 1 + length (escape s)) = dquote.
Proof.
  intros Hne Hwf.
  destruct (quote_layout pre s rest) as [Hq Hdrop].
  set (input := pre ++ quote s ++ rest) in *.
  split.
  - rewrite parse_string_quoted by done. rewrite Hdrop, quoted_len_escape by done.
    destruct (Nat.eqb_spec (length (escape s)) 0) as [E|_];
      [by apply escape_nonempty in E|].
    unfold slice. rewrite Hdrop.
    replace (S (length pre) + length (escape s) - S (length pre))
      with (length (escape s)) by lia.
    rewrite take_app_length, unescape_escape. do 2 f_equal. lia.
  - replace (length pre + 1 + length (escape s))
      with (S (length pre) + length (escape s)) by lia.
    rewrite <- peek_drop, Hdrop. unfold peek.
    by rewrite lookup_app_r, Nat.sub_diag by lia.
Qed.

Lemma quoted_round_trip_witness :
  parse_string (lit "title " ++ quote Demo.unquoted_escape_sample ++ lit "]") 6 true =
    (Some Demo.unquoted_escape_sample,
     6 + 1 + length (escape Demo.unquoted_escape_sample)).
Proof.
  refine (proj1 (quoted_round_trip (lit "title ") Demo.unquoted_escape_sample (lit "]")
                   true _ _)).
  - discriminate.
  - unfold wf_cstr. repeat (constructor; [discriminate|]). constructor.
Defined.

Section LiteralAndNumber.

Implicit Types (s : list ascii) (c d : ascii).

(** A successful comparison against a pattern without 0-bytes has seen as
    many characters of the text as the pattern has. *)
Lemma strncasecmp_true_inv : forall n s1 i1 s2 i2,
  n <= length (drop i2 s2) ->
  Forall (fun c => c <> NUL) (take n (drop i2 s2)) ->
  strncasecmp s1 i1 s2 i2 n = true ->
  n <= length (drop i1 s1) /\
  map tolower (take n (drop i1 s1)) = map tolower (take n (drop i2 s2)).
Proof.
  induction n as [|n IH]; intros s1 i1 s2 i2 Hlen Hnn; [split; [lia|done]|].
  cbn [strncasecmp].
  destruct (drop_peek s2 i2) as [[E2 _]|[E2 _]]; rewrite E2 in Hlen, Hnn;
    [simpl in Hlen; lia|].
  simpl in Hlen, Hnn. inversion Hnn as [|? ? Hd Hnn']. subst.
  destruct (Ascii.eqb_spec (tolower (peek s1 i1)) (tolower (peek s2 i2))) as [Heq|]; [|done].
  destruct (Ascii.eqb_spec (tolower (peek s1 i1)) NUL) as [E0|Hne].
  { rewrite Heq in E0. by apply tolower_NUL in E0. }
  intros Hrec. apply IH in Hrec as [Hl Hm]; [|lia|done].
  destruct (drop_peek s1 i1) as [[_ E1]|[E1 _]].
  { rewrite E1 in Hne. done. }
  rewrite E1, E2. simpl. split; [lia|]. by rewrite Heq, Hm.
Qed.

Lemma scan_while_run (p : ascii -> bool) s : forall run walk fuel rest,
  drop walk s = run ++ rest ->
  Forall (fun c => p c = true) run ->
  p (peek s (walk + length run)) = false ->
  length run < fuel ->
  scan_while fuel p s walk = walk + length run.
Proof.
  induction run as [|c run IH]; intros walk fuel rest Hdrop Hall Hstop Hfuel.
  - simpl in *. rewrite Nat.add_0_r in *. destruct fuel as [|fuel]; [lia|].
    simpl. by rewrite Hstop.
  - destruct fuel as [|fuel]; [simpl in Hfuel; lia|].
    destruct (drop_peek s walk) as [[E _]|[E _]]; rewrite E in Hdrop; [done|].
    injection Hdrop as Hc Hdrop. inversion Hall as [|? ? Hpc Hall' [Ea Eb]].
    rewrite <- Hc in Hpc. cbn [scan_while]. rewrite Hpc.
    rewrite (IH (S walk) fuel rest); [simpl; lia|done|done| |simpl in Hfuel; lia].
    by replace (S walk + length run) with (walk + length (c :: run)) by (simpl; lia).
Qed.

End LiteralAndNumber.

(** X6. A literal whose name is a C string is matched exactly by the texts
    that equal it up to the case of letters: the test succeeds if and only if
    the input at the cursor starts with such a text. *)
Theorem literal_match_iff (input : cstr) (walk : nat) (name : cstr) :
  wf_cstr name ->
  match_literal input walk name = true <->
  exists text rest,
    drop walk input = text ++ rest /\
    map tolower text = map tolower (drop 1 name).
Proof.
  intros Hwf. unfold match_literal. split.
  - intros Hm. apply strncasecmp_true_inv in Hm as [Hlen Hmap].
    + exists (take (length name - 1) (drop walk input)),
             (drop (length name - 1) (drop walk input)).
      split; [by rewrite take_drop|].
      rewrite Hmap. f_equal. apply take_ge. rewrite length_drop. lia.
    + rewrite length_drop. lia.
    + apply Forall_take, Forall_drop. exact Hwf.
  - intros (text & rest & Hdrop & Hmap).
    assert (Hlen : length text = length name - 1).
    { apply (f_equal length) in Hmap. by rewrite !length_map, length_drop in Hmap. }
    rewrite <- (length_drop name 1).
    apply (strncasecmp_prefix text).
    + done.
    + by rewrite Hdrop, take_app_length.
    + by rewrite firstn_all.
    + apply (f_equal length) in Hdrop. rewrite length_drop, length_app in Hdrop. lia.
Qed.

Lemma literal_match_iff_witness :
  match_literal (lit "Move LEFT") 5 (lit "'left") = true /\
  match_literal (lit "move lift") 5 (lit "'left") = false.
Proof.
  split.
  - apply (literal_match_iff (lit "Move LEFT") 5 (lit "'left")).
    + unfold wf_cstr. repeat (constructor; [discriminate|]). constructor.
    + exists (lit "LEFT"), []. split; reflexivity.
  - reflexivity.
Defined.

(** X7. A plain run of decimal digits at the cursor is taken as a number
    when its value fits a long, with the cursor left behind the last digit;
    a run whose value exceeds LONG_MAX is no match at all, it is not clamped. *)
Theorem digits_match_unless_overflow (input : cstr) (walk : nat) (run rest : cstr) :
  drop walk input = run ++ rest ->
  run <> [] ->
  Forall (fun c => isdigit c = true) run ->
  isdigit (peek input (walk + length run)) = false ->
  match_number input walk =
  if (LONG_MAX <? digits_val input walk (walk + length run))%Z
  then None
  else Some (digits_val input walk (walk + length run), walk + length run).
Proof.
  intros Hdrop Hne Hall Hstop.
  assert (Hlen : length run <= length input).
  { apply (f_equal length) in Hdrop. rewrite length_drop, length_app in Hdrop. lia. }
  destruct run as [|c run]; [done|]. inversion Hall as [|? ? Hc _]. subst.
  assert (Hpeek : peek input walk = c).
  { destruct (drop_peek input walk) as [[E _]|[E _]]; rewrite E in Hdrop; [done|].
    by injection Hdrop as ->. }
  assert (Hsp : isspace c = false).
  { destruct c as [[] [] [] [] [] [] [] []]; try done; discriminate Hc. }
  assert (Hsign : Ascii.eqb c "-"%char || Ascii.eqb c "+"%char = false).
  { destruct c as [[] [] [] [] [] [] [] []]; try done; discriminate Hc. }
  apply orb_false_iff in Hsign as [Hminus Hplus].
  unfold match_number, strtol.
  assert (E0 : scan_while (S (length input)) isspace input walk = walk).
  { simpl. by rewrite Hpeek, Hsp. }
  rewrite E0, Hpeek, Hminus, Hplus. cbn [orb].
  rewrite (scan_while_run isdigit input (c :: run) walk (S (length input)) rest)
    by (done || simpl in *; lia).
  destruct (Nat.eqb_spec (walk + length (c :: run)) walk) as [E|_]; [simpl in E; lia|].
  assert (Hpos : (0 <= digits_val input walk (walk + length (c :: run)))%Z).
  { unfold digits_val. replace (walk + length (c :: run) - walk) with (length (c :: run)) by lia.
    rewrite Hdrop, take_app_length.
    assert (Hgen : forall l acc, Forall (fun c => isdigit c = true) l -> (0 <= acc)%Z ->
              (0 <= fold_left (fun acc c => acc * 10 + digit_val c) l acc)%Z).
    { induction l as [|d l IHl]; intros acc Hl Hacc; [done|].
      inversion Hl as [|? ? Hd Hl']. subst. simpl. apply IHl; [done|].
      assert (0 <= digit_val d)%Z; [|lia].
      unfold digit_val. unfold isdigit in Hd. apply andb_true_iff in Hd as [Hd _].
      apply Nat.leb_le in Hd. lia. }
    by apply Hgen. }
  set (v := digits_val input walk (walk + length (c :: run))) in *.
  destruct (Z.ltb_spec LONG_MAX v) as [Hbig|Hfit]; cbn [st_num st_end st_erange].
  - done.
  - destruct (Z.ltb_spec v LONG_MIN) as [Hneg|_]; [unfold LONG_MIN in Hneg; lia|].
    cbn [st_num st_end st_erange andb orb].
    destruct (Nat.eqb_spec (walk + length (c :: run)) walk) as [E|_]; [simpl in E; lia|done].
Qed.

Lemma digits_match_unless_overflow_witness :
  match_number (lit "workspace 42; x") 10 = Some (42%Z, 12) /\
  match_number (lit "9223372036854775808") 0 = None.
Proof.
  split.
  - exact (digits_match_unless_overflow (lit "workspace 42; x") 10 (lit "42") (lit "; x")
             eq_refl ltac:(discriminate)
             ltac:(repeat (constructor; [reflexivity|]); constructor) eq_refl).
  - exact (digits_match_unless_overflow (lit "9223372036854775808") 0
             (lit "9223372036854775808") [] eq_refl ltac:(discriminate)
             ltac:(repeat (constructor; [reflexivity|]); constructor) eq_refl).
Defined.

(** * Further properties of the driver *)

Section DriverRuns.

Variable W : Type.
Variables INITIAL __CALL : cmdp_state.
Variable tokens : cmdp_state -> list cmdp_token.
Variable GENERATED_call : W -> stack -> nat -> CommandResultIR -> W * CommandResultIR.
Variable cmd_criteria_init : W -> CommandResultIR -> W * CommandResultIR.

Local Abbreviation next_state' := (next_state W INITIAL __CALL GENERATED_call).
Local Abbreviation call_criteria_init' := (call_criteria_init W cmd_criteria_init).
Local Abbreviation try_end' := (try_end W INITIAL __CALL GENERATED_call cmd_criteria_init).
Local Abbreviation try_token' := (try_token W INITIAL __CALL GENERATED_call cmd_criteria_init).
Local Abbreviation try_tokens' := (try_tokens W INITIAL __CALL GENERATED_call cmd_criteria_init).
Local Abbreviation report_error' := (report_error W tokens).
Local Abbreviation parse_loop' :=
  (parse_loop W INITIAL __CALL tokens GENERATED_call cmd_criteria_init).
Local Abbreviation parse_command' :=
  (parse_command W INITIAL __CALL tokens GENERATED_call cmd_criteria_init).

Implicit Types (g : globals W) (input : list ascii) (token : cmdp_token).

Lemma next_state_stays token g :
  tk_next_state token <> __CALL ->
  g_state (next_state' token g) = tk_next_state token.
Proof.
  intros Hc. apply Nat.eqb_neq in Hc. unfold next_state. rewrite Hc.
  by destruct (_ =? INITIAL).
Qed.

(** X8. With no empty literal in the table the loop of parse_command ends
    after at most [length input + 2] iterations, whatever the input, the
    table and the handlers are: the call returns a result, or the process
    exits on a full stack. *)
Theorem enough_fuel_always_returns
    (fuel : nat) (input : cstr) (gen : option yajl_gen) (client : option ipc_client)
    (g : globals W) :
  (forall s, forallb literal_nonempty (tokens s) = true) ->
  length input + 2 <= fuel ->
  parse_command' fuel input gen client g <> OutOfFuel.
Proof.
  intros Hlit Hfuel.
  destruct (parse_command_unfold W INITIAL __CALL tokens GENERATED_call cmd_criteria_init
              fuel input gen client g) as (g_a & tr_a & _ & _ & _ & _ & _ & _ & Heq).
  rewrite Heq.
  pose proof (parse_loop_terminates W INITIAL __CALL tokens GENERATED_call cmd_criteria_init
                input {| parse_error := false; error_message := None;
                         needs_tree_render := false |}
                Hlit fuel 0 g_a ltac:(lia)) as H.
  by destruct (parse_loop' _ _ _ _ _).
Qed.

(** X9. An empty literal without identifier that leads back to its own
    state stops all progress: once the driver is in that state with this
    token first, the loop never ends, and when the state is the initial one
    no call of parse_command returns. *)
Theorem empty_literal_loops_forever
    (s : cmdp_state) (e : cmdp_token) (post : list cmdp_token) (input : cstr) :
  tokens s = e :: post ->
  tk_name e = [squote] ->
  tk_identifier e = None ->
  tk_next_state e = s ->
  s <> __CALL ->
  (forall fuel walk result g,
     g_state g = s -> walk <= length input ->
     parse_loop' fuel input walk result g = OutOfFuel) /\
  (s = INITIAL ->
   forall fuel gen client g, parse_command' fuel input gen client g = OutOfFuel).
Proof.
  intros Htok Hname Hid Hnext Hcall.
  assert (Hloop : forall fuel walk result g,
            g_state g = s -> walk <= length input ->
            parse_loop' fuel input walk result g = OutOfFuel).
  { induction fuel as [|fuel IH]; intros walk result g Hs Hw; cbn [parse_loop].
    - destruct (Nat.ltb_spec (length input) walk); [lia|done].
    - destruct (Nat.ltb_spec (length input) walk); [lia|].
      pose proof (skip_space_le input walk Hw) as Hle.
      rewrite Hs, Htok. cbn [try_tokens]. unfold try_token.
      rewrite Hname, Hid. cbn [peek lookup list_lookup default].
      rewrite Ascii.eqb_refl. unfold match_literal. cbn [length Nat.sub strncasecmp].
      cbn [push_string_if bind]. apply IH.
      + rewrite next_state_stays by (by rewrite Hnext). done.
      + lia. }
  split; [exact Hloop|].
  intros Hs fuel gen client g.
  destruct (parse_command_unfold W INITIAL __CALL tokens GENERATED_call cmd_criteria_init
              fuel input gen client g) as (g_a & tr_a & _ & _ & _ & _ & Hst & _ & Heq).
  rewrite Heq, Hloop; [done| by rewrite Hst |lia].
Qed.

End DriverRuns.

Lemma demo_loop_table :
  DemoLoop.tokens 1 = {| tk_name := [squote]; tk_identifier := None;
                         tk_next_state := 1; tk_call_identifier := 0 |}
                      :: [Demo.tok "end" None 1 0] /\
  1 <> 99.
Proof. split; [reflexivity|discriminate]. Qed.

Lemma empty_literal_loops_forever_witness :
  parse_command unit 1 99 DemoLoop.tokens Demo.GENERATED_call Demo.cmd_criteria_init
    1000 (lit "x") None None Demo.g0 = OutOfFuel.
Proof.
  destruct demo_loop_table as [Htok Hne].
  exact (proj2 (empty_literal_loops_forever unit 1 99 DemoLoop.tokens
                  Demo.GENERATED_call Demo.cmd_criteria_init 1 _ _ (lit "x")
                  Htok eq_refl eq_refl eq_refl Hne) eq_refl 1000 None None Demo.g0).
Defined.

Lemma demo_literals_nonempty : forall s, forallb literal_nonempty (Demo.tokens s) = true.
Proof. intros s. do 6 (destruct s as [|s]; [reflexivity|]). reflexivity. Qed.

Lemma enough_fuel_always_returns_witness :
  parse_command unit Demo.INITIAL Demo.CALL Demo.tokens Demo.GENERATED_call
    Demo.cmd_criteria_init 40 (lit "move left, move up") None None Demo.g0 <> OutOfFuel.
Proof.
  apply (enough_fuel_always_returns unit Demo.INITIAL Demo.CALL Demo.tokens
           Demo.GENERATED_call Demo.cmd_criteria_init 40 (lit "move left, move up")
           None None Demo.g0 demo_literals_nonempty).
  simpl. lia.
Defined.

Section DriverState.

Variable W : Type.
Variables INITIAL __CALL : cmdp_state.
Variable tokens : cmdp_state -> list cmdp_token.
Variable GENERATED_call : W -> stack -> nat -> CommandResultIR -> W * CommandResultIR.
Variable cmd_criteria_init : W -> CommandResultIR -> W * CommandResultIR.

Local Abbreviation next_state' := (next_state W INITIAL __CALL GENERATED_call).
Local Abbreviation call_criteria_init' := (call_criteria_init W cmd_criteria_init).
Local Abbreviation try_end' := (try_end W INITIAL __CALL GENERATED_call cmd_criteria_init).
Local Abbreviation try_token' := (try_token W INITIAL __CALL GENERATED_call cmd_criteria_init).
Local Abbreviation try_tokens' := (try_tokens W INITIAL __CALL GENERATED_call cmd_criteria_init).
Local Abbreviation report_error' := (report_error W tokens).
Local Abbreviation parse_loop' :=
  (parse_loop W INITIAL __CALL tokens GENERATED_call cmd_criteria_init).
Local Abbreviation parse_command' :=
  (parse_command W INITIAL __CALL tokens GENERATED_call cmd_criteria_init).

Implicit Types (g : globals W) (input : list ascii) (token : cmdp_token).

(** ** The stack keeps its ten slots *)

Lemma next_state_wf token g :
  stack_wf (g_stack g) -> stack_wf (g_stack (next_state' token g)).
Proof.
  intros Hwf. unfold next_state. destruct (_ =? __CALL).
  - destruct (GENERATED_call _ _ _ _) as [w sub].
    destruct (ir_needs_tree_render sub); simpl; by apply clear_stack_wf.
  - destruct (_ =? INITIAL); simpl; [by apply clear_stack_wf|done].
Qed.

Lemma push_string_if_wf i str g g1 :
  push_string_if W i str g = Ret g1 -> stack_wf (g_stack g) -> stack_wf (g_stack g1).
Proof.
  unfold push_string_if. destruct i as [i|]; [|by intros [= <-]].
  destruct (push_string (g_stack g) i str) as [st'| |] eqn:E; simpl; [|done|done].
  intros [= <-] Hwf. simpl. exact (run_push_wf _ (PushString i str) _ Hwf E).
Qed.

Lemma push_long_if_wf i num g g1 :
  push_long_if W i num g = Ret g1 -> stack_wf (g_stack g) -> stack_wf (g_stack g1).
Proof.
  unfold push_long_if. destruct i as [i|]; [|by intros [= <-]].
  destruct (push_long (g_stack g) i num) as [st'| |] eqn:E; simpl; [|done|done].
  intros [= <-] Hwf. simpl. exact (run_push_wf _ (PushLong i num) _ Hwf E).
Qed.

Lemma call_criteria_init_stack g :
  g_stack (call_criteria_init' g) = g_stack g /\
  g_state (call_criteria_init' g) = g_state g.
Proof. unfold call_criteria_init. by destruct (cmd_criteria_init _ _). Qed.

Lemma try_end_wf input token walk g :
  stack_wf (g_stack g) -> stack_wf (g_stack (try_end' input token walk g).2).
Proof.
  intros Hwf. unfold try_end. destruct (streq _ _); [|done].
  destruct (is_terminator _); [|done]. simpl.
  destruct (_ || _).
  - rewrite (proj1 (call_criteria_init_stack _)). by apply next_state_wf.
  - by apply next_state_wf.
Qed.

Lemma try_token_wf input token walk g h w1 g1 :
  try_token' input token walk g = Ret (h, w1, g1) ->
  stack_wf (g_stack g) -> stack_wf (g_stack g1).
Proof.
  unfold try_token. intros Ht Hwf.
  destruct (Ascii.eqb _ squote).
  { destruct (match_literal _ _ _); [|by injection Ht as <- <- <-].
    destruct (push_string_if W _ _ g) as [g'| |] eqn:Ep; simpl in Ht; [|done|done].
    injection Ht as <- <- <-. apply next_state_wf. by eapply push_string_if_wf. }
  destruct (streq _ (lit "number")).
  { destruct (match_number _ _) as [[num e]|]; [|by injection Ht as <- <- <-].
    destruct (push_long_if W _ _ g) as [g'| |] eqn:Ep; simpl in Ht; [|done|done].
    injection Ht as <- <- <-. apply next_state_wf. by eapply push_long_if_wf. }
  destruct (_ || _).
  { destruct (parse_string _ _ _) as [[str|] walk1].
    - destruct (push_string_if W _ _ g) as [g'| |] eqn:Ep; simpl in Ht; [|done|done].
      injection Ht as <- <- <-. apply next_state_wf. by eapply push_string_if_wf.
    - injection Ht as Ht. pose proof (try_end_wf input token walk1 g Hwf) as H.
      by rewrite Ht in H. }
  injection Ht as Ht. pose proof (try_end_wf input token walk g Hwf) as H.
  by rewrite Ht in H.
Qed.

Lemma try_tokens_wf input : forall toks walk g h w1 g1,
  try_tokens' input toks walk g = Ret (h, w1, g1) ->
  stack_wf (g_stack g) -> stack_wf (g_stack g1).
Proof.
  induction toks as [|token toks IH]; intros walk g h w1 g1; simpl.
  - by intros [= <- <- <-].
  - destruct (try_token' input token walk g) as [[[h0 w0] g0]| |] eqn:Et; simpl; [|done|done].
    intros Hrest Hwf. pose proof (try_token_wf _ _ _ _ _ _ _ Et Hwf) as Hwf0.
    destruct h0; [by injection Hrest as <- <- <-|]. by eapply IH.
Qed.

Lemma y_state c g :
  g_state (y W c g) = g_state g /\ g_stack (y W c g) = g_stack g.
Proof. unfold y. by destruct (ir_json_gen _). Qed.

Lemma report_error_state input walk result g :
  g_state (report_error' input walk result g).2 = g_state g /\
  g_stack (report_error' input walk result g).2 = clear_stack (g_stack g).
Proof.
  unfold report_error, ystr, ELOG. cbv zeta. cbn [snd set_stack g_state g_stack].
  repeat rewrite (proj1 (y_state _ _)). repeat rewrite (proj2 (y_state _ _)). done.
Qed.

(** What the loop leaves behind. *)
Lemma parse_loop_state input result : forall fuel walk g res g',
  parse_loop' fuel input walk result g = Ret (res, g') ->
  stack_wf (g_stack g) ->
  stack_wf (g_stack g') /\
  (res = result \/
   (res = {| parse_error := true;
             error_message := Some (errormessage (tokens (g_state g')));
             needs_tree_render := needs_tree_render result |} /\
    names (g_stack g') = [])).
Proof.
  induction fuel as [|fuel IH]; intros walk g res g'; cbn [parse_loop].
  - destruct (length input <? walk); [|done]. intros [= <- <-] Hwf. split; [done|by left].
  - destruct (length input <? walk); [intros [= <- <-] Hwf; split; [done|by left]|].
    destruct (try_tokens' input _ _ g) as [[[h w1] g1]| |] eqn:Et; cbn [bind]; [|done|done].
    intros Hrun Hwf. pose proof (try_tokens_wf _ _ _ _ _ _ _ Et Hwf) as Hwf1.
    destruct h; [by eapply IH|].
    destruct (try_tokens_spec _ _ _ _ _ _ _ _ _ _ _ _ Et) as (tr & _ & _ & _ & _ & Hf & _).
    destruct (Hf eq_refl) as (-> & _).
    pose proof (report_error_spec W tokens input w1 result g) as [Hres _].
    pose proof (report_error_state input w1 result g) as [Hst Hstk].
    destruct (report_error' input w1 result g) as [res0 g0]. simpl in *.
    injection Hrun as <- <-. rewrite Hstk. split; [by apply clear_stack_wf|].
    right. rewrite Hst. split; [done|]. by apply clear_stack_names.
Qed.

(** X10. A call that reports a parse error returns with the argument stack
    empty, and its message lists the tokens of the state the parser is left
    in; in every case the stack still has its ten slots. *)
Theorem error_leaves_stack_empty
    (fuel : nat) (input : cstr) (gen : option yajl_gen) (client : option ipc_client)
    (g : globals W) (res : CommandResult) (g' : globals W) :
  stack_wf (g_stack g) ->
  parse_command' fuel input gen client g = Ret (res, g') ->
  stack_wf (g_stack g') /\
  (parse_error res = true ->
   names (g_stack g') = [] /\
   (forall identifier, get_string (g_stack g') identifier = str_is None) /\
   error_message res = Some (errormessage (tokens (g_state g')))).
Proof.
  intros Hwf Hrun.
  destruct (parse_command_unfold W INITIAL __CALL tokens GENERATED_call cmd_criteria_init
              fuel input gen client g) as (g_a & tr_a & _ & _ & _ & _ & _ & Hstk & Heq).
  rewrite Heq in Hrun.
  destruct (parse_loop' fuel input 0 _ g_a) as [[res1 g1]| |] eqn:El; simpl in Hrun;
    [|done|done].
  injection Hrun as <- <-.
  rewrite <- Hstk in Hwf.
  destruct (parse_loop_state _ _ _ _ _ _ _ El Hwf) as [Hwf1 Hcase].
  rewrite (proj2 (y_state _ _)), (proj1 (y_state _ _)). split; [done|].
  simpl. intros Herr. destruct Hcase as [->|[-> Hn]]; [done|].
  split; [done|]. split; [|done].
  intros identifier. unfold get_string.
  destruct (g_stack g1) as [|e st]; [done|].
  unfold names in Hn. simpl in Hn.
  destruct (se_identifier e) eqn:Ei; [done|]. simpl. by rewrite Ei.
Qed.

End DriverState.

Lemma mve_left_command :
  exists res final,
    parse_command unit Demo.INITIAL Demo.CALL Demo.tokens Demo.GENERATED_call
      Demo.cmd_criteria_init 24 (lit "move left; move lft") None None Demo.g0
    = Ret (res, final) /\ parse_error res = true /\ dispatches (g_trace final) = 1.
Proof. eexists _, _. split; [vm_compute; reflexivity|]. split; reflexivity. Qed.

Lemma error_leaves_stack_empty_witness :
  exists res final,
    parse_command unit Demo.INITIAL Demo.CALL Demo.tokens Demo.GENERATED_call
      Demo.cmd_criteria_init 24 (lit "move left; move lft") None None Demo.g0
    = Ret (res, final) /\
    names (g_stack final) = [] /\
    error_message res = Some (errormessage (Demo.tokens (g_state final))).
Proof.
  destruct mve_left_command as (res & final & E & Herr & _).
  exists res, final. split; [exact E|].
  destruct (error_leaves_stack_empty unit Demo.INITIAL Demo.CALL Demo.tokens
              Demo.GENERATED_call Demo.cmd_criteria_init 24 (lit "move left; move lft")
              None None Demo.g0 res final eq_refl E)
    as (_ & H).
  destruct (H Herr) as (H1 & _ & H3). split; [exact H1|exact H3].
Defined.

Section DriverSuccess.

Variable W : Type.
Variables INITIAL __CALL : cmdp_state.
Variable tokens : cmdp_state -> list cmdp_token.
Variable GENERATED_call : W -> stack -> nat -> CommandResultIR -> W * CommandResultIR.
Variable cmd_criteria_init : W -> CommandResultIR -> W * CommandResultIR.

Local Abbreviation next_state' := (next_state W INITIAL __CALL GENERATED_call).
Local Abbreviation call_criteria_init' := (call_criteria_init W cmd_criteria_init).
Local Abbreviation try_end' := (try_end W INITIAL __CALL GENERATED_call cmd_criteria_init).
Local Abbreviation try_token' := (try_token W INITIAL __CALL GENERATED_call cmd_criteria_init).
Local Abbreviation try_tokens' := (try_tokens W INITIAL __CALL GENERATED_call cmd_criteria_init).
Local Abbreviation report_error' := (report_error W tokens).
Local Abbreviation parse_loop' :=
  (parse_loop W INITIAL __CALL tokens GENERATED_call cmd_criteria_init).
Local Abbreviation parse_command' :=
  (parse_command W INITIAL __CALL tokens GENERATED_call cmd_criteria_init).

Local Abbreviation handled' :=
  (handled W INITIAL __CALL tokens GENERATED_call cmd_criteria_init).
Local Abbreviation handled_in_call' :=
  (handled_in_call W INITIAL __CALL tokens GENERATED_call cmd_criteria_init).

Implicit Types (g : globals W) (input : list ascii) (token : cmdp_token).

Lemma peek_nonnul_lt (s : cstr) i : peek s i <> NUL -> i < length s.
Proof.
  intros H. destruct (decide (i < length s)); [done|].
  exfalso. apply H. apply peek_ge. lia.
Qed.

Lemma match_number_le input walk num e :
  match_number input walk = Some (num, e) -> e <= length input.
Proof.
  unfold match_number. destruct (_ || _); [done|].
  destruct (Nat.eqb_spec (st_end (strtol input walk)) walk) as [|Hne]; [done|].
  intros [= _ <-]. revert Hne. unfold strtol.
  set (i0 := scan_while _ isspace input walk).
  set (i := if _ || _ then S i0 else i0).
  destruct (scan_while_spec isdigit input eq_refl (S (length input)) i ltac:(lia))
    as (H1 & H2 & _).
  set (j := scan_while _ isdigit input i) in *.
  destruct (Nat.eqb_spec j i) as [|Hji]; [simpl; lia|].
  assert (j <= length input) by (apply H2; lia).
  destruct (_ <? _)%Z; [done|]. by destruct (_ <? _)%Z.
Qed.

Lemma parse_string_some_le (s : cstr) walk (as_word : bool) str walk' :
  parse_string s walk as_word = (Some str, walk') -> walk' <= length s.
Proof.
  destruct (decide (peek s walk = dquote)) as [Hq|Hq].
  - rewrite parse_string_quoted by done.
    pose proof (quoted_len_le (drop (S walk) s)) as Hle. rewrite length_drop in Hle.
    destruct (Nat.eqb_spec (quoted_len (drop (S walk) s)) 0); [done|].
    intros [= _ <-]. lia.
  - rewrite parse_string_unquoted by done.
    set (p := if as_word then word_char else string_char).
    assert (Hp : p NUL = false) by (by destruct as_word).
    destruct (scan_while_spec p s Hp (S (length s)) walk ltac:(lia)) as (H1 & H2 & _).
    set (r := scan_while (S (length s)) p s walk) in *.
    destruct (Nat.eqb_spec r walk); [done|]. intros [= _ <-]. apply H2. lia.
Qed.

(** A token attempt leaves the cursor within the input, unless it is an
    end token handled at the terminator. *)
Lemma try_token_bound input token walk g h w1 g1 :
  wf_cstr (tk_name token) -> walk <= length input ->
  try_token' input token walk g = Ret (h, w1, g1) ->
  w1 <= length input \/
  (h = true /\ tk_name token = lit "end" /\ walk = length input /\ w1 = S walk /\
   g1 = call_criteria_init' (next_state' token g)).
Proof.
  intros Hwf Hw. unfold try_token.
  destruct (Ascii.eqb _ squote).
  { destruct (match_literal input walk (tk_name token)) eqn:Em.
    - destruct (push_string_if W _ _ g) as [g'| |]; simpl; [|done|done].
      intros [= <- <- <-]. left. unfold match_literal in Em.
      apply strncasecmp_true_inv in Em as [Hlen _].
      + rewrite length_drop in Hlen. lia.
      + rewrite length_drop. lia.
      + by apply Forall_take, Forall_drop.
    - intros [= <- <- <-]. by left. }
  destruct (streq _ (lit "number")).
  { destruct (match_number input walk) as [[num e]|] eqn:Em.
    - destruct (push_long_if W _ _ g) as [g'| |]; simpl; [|done|done].
      intros [= <- <- <-]. left. by eapply match_number_le.
    - intros [= <- <- <-]. by left. }
  destruct (streq (tk_name token) (lit "string") || streq (tk_name token) (lit "word"))
    eqn:Estr.
  { assert (Hne : streq (tk_name token) (lit "end") = false).
    { destruct (streq _ (lit "end")) eqn:E; [|done]. apply streq_true in E.
      rewrite E in Estr. discriminate. }
    destruct (parse_string input walk _) as [[str|] walk1] eqn:Eps.
    - apply parse_string_some_le in Eps.
      destruct (push_string_if W _ _ g) as [g'| |]; simpl; [|done|done].
      intros [= <- <- <-]. left.
      destruct (Ascii.eqb_spec (peek input walk1) dquote) as [E|]; [|done].
      assert (peek input walk1 <> NUL) by (by rewrite E).
      by apply peek_nonnul_lt.
    - apply parse_string_none in Eps. unfold try_end. rewrite Hne.
      intros [= <- <- <-]. left.
      destruct Eps as [->|[-> Hq]]; [done|].
      assert (peek input walk <> NUL) by (by rewrite Hq).
      by apply peek_nonnul_lt. }
  unfold try_end.
  destruct (streq _ (lit "end")) eqn:En; [|intros [= <- <- <-]; by left].
  apply streq_true in En. unfold is_terminator.
  destruct (Ascii.eqb_spec (peek input walk) NUL) as [E0|N0]; simpl.
  { intros [= <- <- <-].
    destruct (decide (walk = length input)) as [->|]; [by right|left; lia]. }
  apply peek_nonnul_lt in N0.
  destruct (Ascii.eqb (peek input walk) comma || Ascii.eqb (peek input walk) semicolon);
    intros [= <- <- <-]; left; lia.
Qed.

(** A run of the loop that ends without an error ends behind an end token
    handled at the terminator. *)
Lemma parse_loop_success input result :
  wf_table tokens -> parse_error result = false ->
  forall fuel walk g res g',
    walk <= length input ->
    parse_loop' fuel input walk result g = Ret (res, g') ->
    parse_error res = false ->
    exists token tr,
      last (handled' fuel input walk g) = Some (token, length input) /\
      tk_name token = lit "end" /\
      g_trace g' = g_trace g ++ tr ++ [ev_criteria_init].
Proof.
  intros Htab Hres. induction fuel as [|fuel IH]; intros walk g res g' Hw; cbn [parse_loop].
  - destruct (Nat.ltb_spec (length input) walk); [lia|done].
  - destruct (Nat.ltb_spec (length input) walk); [lia|].
    pose proof (skip_space_le input walk Hw) as Hle.
    destruct (try_tokens' input _ _ g) as [[[h w1] g1]| |] eqn:Et; cbn [bind]; [|done|done].
    destruct h.
    + destruct (try_tokens_handler _ _ _ _ _ _ _ _ _ _ _ _ Et) as [_ Hsome].
      destruct (Hsome eq_refl) as (token & w & Eh & Hin & _ & Hlen & Hrun).
      specialize (Hlen Hle).
      assert (Hname : wf_cstr (tk_name token)).
      { pose proof (Htab (g_state g)) as Hall. rewrite Forall_forall in Hall.
        by apply Hall. }
      rewrite (handled_step _ _ _ _ _ _ _ _ _ _ _ _ _ _ Hw Eh Et).
      destruct (try_token_spec _ _ _ _ _ _ _ _ _ _ _ _ Hrun) as (tr1 & (T1 & _) & _).
      destruct (try_token_bound _ _ _ _ _ _ _ Hname Hlen Hrun)
        as [Hin1 | (_ & Hend & -> & -> & ->)].
      * intros Hrun' Hok.
        destruct (IH _ _ _ _ Hin1 Hrun' Hok) as (token' & tr & Hlast & Hn & T).
        exists token', (tr1 ++ tr). split; [by rewrite last_cons, Hlast|].
        split; [done|]. by rewrite T, T1, <- !app_assoc.
      * assert (Hret : parse_loop' fuel input (S (length input)) result
                         (call_criteria_init' (next_state' token g)) =
                       Ret (result, call_criteria_init' (next_state' token g))).
        { destruct fuel; cbn [parse_loop];
            by destruct (Nat.ltb_spec (length input) (S (length input))); [|lia]. }
        rewrite Hret. intros [= <- <-] _.
        rewrite handled_past by lia.
        destruct (delta_next_state W INITIAL __CALL GENERATED_call token g)
          as (tr & (T & _) & _).
        destruct (delta_criteria_init W cmd_criteria_init (next_state' token g)) as (T' & _).
        exists token, tr. split; [done|]. split; [done|].
        by rewrite T', T, <- app_assoc.
    + destruct (try_tokens_fail_cursor _ _ _ _ _ _ _ _ _ _ _ Et) as (-> & _).
      pose proof (report_error_spec W tokens input w1 result g) as [Hr _].
      destruct (report_error' input w1 result g) as [res0 g0]. simpl in Hr.
      intros [= <- <-]. rewrite Hr. done.
Qed.

(** X11. With a table of C strings, a call that reports success has read
    the input to its end: the last token it handled is an end token tried
    at the terminator, and between the initialisation of the criteria at
    entry and the closing of the reply the last thing it did was to
    re-initialise them. *)
Theorem success_ends_with_reset
    (fuel : nat) (input : cstr) (gen : option yajl_gen) (client : option ipc_client)
    (g : globals W) (res : CommandResult) (g' : globals W) :
  wf_table tokens ->
  parse_command' fuel input gen client g = Ret (res, g') ->
  parse_error res = false ->
  exists token tr,
    last (handled_in_call' fuel input gen client g) = Some (token, length input) /\
    tk_name token = lit "end" /\
    g_trace g' =
    g_trace g ++
    match gen with Some _ => [ev_yajl yajl_array_open] | None => [] end ++
    [ev_criteria_init] ++ tr ++ [ev_criteria_init] ++
    match gen with Some _ => [ev_yajl yajl_array_close] | None => [] end.
Proof.
  intros Htab Hrun Hok.
  rewrite parse_command_entry in Hrun.
  destruct (parse_loop' fuel input 0 _ _) as [[res1 g1]| |] eqn:El; simpl in Hrun;
    [|done|done].
  injection Hrun as <- <-. simpl in Hok.
  pose proof El as Hd. apply parse_loop_delta in Hd as (trl & (_ & _ & G) & _).
  apply parse_loop_success in El as (token & tr & Hlast & Hn & T); [|done|done|lia|done].
  destruct (delta_y W g1 yajl_array_close) as (trc & (Tc & _) & _ & _ & Hc).
  exists token, tr. split; [exact Hlast|]. split; [done|].
  rewrite Tc, T, loop_entry_trace, Hc, G, loop_entry_gen. by rewrite <- !app_assoc.
Qed.

End DriverSuccess.

Lemma demo_table_wf : wf_table Demo.tokens.
Proof.
  intros s. do 6 (destruct s as [|s];
    [repeat (constructor; [unfold wf_cstr; repeat (constructor; [discriminate|]); constructor|]);
     constructor|]).
  constructor.
Qed.

Lemma workspace_command :
  exists res final,
    parse_command unit Demo.INITIAL Demo.CALL Demo.tokens Demo.GENERATED_call
      Demo.cmd_criteria_init 13 (lit "workspace 4") (Some 7) None Demo.g0
    = Ret (res, final) /\ parse_error res = false.
Proof. eexists _, _. split; [vm_compute; reflexivity|reflexivity]. Qed.

Lemma success_ends_with_reset_witness :
  exists res final token tr,
    parse_command unit Demo.INITIAL Demo.CALL Demo.tokens Demo.GENERATED_call
      Demo.cmd_criteria_init 13 (lit "workspace 4") (Some 7) None Demo.g0
    = Ret (res, final) /\
    last (handled_in_call unit Demo.INITIAL Demo.CALL Demo.tokens Demo.GENERATED_call
            Demo.cmd_criteria_init 13 (lit "workspace 4") (Some 7) None Demo.g0)
    = Some (token, length (lit "workspace 4")) /\
    tk_name token = lit "end" /\
    g_trace final =
      g_trace Demo.g0 ++ [ev_yajl yajl_array_open] ++ [ev_criteria_init] ++ tr ++
      [ev_criteria_init] ++ [ev_yajl yajl_array_close].
Proof.
  destruct workspace_command as (res & final & E & Hok).
  destruct (success_ends_with_reset unit Demo.INITIAL Demo.CALL Demo.tokens
              Demo.GENERATED_call Demo.cmd_criteria_init 13 (lit "workspace 4")
              (Some 7) None Demo.g0 res final demo_table_wf E Hok)
    as (token & tr & Hlast & Hn & T).
  exists res, final, token, tr.
  split; [exact E|]. split; [exact Hlast|]. split; [exact Hn|exact T].
Defined.

Section DriverReply.

Variable W : Type.
Variables INITIAL __CALL : cmdp_state.
Variable tokens : cmdp_state -> list cmdp_token.
Variable GENERATED_call : W -> stack -> nat -> CommandResultIR -> W * CommandResultIR.
Variable cmd_criteria_init : W -> CommandResultIR -> W * CommandResultIR.

Local Abbreviation next_state' := (next_state W INITIAL __CALL GENERATED_call).
Local Abbreviation call_criteria_init' := (call_criteria_init W cmd_criteria_init).
Local Abbreviation try_end' := (try_end W INITIAL __CALL GENERATED_call cmd_criteria_init).
Local Abbreviation try_token' := (try_token W INITIAL __CALL GENERATED_call cmd_criteria_init).
Local Abbreviation try_tokens' := (try_tokens W INITIAL __CALL GENERATED_call cmd_criteria_init).
Local Abbreviation report_error' := (report_error W tokens).
Local Abbreviation parse_loop' :=
  (parse_loop W INITIAL __CALL tokens GENERATED_call cmd_criteria_init).
Local Abbreviation parse_command' :=
  (parse_command W INITIAL __CALL tokens GENERATED_call cmd_criteria_init).

Implicit Types (g : globals W) (input : list ascii) (token : cmdp_token).

Lemma yajl_calls_app tr1 tr2 : yajl_calls (tr1 ++ tr2) = yajl_calls tr1 ++ yajl_calls tr2.
Proof. apply omap_app. Qed.

Lemma quiet_refl g : quiet g g.
Proof. exists []. split; [apply delta_refl|done]. Qed.

Lemma quiet_trans g1 g2 g3 : quiet g1 g2 -> quiet g2 g3 -> quiet g1 g3.
Proof.
  intros (tr1 & H1 & Q1) (tr2 & H2 & Q2). exists (tr1 ++ tr2).
  split; [by eapply delta_trans|]. by rewrite yajl_calls_app, Q1, Q2.
Qed.

Lemma next_state_quiet token g : quiet g (next_state' token g).
Proof.
  unfold next_state. destruct (tk_next_state token =? __CALL).
  - destruct (GENERATED_call _ _ _ _) as [w sub'].
    exists [ev_call (tk_call_identifier token) (g_stack g)
              (ir_next_state sub') (ir_needs_tree_render sub')].
    split; [|done]. unfold delta, flag, gen_of.
    destruct (ir_needs_tree_render sub'); simpl.
    + by rewrite orb_true_r.
    + by rewrite orb_false_r.
  - exists []. split; [|done].
    destruct (_ =? INITIAL); [|apply delta_set_state].
    eapply (delta_trans _ _ _ _ [] []); [apply delta_set_state | apply delta_set_stack].
Qed.

Lemma criteria_init_quiet g : quiet g (call_criteria_init' g).
Proof. exists [ev_criteria_init]. split; [apply delta_criteria_init|done]. Qed.

Lemma try_end_quiet input token walk g : quiet g (try_end' input token walk g).2.
Proof.
  unfold try_end. destruct (streq _ _); [|apply quiet_refl].
  destruct (is_terminator _); [|apply quiet_refl]. simpl.
  destruct (_ || _).
  - eapply quiet_trans; [apply next_state_quiet | apply criteria_init_quiet].
  - apply next_state_quiet.
Qed.

Lemma try_token_quiet input token walk g h w1 g1 :
  try_token' input token walk g = Ret (h, w1, g1) -> quiet g g1.
Proof.
  unfold try_token. intros Ht.
  destruct (Ascii.eqb _ squote).
  { destruct (match_literal _ _ _); [|injection Ht as <- <- <-; apply quiet_refl].
    destruct (push_string_if W _ _ g) as [g'| |] eqn:Ep; simpl in Ht; [|done|done].
    injection Ht as <- <- <-. eapply quiet_trans; [|apply next_state_quiet].
    exists []. split; [by eapply push_string_if_delta|done]. }
  destruct (streq _ (lit "number")).
  { destruct (match_number _ _) as [[num e]|]; [|injection Ht as <- <- <-; apply quiet_refl].
    destruct (push_long_if W _ _ g) as [g'| |] eqn:Ep; simpl in Ht; [|done|done].
    injection Ht as <- <- <-. eapply quiet_trans; [|apply next_state_quiet].
    exists []. split; [by eapply push_long_if_delta|done]. }
  destruct (_ || _).
  { destruct (parse_string _ _ _) as [[str|] walk1].
    - destruct (push_string_if W _ _ g) as [g'| |] eqn:Ep; simpl in Ht; [|done|done].
      injection Ht as <- <- <-. eapply quiet_trans; [|apply next_state_quiet].
      exists []. split; [by eapply push_string_if_delta|done].
    - injection Ht as Ht. pose proof (try_end_quiet input token walk1 g) as H.
      by rewrite Ht in H. }
  injection Ht as Ht. pose proof (try_end_quiet input token walk g) as H.
  by rewrite Ht in H.
Qed.

Lemma try_tokens_quiet input : forall toks walk g h w1 g1,
  try_tokens' input toks walk g = Ret (h, w1, g1) -> quiet g g1.
Proof.
  induction toks as [|token toks IH]; intros walk g h w1 g1; simpl.
  - intros [= <- <- <-]. apply quiet_refl.
  - destruct (try_token' input token walk g) as [[[h0 w0] g0]| |] eqn:Et; simpl; [|done|done].
    apply try_token_quiet in Et.
    destruct h0; [by intros [= <- <- <-]|].
    intros Hrest. eapply quiet_trans; [exact Et|by eapply IH].
Qed.

Lemma yajl_calls_error_events input msg pos gen :
  yajl_calls (error_events input msg pos gen) =
  match gen with Some _ => failure_record msg input pos | None => [] end.
Proof. by destruct gen. Qed.

(** The calls to the generator made by a run of the loop: none, or the
    one failure record that ends it. *)
Lemma parse_loop_reply input result : forall fuel walk g res g',
  parse_loop' fuel input walk result g = Ret (res, g') ->
  exists tr record,
    delta g g' tr /\
    yajl_calls tr = match gen_of g with Some _ => record | None => [] end /\
    ((res = result /\ record = []) \/
     (exists msg pos,
        res = {| parse_error := true; error_message := Some msg;
                 needs_tree_render := needs_tree_render result |} /\
        length pos = length input /\
        record = failure_record msg input pos)).
Proof.
  induction fuel as [|fuel IH]; intros walk g res g'; cbn [parse_loop].
  - destruct (length input <? walk); [|done]. intros [= <- <-].
    exists [], []. split; [apply delta_refl|]. split; [by destruct (gen_of g)|by left].
  - destruct (length input <? walk).
    { intros [= <- <-].
      exists [], []. split; [apply delta_refl|]. split; [by destruct (gen_of g)|by left]. }
    destruct (try_tokens' input _ _ g) as [[[h w1] g1]| |] eqn:Et; cbn [bind]; [|done|done].
    pose proof (try_tokens_quiet _ _ _ _ _ _ _ Et) as (tr1 & Hd1 & Hq1).
    destruct h.
    + intros Hrun. destruct (IH _ _ _ _ Hrun) as (tr & record & Hd & Hy & Hcase).
      exists (tr1 ++ tr), record. split; [by eapply delta_trans|].
      rewrite yajl_calls_app, Hq1, Hy. destruct Hd1 as (_ & _ & ->). done.
    + destruct (try_tokens_spec _ _ _ _ _ _ _ _ _ _ _ _ Et) as (tr0 & _ & _ & _ & _ & Hf & _).
      destruct (Hf eq_refl) as (-> & _).
      pose proof (report_error_spec W tokens input w1 result g) as [Hr Hd].
      destruct (report_error' input w1 result g) as [res0 g0]. simpl in Hr, Hd.
      intros [= <- <-].
      exists (error_events input (errormessage (tokens (g_state g)))
                (position input w1) (gen_of g)),
             (failure_record (errormessage (tokens (g_state g))) input (position input w1)).
      split; [done|]. split; [apply yajl_calls_error_events|].
      right. exists (errormessage (tokens (g_state g))), (position input w1).
      split; [done|]. split; [apply position_length|done].
Qed.

(** X12. The reply written through the generator is one array: the
    opening, nothing or the single failure record whose error field is the
    returned message and whose position line is as long as the input, and
    the closing.  Without a generator the parser makes no call to it. *)
Theorem reply_is_one_array
    (fuel : nat) (input : cstr) (gen : option yajl_gen) (client : option ipc_client)
    (g : globals W) (res : CommandResult) (g' : globals W) :
  parse_command' fuel input gen client g = Ret (res, g') ->
  exists tr record,
    g_trace g' = g_trace g ++ tr /\
    yajl_calls tr =
      match gen with
      | Some _ => [yajl_array_open] ++ record ++ [yajl_array_close]
      | None => []
      end /\
    ((parse_error res = false /\ error_message res = None /\ record = []) \/
     (exists msg pos,
        parse_error res = true /\ error_message res = Some msg /\
        length pos = length input /\
        record = failure_record msg input pos)).
Proof.
  intros Hrun.
  destruct (parse_command_unfold W INITIAL __CALL tokens GENERATED_call cmd_criteria_init
              fuel input gen client g) as (g_a & tr_a & Ta & Htr & _ & Hgen & _ & _ & Heq).
  rewrite Heq in Hrun.
  destruct (parse_loop' fuel input 0 _ g_a) as [[res1 g1]| |] eqn:El; simpl in Hrun;
    [|done|done].
  injection Hrun as <- <-.
  apply parse_loop_reply in El as (tr & record & (T & _ & G) & Hy & Hcase).
  destruct (delta_y W g1 yajl_array_close) as (trc & (Tc & _) & _ & _ & Hc).
  exists (tr_a ++ tr ++ trc), record. split; [|split].
  - rewrite Tc, T, Ta. by rewrite <- !app_assoc.
  - rewrite !yajl_calls_app, Hy, Hc, G, Hgen, Htr. by destruct gen.
  - destruct Hcase as [[-> ->]|(msg & pos & -> & Hlen & ->)]; [by left|].
    right. by exists msg, pos.
Qed.

End DriverReply.

Lemma reply_is_one_array_witness :
  exists res final tr,
    parse_command unit Demo.INITIAL Demo.CALL Demo.tokens Demo.GENERATED_call
      Demo.cmd_criteria_init 13 (lit "workspace 4") (Some 7) None Demo.g0
    = Ret (res, final) /\
    g_trace final = g_trace Demo.g0 ++ tr /\
    exists record, yajl_calls tr = [yajl_array_open] ++ record ++ [yajl_array_close].
Proof.
  destruct workspace_command as (res & final & E & _).
  destruct (reply_is_one_array unit Demo.INITIAL Demo.CALL Demo.tokens
              Demo.GENERATED_call Demo.cmd_criteria_init 13 (lit "workspace 4")
              (Some 7) None Demo.g0 res final E) as (tr & record & T & Hy & _).
  exists res, final, tr. split; [exact E|]. split; [exact T|]. exists record. exact Hy.
Defined.

Section DriverSteps.

Variable W : Type.
Variables INITIAL __CALL : cmdp_state.
Variable tokens : cmdp_state -> list cmdp_token.
Variable GENERATED_call : W -> stack -> nat -> CommandResultIR -> W * CommandResultIR.
Variable cmd_criteria_init : W -> CommandResultIR -> W * CommandResultIR.

Local Abbreviation next_state' := (next_state W INITIAL __CALL GENERATED_call).
Local Abbreviation try_token' := (try_token W INITIAL __CALL GENERATED_call cmd_criteria_init).
Local Abbreviation try_tokens' := (try_tokens W INITIAL __CALL GENERATED_call cmd_criteria_init).
Local Abbreviation report_error' := (report_error W tokens).
Local Abbreviation parse_loop' :=
  (parse_loop W INITIAL __CALL tokens GENERATED_call cmd_criteria_init).
Local Abbreviation parse_command' :=
  (parse_command W INITIAL __CALL tokens GENERATED_call cmd_criteria_init).

Implicit Types (g : globals W) (input : list ascii) (token : cmdp_token).

(** X13. A quoted argument through the driver: for a string or word token
    and a non-empty text written with [quote] at the cursor, the text itself
    is pushed under the identifier of the token and the cursor is left
    behind the closing quote. *)
Theorem quoted_argument_is_captured
    (pre s rest : cstr) (token : cmdp_token) (g : globals W) :
  tk_name token = lit "string" \/ tk_name token = lit "word" ->
  s <> [] -> wf_cstr s ->
  try_token' (pre ++ quote s ++ rest) token (length pre) g =
    (do g1 <- push_string_if W (tk_identifier token) s g;
     Ret (true, length pre + length (quote s), next_state' token g1)).
Proof.
  intros Hname Hne Hwf.
  destruct (quote_layout pre s rest) as [Hopen Hdrop].
  set (input := pre ++ quote s ++ rest) in *.
  assert (Hp : forall as_word, parse_string input (length pre) as_word =
                 (Some s, length pre + 1 + length (escape s))).
  { intros as_word. rewrite parse_string_quoted by done.
    rewrite Hdrop, quoted_len_escape by done.
    destruct (Nat.eqb_spec (length (escape s)) 0) as [E|_];
      [by apply escape_nonempty in E|].
    unfold slice. rewrite Hdrop.
    replace (S (length pre) + length (escape s) - S (length pre))
      with (length (escape s)) by lia.
    rewrite take_app_length, unescape_escape. do 2 f_equal. lia. }
  assert (Hq : peek input (length pre + 1 + length (escape s)) = dquote).
  { replace (length pre + 1 + length (escape s))
      with (S (length pre) + length (escape s)) by lia.
    rewrite <- peek_drop, Hdrop. unfold peek.
    by rewrite lookup_app_r, Nat.sub_diag by lia. }
  unfold try_token.
  assert (Hlit : Ascii.eqb (peek (tk_name token) 0) squote = false)
    by (by destruct Hname as [-> | ->]).
  assert (Hnum : streq (tk_name token) (lit "number") = false)
    by (by destruct Hname as [-> | ->]).
  assert (Hstr : streq (tk_name token) (lit "string")
                 || streq (tk_name token) (lit "word") = true)
    by (by destruct Hname as [-> | ->]).
  rewrite Hlit, Hnum, Hstr, Hp, Hq, Ascii.eqb_refl.
  unfold quote. rewrite !length_app. simpl length.
  replace (S (length pre + 1 + length (escape s)))
    with (length pre + (1 + (length (escape s) + 1))) by lia.
  done.
Qed.

(** X14. After a transition that dispatches, or that leads to the initial
    state, the argument stack is empty and every lookup fails; any other
    transition leaves the stack as it is. *)
Theorem transition_clears_or_keeps_stack (token : cmdp_token) (g : globals W) :
  stack_wf (g_stack g) ->
  (tk_next_state token = __CALL \/ tk_next_state token = INITIAL ->
   names (g_stack (next_state' token g)) = [] /\
   forall identifier,
     get_string (g_stack (next_state' token g)) identifier = str_is None /\
     get_long (g_stack (next_state' token g)) identifier = num_is 0) /\
  (tk_next_state token <> __CALL -> tk_next_state token <> INITIAL ->
   g_stack (next_state' token g) = g_stack g /\
   g_state (next_state' token g) = tk_next_state token).
Proof.
  intros Hwf. split.
  - intros Hcase.
    assert (Hst : g_stack (next_state' token g) = clear_stack (g_stack g)).
    { unfold next_state. destruct (Nat.eqb_spec (tk_next_state token) __CALL) as [|Hn].
      - destruct (GENERATED_call _ _ _ _) as [w sub].
        by destruct (ir_needs_tree_render sub).
      - destruct Hcase as [|Hi]; [done|]. simpl. rewrite Hi, Nat.eqb_refl. done. }
    rewrite Hst. split; [by apply clear_stack_names|].
    intros identifier.
    pose proof (clear_stack_all_free _ Hwf) as Hfree.
    pose proof (clear_stack_wf _ Hwf) as Hlen.
    destruct (clear_stack (g_stack g)) as [|e st]; [done|].
    inversion Hfree as [|? ? He _]. unfold get_string, get_long. simpl. by rewrite He.
  - intros Hc Hi. apply Nat.eqb_neq in Hc, Hi. unfold next_state. rewrite Hc. simpl.
    by rewrite Hi.
Qed.

Lemma scan_while_fuel (p : ascii -> bool) (s : cstr) : p NUL = false ->
  forall f1 f2 w, length s < f1 + w -> length s < f2 + w ->
    scan_while f1 p s w = scan_while f2 p s w.
Proof.
  intros Hp. induction f1 as [|f1 IH]; intros f2 w H1 H2.
  - destruct f2 as [|f2]; [done|]. simpl. by rewrite peek_ge, Hp by lia.
  - destruct f2 as [|f2]; simpl.
    + by rewrite peek_ge, Hp by lia.
    + destruct (p (peek s w)) eqn:E; [|done].
      assert (w < length s).
      { destruct (decide (w < length s)); [done|]. rewrite peek_ge in E by lia. congruence. }
      apply IH; lia.
Qed.

(** X15. White space before a token changes nothing: from a cursor that
    reads a space, tab, carriage return or line feed the loop does exactly
    what it does from the next character. *)
Theorem leading_space_is_skipped
    (fuel : nat) (input : cstr) (walk : nat) (result : CommandResult) (g : globals W) :
  is_space (peek input walk) = true ->
  parse_loop' fuel input walk result g = parse_loop' fuel input (S walk) result g.
Proof.
  intros Hsp.
  assert (Hlt : walk < length input).
  { destruct (decide (walk < length input)); [done|].
    rewrite peek_ge in Hsp by lia. discriminate. }
  destruct fuel as [|fuel]; cbn [parse_loop].
  - destruct (Nat.ltb_spec (length input) walk); [lia|].
    by destruct (Nat.ltb_spec (length input) (S walk)); [lia|].
  - destruct (Nat.ltb_spec (length input) walk); [lia|].
    destruct (Nat.ltb_spec (length input) (S walk)); [lia|].
    assert (Hscan : scan_while (S (length input)) is_space input walk =
                    scan_while (S (length input)) is_space input (S walk)).
    { transitivity (if is_space (peek input walk)
                    then scan_while (length input) is_space input (S walk) else walk);
        [reflexivity|].
      rewrite Hsp. apply scan_while_fuel; [done|lia|lia]. }
    by rewrite Hscan.
Qed.

Lemma parse_loop_dispatches input result :
  (forall s, forallb literal_nonempty (tokens s) = true) ->
  forall fuel walk g res g',
    parse_loop' fuel input walk result g = Ret (res, g') ->
    exists tr, delta g g' tr /\ dispatches tr <= length input + 1 - walk.
Proof.
  intros Hlit. induction fuel as [|fuel IH]; intros walk g res g'; cbn [parse_loop].
  - destruct (length input <? walk); [|done]. intros [= <- <-].
    exists []. split; [apply delta_refl|cbv; lia].
  - destruct (Nat.ltb_spec (length input) walk).
    { intros [= <- <-]. exists []. split; [apply delta_refl|cbv; lia]. }
    pose proof (scan_while_ge is_space input (S (length input)) walk) as Hws.
    destruct (try_tokens' input _ _ g) as [[[h w1] g1]| |] eqn:Et; cbn [bind]; [|done|done].
    destruct (try_tokens_spec _ _ _ _ _ _ _ _ _ _ _ _ Et)
      as (tr1 & Hd1 & _ & Hn1 & Hw & Hf & Ht).
    destruct h.
    + specialize (Ht eq_refl (Hlit _)).
      intros Hrun. apply IH in Hrun as (tr & Hd & Hn).
      exists (tr1 ++ tr). split; [by eapply delta_trans|].
      rewrite dispatches_app. lia.
    + destruct (Hf eq_refl) as (-> & ->).
      pose proof (report_error_spec W tokens input w1 result g) as [_ Hd].
      destruct (report_error' input w1 result g) as [res0 g0]. simpl in Hd.
      intros [= <- <-]. eexists. split; [apply Hd|].
      destruct (any_render_error_events input
                  (errormessage (tokens (g_state g))) (position input w1) (gen_of g))
        as (_ & -> & _). lia.
Qed.

(** X16. With no empty literal in the table, a call makes at most one
    dispatch per character of the input, plus one for its end. *)
Theorem dispatches_bounded_by_input
    (fuel : nat) (input : cstr) (gen : option yajl_gen) (client : option ipc_client)
    (g : globals W) (res : CommandResult) (g' : globals W) :
  (forall s, forallb literal_nonempty (tokens s) = true) ->
  parse_command' fuel input gen client g = Ret (res, g') ->
  exists tr, g_trace g' = g_trace g ++ tr /\ dispatches tr <= length input + 1.
Proof.
  intros Hlit Hrun.
  destruct (parse_command_unfold W INITIAL __CALL tokens GENERATED_call cmd_criteria_init
              fuel input gen client g) as (g_a & tr_a & Ta & Htr & _ & _ & _ & _ & Heq).
  rewrite Heq in Hrun.
  destruct (parse_loop' fuel input 0 _ g_a) as [[res1 g1]| |] eqn:El; simpl in Hrun;
    [|done|done].
  injection Hrun as <- <-.
  apply parse_loop_dispatches in El as (tr & (T & _) & Hn); [|done].
  destruct (delta_y W g1 yajl_array_close) as (trc & (Tc & _) & _ & Hnc & _).
  exists (tr_a ++ tr ++ trc). split.
  - rewrite Tc, T, Ta. by rewrite <- !app_assoc.
  - rewrite !dispatches_app, Hnc.
    assert (dispatches tr_a = 0) as -> by (subst tr_a; by destruct gen). lia.
Qed.

End DriverSteps.

Lemma quoted_argument_is_captured_witness :
  try_token unit Demo.INITIAL Demo.CALL Demo.GENERATED_call Demo.cmd_criteria_init
    (lit "exec " ++ quote Demo.unquoted_escape_sample ++ lit "; x")
    (Demo.tok "string" (Some "command") Demo.CALL 3) (length (lit "exec ")) Demo.g0 =
  (do g1 <- push_string_if unit (Some (lit "command")) Demo.unquoted_escape_sample Demo.g0;
   Ret (true, length (lit "exec ") + length (quote Demo.unquoted_escape_sample),
        next_state unit Demo.INITIAL Demo.CALL Demo.GENERATED_call
          (Demo.tok "string" (Some "command") Demo.CALL 3) g1)).
Proof.
  apply (quoted_argument_is_captured unit Demo.INITIAL Demo.CALL Demo.GENERATED_call
           Demo.cmd_criteria_init (lit "exec ") Demo.unquoted_escape_sample (lit "; x")
           (Demo.tok "string" (Some "command") Demo.CALL 3) Demo.g0).
  - left. reflexivity.
  - discriminate.
  - unfold wf_cstr. repeat (constructor; [discriminate|]). constructor.
Defined.

Lemma transition_clears_or_keeps_stack_witness :
  names (g_stack (next_state unit Demo.INITIAL Demo.CALL Demo.GENERATED_call
                    (Demo.tok "end" None Demo.CALL 1) Demo.g0)) = [].
Proof.
  refine (proj1 (proj1 (transition_clears_or_keeps_stack unit Demo.INITIAL Demo.CALL
                          Demo.GENERATED_call (Demo.tok "end" None Demo.CALL 1) Demo.g0 _) _)).
  - reflexivity.
  - left. reflexivity.
Defined.

Lemma leading_space_is_skipped_witness :
  parse_loop unit Demo.INITIAL Demo.CALL Demo.tokens Demo.GENERATED_call
    Demo.cmd_criteria_init 12 (lit "  move left") 0
    {| parse_error := false; error_message := None; needs_tree_render := false |} Demo.g0 =
  parse_loop unit Demo.INITIAL Demo.CALL Demo.tokens Demo.GENERATED_call
    Demo.cmd_criteria_init 12 (lit "  move left") 1
    {| parse_error := false; error_message := None; needs_tree_render := false |} Demo.g0.
Proof.
  apply (leading_space_is_skipped unit Demo.INITIAL Demo.CALL Demo.tokens
           Demo.GENERATED_call Demo.cmd_criteria_init).
  reflexivity.
Defined.

Lemma dispatches_bounded_by_input_witness :
  exists res final tr,
    parse_command unit Demo.INITIAL Demo.CALL Demo.tokens Demo.GENERATED_call
      Demo.cmd_criteria_init 13 (lit "workspace 4") (Some 7) None Demo.g0
    = Ret (res, final) /\
    g_trace final = g_trace Demo.g0 ++ tr /\ dispatches tr <= length (lit "workspace 4") + 1.
Proof.
  destruct workspace_command as (res & final & E & _).
  destruct (dispatches_bounded_by_input unit Demo.INITIAL Demo.CALL Demo.tokens
              Demo.GENERATED_call Demo.cmd_criteria_init 13 (lit "workspace 4")
              (Some 7) None Demo.g0 res final demo_literals_nonempty E) as (tr & T & Hn).
  exists res, final, tr. split; [exact E|]. split; [exact T|exact Hn].
Defined.
